(** * Scene-graph core of the renderer: [Container] and its render groups

    A shallow embedding of [src/scene/container/Container.ts].  JavaScript
    objects live in a store indexed by object identity; every method is a
    state transformer that may throw.  The collaborators whose code is not
    part of [Container.ts] ([Matrix], [RenderGroup], the children and sort
    mixins, the event emitter) are modelled from the design document and
    marked as such. *)

From Stdlib Require Import ZArith List Bool Lia.
From stdpp Require Import base option list gmap.

Open Scope Z_scope.

(** ** JavaScript numbers

    Every [number] that holds a real quantity (matrix entries, alpha,
    angles) is an IEEE double in the program.  The development keeps the
    carrier abstract and only names the operations the code uses, so that
    nothing proved below depends on a law that doubles do not satisfy. *)

Class JSNumber (R : Type) : Type := {
  num_zero : R;
  num_one : R;
  num_add : R -> R -> R;
  num_sub : R -> R -> R;
  num_mul : R -> R -> R;
  num_neg : R -> R;
  num_cos : R -> R;
  num_sin : R -> R;
  num_gt : R -> R -> bool
}.

(** Exact integer arithmetic: the instance on which concrete scenarios are
    evaluated.  Its trigonometry is the one of the angle 0. *)
#[export] Instance exact_arith : JSNumber Z := {|
  num_zero := 0;
  num_one := 1;
  num_add := Z.add;
  num_sub := Z.sub;
  num_mul := Z.mul;
  num_neg := Z.opp;
  num_cos := fun _ => 1;
  num_sin := fun _ => 0;
  num_gt := Z.gtb
|}.

(** ** Matrix *)

Module Matrix.
Section Matrix.
Context {R : Type} `{JSNumber R}.

(** The 2D affine matrix | a c tx | b d ty | 0 0 1 |. *)
Record t : Type := mk { a : R; b : R; c : R; d : R; tx : R; ty : R }.

(** Modelled from the spec: [new Matrix()], of the absent [Matrix.ts]; a
    node is created with the identity transform. *)
Definition new : t :=
  {| a := num_one; b := num_zero; c := num_zero; d := num_one;
     tx := num_zero; ty := num_zero |}.

(** Modelled from the spec: [this.copyFrom(src)], of the absent
    [Matrix.ts]; the receiver takes the six entries of [src] verbatim. *)
Definition copyFrom (this src : t) : t :=
  {| a := a src; b := b src; c := c src; d := d src; tx := tx src; ty := ty src |}.

(** Modelled from the spec: [this.appendFrom(m1, m2)], of the absent
    [Matrix.ts]; the receiver becomes the composition that applies [m1]
    first and [m2] second. *)
Definition appendFrom (this m1 m2 : t) : t :=
  {| a := num_add (num_mul (a m1) (a m2)) (num_mul (b m1) (c m2));
     b := num_add (num_mul (a m1) (b m2)) (num_mul (b m1) (d m2));
     c := num_add (num_mul (c m1) (a m2)) (num_mul (d m1) (c m2));
     d := num_add (num_mul (c m1) (b m2)) (num_mul (d m1) (d m2));
     tx := num_add (num_add (num_mul (tx m1) (a m2)) (num_mul (ty m1) (c m2))) (tx m2);
     ty := num_add (num_add (num_mul (tx m1) (b m2)) (num_mul (ty m1) (d m2))) (ty m2) |}.

(** The image of the point (x, y) under the matrix. *)
Definition apply (m : t) (p : R * R) : R * R :=
  (num_add (num_add (num_mul (a m) (fst p)) (num_mul (c m) (snd p))) (tx m),
   num_add (num_add (num_mul (b m) (fst p)) (num_mul (d m) (snd p))) (ty m)).
End Matrix.
Arguments t : clear implicits.
End Matrix.

(** ** Object identities *)

(** Containers, render groups and observable points are JavaScript objects:
    each is named by a natural number that stands for its identity. *)
Abbreviation nid := nat (only parsing).
Abbreviation rgid := nat (only parsing).

Inductive error : Type :=
| TypeError             (* a property of null was read or written *)
| UnsupportedOperation  (* Error('[Pixi] cannot undo a render group just yet') *)
| DanglingReference     (* model only: a render group absent from the store *)
| OutOfFuel.            (* model only: a loop did not finish within the fuel *)

(** What the destroy method is given: a boolean or an option record. *)
Inductive DestroyOptions : Type :=
| OptBoolean (b : bool)
| OptRecord (children texture textureSource context : option bool).

(** Calls that leave the container: events sent through the emitter and
    calls into the render group and the mixins' hooks. *)
Inductive Event : Type :=
| EvDeprecation
| EvChildAdded (target child container : nid) (index : Z)
| EvAdded (target container : nid)
| EvChildRemoved (target child container : nid) (index : Z)
| EvRemoved (target container : nid)
| EvDestroyed (target : nid)
| EvRemoveAllListeners (target : nid)
| EvOnChildUpdate (group : rgid) (child : nid)
| EvOnChildViewUpdate (group : rgid) (child : nid)
| EvDepthOfChildModified (child : nid)
| EvViewDestroy (view : nat) (options : DestroyOptions).

(** ** Render groups *)

Module RenderGroup.
Section RenderGroup.
Context {R : Type}.

(** Modelled from the spec: the class [RenderGroup], of the absent
    [RenderGroup.ts], with the fields the design document lists for a render
    group; [_children] is the list of member nodes ("that group's child
    list"). *)
Record t : Type := mk {
  root : nid;
  renderGroupParent : option rgid;
  renderGroupChildren : list rgid;
  _children : list nid;
  worldTransform : Matrix.t R;
  structureDidChange : bool;
  proxyRenderable : option nat
}.

Definition set_renderGroupParent (v : option rgid) (g : t) : t :=
  {| root := root g; renderGroupParent := v; renderGroupChildren := renderGroupChildren g;
     _children := _children g; worldTransform := worldTransform g;
     structureDidChange := structureDidChange g; proxyRenderable := proxyRenderable g |}.

Definition set_renderGroupChildren (v : list rgid) (g : t) : t :=
  {| root := root g; renderGroupParent := renderGroupParent g; renderGroupChildren := v;
     _children := _children g; worldTransform := worldTransform g;
     structureDidChange := structureDidChange g; proxyRenderable := proxyRenderable g |}.

Definition set_children (v : list nid) (g : t) : t :=
  {| root := root g; renderGroupParent := renderGroupParent g;
     renderGroupChildren := renderGroupChildren g;
     _children := v; worldTransform := worldTransform g;
     structureDidChange := structureDidChange g; proxyRenderable := proxyRenderable g |}.

Definition set_structureDidChange (v : bool) (g : t) : t :=
  {| root := root g; renderGroupParent := renderGroupParent g;
     renderGroupChildren := renderGroupChildren g;
     _children := _children g; worldTransform := worldTransform g;
     structureDidChange := v; proxyRenderable := proxyRenderable g |}.

Definition set_proxyRenderable (v : option nat) (g : t) : t :=
  {| root := root g; renderGroupParent := renderGroupParent g;
     renderGroupChildren := renderGroupChildren g;
     _children := _children g; worldTransform := worldTransform g;
     structureDidChange := structureDidChange g; proxyRenderable := v |}.
End RenderGroup.
Arguments t : clear implicits.
End RenderGroup.

(** ** JavaScript arrays of object references *)

(** [Array.prototype.indexOf]: the first position of [x], or -1. *)
Definition indexOf (x : nat) (l : list nat) : Z :=
  match list_find (fun y => y = x) l with
  | Some (i, _) => Z.of_nat i
  | None => -1
  end.

(** [Array.prototype.splice(start, 1)]: a negative [start] counts from the
    end of the array, and a position past the end removes nothing. *)
Definition splice1 (start : Z) (l : list nat) : list nat :=
  let len := Z.of_nat (length l) in
  let k := if start <? 0 then Z.max (len + start) 0 else Z.min start len in
  delete (Z.to_nat k) l.

(** The guarded idiom [i = l.indexOf(x); if (i > -1) l.splice(i, 1)]. *)
Definition remove_item (x : nat) (l : list nat) : list nat :=
  if indexOf x l >? -1 then splice1 (indexOf x l) l else l.

(** The update-category bits. *)
Definition UPDATE_COLOR : Z := 1.
Definition UPDATE_BLEND : Z := 2.
Definition UPDATE_VISIBLE : Z := 4.
Definition UPDATE_TRANSFORM : Z := 8.

Section Scene.
Context {R : Type} `{JSNumber R}.

(** Modelled from the spec: the class [ObservablePoint], of the absent
    [ObservablePoint.ts], an observable 2-vector; [pt_id] is the identity
    of the object. *)
Record ObservablePoint : Type := mkPoint { pt_id : nat; _x : R; _y : R }.

Definition defaultSkew : ObservablePoint := mkPoint 0 num_zero num_zero.
Definition defaultPivot : ObservablePoint := mkPoint 1 num_zero num_zero.
Definition defaultScale : ObservablePoint := mkPoint 2 num_one num_one.

Record Container : Type := mkContainer {
  _updateFlags : Z;
  isRenderGroupRoot : bool;
  renderGroup : option rgid;
  didChange : bool;
  didViewUpdate : bool;
  relativeRenderGroupDepth : Z;
  children : list nid;
  parent : option nid;
  isSimple : bool;
  localTransform : Matrix.t R;
  rgTransform : Matrix.t R;
  _worldTransform : option (Matrix.t R);
  destroyed : bool;
  _position : option ObservablePoint;
  _scale : option ObservablePoint;
  _pivot : option ObservablePoint;
  _skew : option ObservablePoint;
  _cx : R;
  _sx : R;
  _cy : R;
  _sy : R;
  _rotation : R;
  localAlpha : R;
  rgAlpha : R;
  localVisibleRenderable : Z;
  rgVisibleRenderable : Z;
  effects : option (list nat);
  _mask : option nat;
  _filters : option (list nat);
  view : option nat;
  allowChildren : bool;
  sortableChildren : bool;
  sortDirty : bool;
  _zIndex : Z
}.

Definition set_updateFlags (v : Z) (c : Container) : Container :=
  {|
    _updateFlags := v; isRenderGroupRoot := isRenderGroupRoot c;
    renderGroup := renderGroup c; didChange := didChange c;
    didViewUpdate := didViewUpdate c;
    relativeRenderGroupDepth := relativeRenderGroupDepth c; children := children c;
    parent := parent c; isSimple := isSimple c; localTransform := localTransform c;
    rgTransform := rgTransform c; _worldTransform := _worldTransform c;
    destroyed := destroyed c; _position := _position c; _scale := _scale c;
    _pivot := _pivot c; _skew := _skew c; _cx := _cx c; _sx := _sx c; _cy := _cy c;
    _sy := _sy c; _rotation := _rotation c; localAlpha := localAlpha c;
    rgAlpha := rgAlpha c; localVisibleRenderable := localVisibleRenderable c;
    rgVisibleRenderable := rgVisibleRenderable c; effects := effects c; _mask := _mask c;
    _filters := _filters c; view := view c; allowChildren := allowChildren c;
    sortableChildren := sortableChildren c; sortDirty := sortDirty c; _zIndex := _zIndex c
  |}.

Definition set_isRenderGroupRoot (v : bool) (c : Container) : Container :=
  {|
    _updateFlags := _updateFlags c; isRenderGroupRoot := v; renderGroup := renderGroup c;
    didChange := didChange c; didViewUpdate := didViewUpdate c;
    relativeRenderGroupDepth := relativeRenderGroupDepth c; children := children c;
    parent := parent c; isSimple := isSimple c; localTransform := localTransform c;
    rgTransform := rgTransform c; _worldTransform := _worldTransform c;
    destroyed := destroyed c; _position := _position c; _scale := _scale c;
    _pivot := _pivot c; _skew := _skew c; _cx := _cx c; _sx := _sx c; _cy := _cy c;
    _sy := _sy c; _rotation := _rotation c; localAlpha := localAlpha c;
    rgAlpha := rgAlpha c; localVisibleRenderable := localVisibleRenderable c;
    rgVisibleRenderable := rgVisibleRenderable c; effects := effects c; _mask := _mask c;
    _filters := _filters c; view := view c; allowChildren := allowChildren c;
    sortableChildren := sortableChildren c; sortDirty := sortDirty c; _zIndex := _zIndex c
  |}.

Definition set_renderGroup (v : option rgid) (c : Container) : Container :=
  {|
    _updateFlags := _updateFlags c; isRenderGroupRoot := isRenderGroupRoot c;
    renderGroup := v; didChange := didChange c; didViewUpdate := didViewUpdate c;
    relativeRenderGroupDepth := relativeRenderGroupDepth c; children := children c;
    parent := parent c; isSimple := isSimple c; localTransform := localTransform c;
    rgTransform := rgTransform c; _worldTransform := _worldTransform c;
    destroyed := destroyed c; _position := _position c; _scale := _scale c;
    _pivot := _pivot c; _skew := _skew c; _cx := _cx c; _sx := _sx c; _cy := _cy c;
    _sy := _sy c; _rotation := _rotation c; localAlpha := localAlpha c;
    rgAlpha := rgAlpha c; localVisibleRenderable := localVisibleRenderable c;
    rgVisibleRenderable := rgVisibleRenderable c; effects := effects c; _mask := _mask c;
    _filters := _filters c; view := view c; allowChildren := allowChildren c;
    sortableChildren := sortableChildren c; sortDirty := sortDirty c; _zIndex := _zIndex c
  |}.

Definition set_didChange (v : bool) (c : Container) : Container :=
  {|
    _updateFlags := _updateFlags c; isRenderGroupRoot := isRenderGroupRoot c;
    renderGroup := renderGroup c; didChange := v; didViewUpdate := didViewUpdate c;
    relativeRenderGroupDepth := relativeRenderGroupDepth c; children := children c;
    parent := parent c; isSimple := isSimple c; localTransform := localTransform c;
    rgTransform := rgTransform c; _worldTransform := _worldTransform c;
    destroyed := destroyed c; _position := _position c; _scale := _scale c;
    _pivot := _pivot c; _skew := _skew c; _cx := _cx c; _sx := _sx c; _cy := _cy c;
    _sy := _sy c; _rotation := _rotation c; localAlpha := localAlpha c;
    rgAlpha := rgAlpha c; localVisibleRenderable := localVisibleRenderable c;
    rgVisibleRenderable := rgVisibleRenderable c; effects := effects c; _mask := _mask c;
    _filters := _filters c; view := view c; allowChildren := allowChildren c;
    sortableChildren := sortableChildren c; sortDirty := sortDirty c; _zIndex := _zIndex c
  |}.

Definition set_didViewUpdate (v : bool) (c : Container) : Container :=
  {|
    _updateFlags := _updateFlags c; isRenderGroupRoot := isRenderGroupRoot c;
    renderGroup := renderGroup c; didChange := didChange c; didViewUpdate := v;
    relativeRenderGroupDepth := relativeRenderGroupDepth c; children := children c;
    parent := parent c; isSimple := isSimple c; localTransform := localTransform c;
    rgTransform := rgTransform c; _worldTransform := _worldTransform c;
    destroyed := destroyed c; _position := _position c; _scale := _scale c;
    _pivot := _pivot c; _skew := _skew c; _cx := _cx c; _sx := _sx c; _cy := _cy c;
    _sy := _sy c; _rotation := _rotation c; localAlpha := localAlpha c;
    rgAlpha := rgAlpha c; localVisibleRenderable := localVisibleRenderable c;
    rgVisibleRenderable := rgVisibleRenderable c; effects := effects c; _mask := _mask c;
    _filters := _filters c; view := view c; allowChildren := allowChildren c;
    sortableChildren := sortableChildren c; sortDirty := sortDirty c; _zIndex := _zIndex c
  |}.

Definition set_relativeRenderGroupDepth (v : Z) (c : Container) : Container :=
  {|
    _updateFlags := _updateFlags c; isRenderGroupRoot := isRenderGroupRoot c;
    renderGroup := renderGroup c; didChange := didChange c;
    didViewUpdate := didViewUpdate c; relativeRenderGroupDepth := v; children := children c;
    parent := parent c; isSimple := isSimple c; localTransform := localTransform c;
    rgTransform := rgTransform c; _worldTransform := _worldTransform c;
    destroyed := destroyed c; _position := _position c; _scale := _scale c;
    _pivot := _pivot c; _skew := _skew c; _cx := _cx c; _sx := _sx c; _cy := _cy c;
    _sy := _sy c; _rotation := _rotation c; localAlpha := localAlpha c;
    rgAlpha := rgAlpha c; localVisibleRenderable := localVisibleRenderable c;
    rgVisibleRenderable := rgVisibleRenderable c; effects := effects c; _mask := _mask c;
    _filters := _filters c; view := view c; allowChildren := allowChildren c;
    sortableChildren := sortableChildren c; sortDirty := sortDirty c; _zIndex := _zIndex c
  |}.

Definition set_children (v : list nid) (c : Container) : Container :=
  {|
    _updateFlags := _updateFlags c; isRenderGroupRoot := isRenderGroupRoot c;
    renderGroup := renderGroup c; didChange := didChange c;
    didViewUpdate := didViewUpdate c;
    relativeRenderGroupDepth := relativeRenderGroupDepth c; children := v;
    parent := parent c; isSimple := isSimple c; localTransform := localTransform c;
    rgTransform := rgTransform c; _worldTransform := _worldTransform c;
    destroyed := destroyed c; _position := _position c; _scale := _scale c;
    _pivot := _pivot c; _skew := _skew c; _cx := _cx c; _sx := _sx c; _cy := _cy c;
    _sy := _sy c; _rotation := _rotation c; localAlpha := localAlpha c;
    rgAlpha := rgAlpha c; localVisibleRenderable := localVisibleRenderable c;
    rgVisibleRenderable := rgVisibleRenderable c; effects := effects c; _mask := _mask c;
    _filters := _filters c; view := view c; allowChildren := allowChildren c;
    sortableChildren := sortableChildren c; sortDirty := sortDirty c; _zIndex := _zIndex c
  |}.

Definition set_parent (v : option nid) (c : Container) : Container :=
  {|
    _updateFlags := _updateFlags c; isRenderGroupRoot := isRenderGroupRoot c;
    renderGroup := renderGroup c; didChange := didChange c;
    didViewUpdate := didViewUpdate c;
    relativeRenderGroupDepth := relativeRenderGroupDepth c; children := children c;
    parent := v; isSimple := isSimple c; localTransform := localTransform c;
    rgTransform := rgTransform c; _worldTransform := _worldTransform c;
    destroyed := destroyed c; _position := _position c; _scale := _scale c;
    _pivot := _pivot c; _skew := _skew c; _cx := _cx c; _sx := _sx c; _cy := _cy c;
    _sy := _sy c; _rotation := _rotation c; localAlpha := localAlpha c;
    rgAlpha := rgAlpha c; localVisibleRenderable := localVisibleRenderable c;
    rgVisibleRenderable := rgVisibleRenderable c; effects := effects c; _mask := _mask c;
    _filters := _filters c; view := view c; allowChildren := allowChildren c;
    sortableChildren := sortableChildren c; sortDirty := sortDirty c; _zIndex := _zIndex c
  |}.

Definition set_isSimple (v : bool) (c : Container) : Container :=
  {|
    _updateFlags := _updateFlags c; isRenderGroupRoot := isRenderGroupRoot c;
    renderGroup := renderGroup c; didChange := didChange c;
    didViewUpdate := didViewUpdate c;
    relativeRenderGroupDepth := relativeRenderGroupDepth c; children := children c;
    parent := parent c; isSimple := v; localTransform := localTransform c;
    rgTransform := rgTransform c; _worldTransform := _worldTransform c;
    destroyed := destroyed c; _position := _position c; _scale := _scale c;
    _pivot := _pivot c; _skew := _skew c; _cx := _cx c; _sx := _sx c; _cy := _cy c;
    _sy := _sy c; _rotation := _rotation c; localAlpha := localAlpha c;
    rgAlpha := rgAlpha c; localVisibleRenderable := localVisibleRenderable c;
    rgVisibleRenderable := rgVisibleRenderable c; effects := effects c; _mask := _mask c;
    _filters := _filters c; view := view c; allowChildren := allowChildren c;
    sortableChildren := sortableChildren c; sortDirty := sortDirty c; _zIndex := _zIndex c
  |}.

Definition set_worldTransform (v : option (Matrix.t R)) (c : Container) : Container :=
  {|
    _updateFlags := _updateFlags c; isRenderGroupRoot := isRenderGroupRoot c;
    renderGroup := renderGroup c; didChange := didChange c;
    didViewUpdate := didViewUpdate c;
    relativeRenderGroupDepth := relativeRenderGroupDepth c; children := children c;
    parent := parent c; isSimple := isSimple c; localTransform := localTransform c;
    rgTransform := rgTransform c; _worldTransform := v; destroyed := destroyed c;
    _position := _position c; _scale := _scale c; _pivot := _pivot c; _skew := _skew c;
    _cx := _cx c; _sx := _sx c; _cy := _cy c; _sy := _sy c; _rotation := _rotation c;
    localAlpha := localAlpha c; rgAlpha := rgAlpha c;
    localVisibleRenderable := localVisibleRenderable c;
    rgVisibleRenderable := rgVisibleRenderable c; effects := effects c; _mask := _mask c;
    _filters := _filters c; view := view c; allowChildren := allowChildren c;
    sortableChildren := sortableChildren c; sortDirty := sortDirty c; _zIndex := _zIndex c
  |}.

Definition set_destroyed (v : bool) (c : Container) : Container :=
  {|
    _updateFlags := _updateFlags c; isRenderGroupRoot := isRenderGroupRoot c;
    renderGroup := renderGroup c; didChange := didChange c;
    didViewUpdate := didViewUpdate c;
    relativeRenderGroupDepth := relativeRenderGroupDepth c; children := children c;
    parent := parent c; isSimple := isSimple c; localTransform := localTransform c;
    rgTransform := rgTransform c; _worldTransform := _worldTransform c; destroyed := v;
    _position := _position c; _scale := _scale c; _pivot := _pivot c; _skew := _skew c;
    _cx := _cx c; _sx := _sx c; _cy := _cy c; _sy := _sy c; _rotation := _rotation c;
    localAlpha := localAlpha c; rgAlpha := rgAlpha c;
    localVisibleRenderable := localVisibleRenderable c;
    rgVisibleRenderable := rgVisibleRenderable c; effects := effects c; _mask := _mask c;
    _filters := _filters c; view := view c; allowChildren := allowChildren c;
    sortableChildren := sortableChildren c; sortDirty := sortDirty c; _zIndex := _zIndex c
  |}.

Definition set_localVisibleRenderable (v : Z) (c : Container) : Container :=
  {|
    _updateFlags := _updateFlags c; isRenderGroupRoot := isRenderGroupRoot c;
    renderGroup := renderGroup c; didChange := didChange c;
    didViewUpdate := didViewUpdate c;
    relativeRenderGroupDepth := relativeRenderGroupDepth c; children := children c;
    parent := parent c; isSimple := isSimple c; localTransform := localTransform c;
    rgTransform := rgTransform c; _worldTransform := _worldTransform c;
    destroyed := destroyed c; _position := _position c; _scale := _scale c;
    _pivot := _pivot c; _skew := _skew c; _cx := _cx c; _sx := _sx c; _cy := _cy c;
    _sy := _sy c; _rotation := _rotation c; localAlpha := localAlpha c;
    rgAlpha := rgAlpha c; localVisibleRenderable := v;
    rgVisibleRenderable := rgVisibleRenderable c; effects := effects c; _mask := _mask c;
    _filters := _filters c; view := view c; allowChildren := allowChildren c;
    sortableChildren := sortableChildren c; sortDirty := sortDirty c; _zIndex := _zIndex c
  |}.

Definition set_sortDirty (v : bool) (c : Container) : Container :=
  {|
    _updateFlags := _updateFlags c; isRenderGroupRoot := isRenderGroupRoot c;
    renderGroup := renderGroup c; didChange := didChange c;
    didViewUpdate := didViewUpdate c;
    relativeRenderGroupDepth := relativeRenderGroupDepth c; children := children c;
    parent := parent c; isSimple := isSimple c; localTransform := localTransform c;
    rgTransform := rgTransform c; _worldTransform := _worldTransform c;
    destroyed := destroyed c; _position := _position c; _scale := _scale c;
    _pivot := _pivot c; _skew := _skew c; _cx := _cx c; _sx := _sx c; _cy := _cy c;
    _sy := _sy c; _rotation := _rotation c; localAlpha := localAlpha c;
    rgAlpha := rgAlpha c; localVisibleRenderable := localVisibleRenderable c;
    rgVisibleRenderable := rgVisibleRenderable c; effects := effects c; _mask := _mask c;
    _filters := _filters c; view := view c; allowChildren := allowChildren c;
    sortableChildren := sortableChildren c; sortDirty := v; _zIndex := _zIndex c
  |}.

Definition set_basis (cx sx cy sy : R) (c : Container) : Container :=
  {|
    _updateFlags := _updateFlags c; isRenderGroupRoot := isRenderGroupRoot c;
    renderGroup := renderGroup c; didChange := didChange c;
    didViewUpdate := didViewUpdate c;
    relativeRenderGroupDepth := relativeRenderGroupDepth c; children := children c;
    parent := parent c; isSimple := isSimple c; localTransform := localTransform c;
    rgTransform := rgTransform c; _worldTransform := _worldTransform c;
    destroyed := destroyed c; _position := _position c; _scale := _scale c;
    _pivot := _pivot c; _skew := _skew c; _cx := cx; _sx := sx; _cy := cy; _sy := sy;
    _rotation := _rotation c; localAlpha := localAlpha c; rgAlpha := rgAlpha c;
    localVisibleRenderable := localVisibleRenderable c;
    rgVisibleRenderable := rgVisibleRenderable c; effects := effects c; _mask := _mask c;
    _filters := _filters c; view := view c; allowChildren := allowChildren c;
    sortableChildren := sortableChildren c; sortDirty := sortDirty c; _zIndex := _zIndex c
  |}.

Definition release_references (c : Container) : Container :=
  {|
    _updateFlags := _updateFlags c; isRenderGroupRoot := isRenderGroupRoot c;
    renderGroup := renderGroup c; didChange := didChange c;
    didViewUpdate := didViewUpdate c;
    relativeRenderGroupDepth := relativeRenderGroupDepth c; children := children c;
    parent := None; isSimple := isSimple c; localTransform := localTransform c;
    rgTransform := rgTransform c; _worldTransform := _worldTransform c;
    destroyed := destroyed c; _position := None; _scale := None; _pivot := None;
    _skew := None; _cx := _cx c; _sx := _sx c; _cy := _cy c; _sy := _sy c;
    _rotation := _rotation c; localAlpha := localAlpha c; rgAlpha := rgAlpha c;
    localVisibleRenderable := localVisibleRenderable c;
    rgVisibleRenderable := rgVisibleRenderable c; effects := None; _mask := None;
    _filters := None; view := view c; allowChildren := allowChildren c;
    sortableChildren := sortableChildren c; sortDirty := sortDirty c; _zIndex := _zIndex c
  |}.

(** *** The store *)

Record State : Type := mkState {
  containers : gmap nid Container;
  groups : gmap rgid (RenderGroup.t R);
  next_group : rgid;
  trace : list Event   (* newest first *)
}.

(** [new Container()]: the state of a node right after construction with
    no options (the last four fields are declared by the children and sort
    mixins and start as the design document says: children allowed, no
    sorting, sort key 0).  A node the store has no entry for is in that
    state. *)
Definition new_Container (n : nid) : Container :=
  {| _updateFlags := 15; isRenderGroupRoot := false; renderGroup := None;
     didChange := false; didViewUpdate := false; relativeRenderGroupDepth := 0;
     children := []; parent := None; isSimple := true;
     localTransform := Matrix.new; rgTransform := Matrix.new; _worldTransform := None;
     destroyed := false;
     _position := Some (mkPoint (3 + n) num_zero num_zero);
     _scale := Some defaultScale; _pivot := Some defaultPivot; _skew := Some defaultSkew;
     _cx := num_one; _sx := num_zero; _cy := num_zero; _sy := num_one;
     _rotation := num_zero; localAlpha := num_one; rgAlpha := num_one;
     localVisibleRenderable := 3; rgVisibleRenderable := 3;
     effects := Some []; _mask := None; _filters := None; view := None;
     allowChildren := true; sortableChildren := false; sortDirty := false; _zIndex := 0 |}.

Definition empty_scene : State :=
  {| containers := ∅; groups := ∅; next_group := 0%nat; trace := [] |}.

Definition container (s : State) (n : nid) : Container :=
  default (new_Container n) (containers s !! n).

Definition update (n : nid) (f : Container -> Container) (s : State) : State :=
  {| containers := <[n := f (container s n)]> (containers s); groups := groups s;
     next_group := next_group s; trace := trace s |}.

Definition update_group (g : rgid) (f : RenderGroup.t R -> RenderGroup.t R) (s : State)
  : State :=
  {| containers := containers s; groups := alter f g (groups s);
     next_group := next_group s; trace := trace s |}.

Definition log (e : Event) (s : State) : State :=
  {| containers := containers s; groups := groups s;
     next_group := next_group s; trace := e :: trace s |}.

(** *** Methods: state transformers that return or throw *)

Inductive outcome (A : Type) : Type :=
| Ok (a : A) (s : State)
| Throw (e : error) (s : State).
Arguments Ok {A} a s.
Arguments Throw {A} e s.

Definition M (A : Type) : Type := State -> outcome A.

Definition ret {A} (a : A) : M A := fun s => Ok a s.
Definition bind {A B} (m : M A) (k : A -> M B) : M B :=
  fun s => match m s with Ok a s' => k a s' | Throw e s' => Throw e s' end.
Definition throw {A} (e : error) : M A := fun s => Throw e s.
Definition lift (f : State -> State) : M unit := fun s => Ok tt (f s).

(** The store a call leaves behind, whether it returned or threw. *)
Definition final {A} (o : outcome A) : State :=
  match o with Ok _ s => s | Throw _ s => s end.

Notation "'do' x <- m ; k" := (bind m (fun x => k))
  (at level 10, x name, m at level 100, k at level 200).
Notation "'run' m ; k" := (bind m (fun _ => k))
  (at level 10, m at level 100, k at level 200).

Definition getC (n : nid) : M Container := fun s => Ok (container s n) s.
Definition modify (n : nid) (f : Container -> Container) : M unit := lift (update n f).
Definition getG (g : rgid) : M (RenderGroup.t R) :=
  fun s => match groups s !! g with
           | Some G => Ok G s
           | None => Throw DanglingReference s
           end.
Definition modifyG (g : rgid) (f : RenderGroup.t R -> RenderGroup.t R) : M unit :=
  run getG g; lift (update_group g f).
Definition emit (e : Event) : M unit := lift (log e).

Fixpoint forEach {A} (f : A -> M unit) (l : list A) : M unit :=
  match l with
  | [] => ret tt
  | x :: l' => run f x; forEach f l'
  end.

(** *** Render-group methods

    [RenderGroup.ts] is not among the sources: each method below is written
    from what the design document says the call achieves. *)

Definition group_owned_by (s : State) (n : nid) : option rgid :=
  match renderGroup (container s n) with
  | Some g =>
      match groups s !! g with
      | Some G => if decide (RenderGroup.root G = n) then Some g else None
      | None => None
      end
  | None => None
  end.

(** Modelled from the spec: [new RenderGroup(root)], of the absent
    [RenderGroup.ts]; "create a new render group rooted at this node".  The
    group starts with the identity world transform, no parent, no nested
    group, and its structure still to be built. *)
Definition RenderGroup_new (root : nid) : M rgid :=
  fun s =>
    let g := next_group s in
    Ok g {| containers := containers s;
            groups := <[g := RenderGroup.mk root None [] [] Matrix.new true None]> (groups s);
            next_group := S g;
            trace := trace s |}.

(** Modelled from the spec: [group.addRenderGroupChild(child)], of the
    absent [RenderGroup.ts]; the nested group "becomes a child of the new
    group instead of the old one": it leaves the list of its former parent,
    takes [group] as parent and is pushed on [group]'s list. *)
Definition RenderGroup_addRenderGroupChild (group child : rgid) (s : State) : State :=
  let s1 :=
    match groups s !! child with
    | Some C =>
        match RenderGroup.renderGroupParent C with
        | Some old =>
            update_group old
              (fun G => RenderGroup.set_renderGroupChildren
                          (remove_item child (RenderGroup.renderGroupChildren G)) G) s
        | None => s
        end
    | None => s
    end in
  let s2 := update_group child (RenderGroup.set_renderGroupParent (Some group)) s1 in
  update_group group
    (fun G => RenderGroup.set_renderGroupChildren
                (RenderGroup.renderGroupChildren G ++ [child]) G) s2.

(** Modelled from the spec: [group.removeChild(child)], of the absent
    [RenderGroup.ts]; "detaches it from its render group": the group's
    structure is dirty, the node leaves the group's child list, a node that
    owns a render group has that group unregistered from [group], and any
    other node loses its membership. *)
Definition RenderGroup_removeChild (group : rgid) (child : nid) (s : State) : State :=
  let s1 :=
    update_group group
      (fun G => RenderGroup.set_children (remove_item child (RenderGroup._children G))
                  (RenderGroup.set_structureDidChange true G)) s in
  match group_owned_by s1 child with
  | Some own =>
      update_group own (RenderGroup.set_renderGroupParent None)
        (update_group group
           (fun G => RenderGroup.set_renderGroupChildren
                       (remove_item own (RenderGroup.renderGroupChildren G)) G) s1)
  | None => update child (set_renderGroup None) s1
  end.

(** Modelled from the spec: [group.addChild(child)], of the absent
    [RenderGroup.ts]; "propagates render-group membership": the group's
    structure is dirty, a node that owns a render group has it registered
    as a nested group, and any other node becomes a member, at one level
    below its parent (level 1 below the group's root). *)
Definition RenderGroup_addChild (group : rgid) (child : nid) (s : State) : State :=
  let s1 := update_group group (RenderGroup.set_structureDidChange true) s in
  match group_owned_by s1 child with
  | Some own => RenderGroup_addRenderGroupChild group own s1
  | None =>
      let depth :=
        match parent (container s1 child) with
        | Some p =>
            match groups s1 !! group with
            | Some G =>
                if decide (RenderGroup.root G = p) then 1
                else relativeRenderGroupDepth (container s1 p) + 1
            | None => relativeRenderGroupDepth (container s1 p) + 1
            end
        | None => 1
        end in
      update_group group
        (fun G => RenderGroup.set_children (RenderGroup._children G ++ [child]) G)
        (update child
           (fun c => set_relativeRenderGroupDepth depth (set_renderGroup (Some group) c)) s1)
  end.

(** Modelled from the spec: [group.onChildUpdate(child)], of the absent
    [RenderGroup.ts]; the group is notified that the node changed. *)
Definition RenderGroup_onChildUpdate (group : rgid) (child : nid) : M unit :=
  emit (EvOnChildUpdate group child).

(** Modelled from the spec: [group.onChildViewUpdate(child)], of the
    absent [RenderGroup.ts]; the group is notified that the node's view
    changed. *)
Definition RenderGroup_onChildViewUpdate (group : rgid) (child : nid) : M unit :=
  emit (EvOnChildViewUpdate group child).

(** Modelled from the spec: [child.depthOfChildModified()], of the absent
    [sortMixin.ts]; the sort-order-dirty hook of the sort collaborator. *)
Definition depthOfChildModified (child : nid) : M unit :=
  emit (EvDepthOfChildModified child).

(** *** Container methods, from [Container.ts] *)

Definition deprecation_check (this : nid) : M unit :=
  do c <- getC this;
  if allowChildren c then ret tt else emit EvDeprecation.

(** [removeChild] with one argument. *)
Definition removeChild1 (this child : nid) : M nid :=
  do c <- getC this;
  let index := indexOf child (children c) in
  run (if index >? -1 then
         run modify this (fun c => set_children (splice1 index (children c)) c);
         do c <- getC this;
         match renderGroup c with
         | Some g => lift (RenderGroup_removeChild g child)
         | None => ret tt
         end
       else ret tt);
  run modify child (set_parent None);
  run emit (EvChildRemoved this child this index);
  run emit (EvRemoved child this);
  ret child.

Definition removeChild (this : nid) (children : list nid) : M nid :=
  match children with
  | [] => throw TypeError
  | [child] => removeChild1 this child
  | child :: _ =>
      run forEach (fun c => run removeChild1 this c; ret tt) children;
      ret child
  end.

(** [addChild] with one argument. *)
Definition addChild1 (this child : nid) : M nid :=
  run deprecation_check this;
  do ch <- getC child;
  if decide (parent ch = Some this) then
    run modify this
          (fun c => set_children (splice1 (indexOf child (children c)) (children c)) c);
    run modify this (fun c => set_children (children c ++ [child]) c);
    do c <- getC this;
    run match renderGroup c with
        | Some g =>
            if isRenderGroupRoot c then ret tt
            else modifyG g (RenderGroup.set_structureDidChange true)
        | None => ret tt
        end;
    ret child
  else
    run match parent ch with
        | Some p => run removeChild1 p child; ret tt
        | None => ret tt
        end;
    run modify this (fun c => set_children (children c ++ [child]) c);
    do c <- getC this;
    run (if sortableChildren c then modify this (set_sortDirty true) else ret tt);
    run modify child (set_parent (Some this));
    run modify child (set_didChange true);
    run modify child (set_didViewUpdate false);
    run modify child (set_updateFlags 15);
    do c <- getC this;
    run match renderGroup c with
        | Some g => lift (RenderGroup_addChild g child)
        | None => ret tt
        end;
    do c <- getC this;
    run emit (EvChildAdded this child this (Z.of_nat (length (children c)) - 1));
    run emit (EvAdded child this);
    do ch <- getC child;
    run (if decide (_zIndex ch = 0) then ret tt else depthOfChildModified child);
    ret child.

Definition addChild (this : nid) (children : list nid) : M nid :=
  match children with
  | [] => run deprecation_check this; throw TypeError
  | [child] => addChild1 this child
  | child :: _ =>
      run deprecation_check this;
      run forEach (fun c => run addChild1 this c; ret tt) children;
      ret child
  end.

(** Modelled from the spec: [this.removeFromParent()], of the absent
    [childrenHelperMixin.ts]; the node "severs parent link" by asking its
    parent, when it has one, to remove it. *)
Definition removeFromParent (this : nid) : M unit :=
  do c <- getC this;
  match parent c with
  | Some p => run removeChild1 p this; ret tt
  | None => ret tt
  end.

(** Modelled from the spec: [this.removeChildren(0, this.children.length)],
    of the absent [childrenHelperMixin.ts]; it "removes all children from
    this node (detaching them from the tree)": each child leaves the render
    group of this node and loses its parent, the list is emptied, both sides
    are notified, and the removed children are returned. *)
Definition removeChildren (this : nid) : M (list nid) :=
  do c <- getC this;
  let removed := children c in
  run forEach
        (fun child =>
           do c <- getC this;
           run match renderGroup c with
               | Some g => lift (RenderGroup_removeChild g child)
               | None => ret tt
               end;
           modify child (set_parent None))
        removed;
  run modify this (set_children []);
  run forEach
        (fun ic =>
           run emit (EvChildRemoved this (snd ic) this (Z.of_nat (fst ic)));
           emit (EvRemoved (snd ic) this))
        (imap (fun i child => (i, child)) removed);
  ret removed.

(** [_updateSkew]: the basis scalars of rotation and skew. *)
Definition _updateSkew (this : nid) : M unit :=
  do c <- getC this;
  match _skew c with
  | None => throw TypeError
  | Some skew =>
      let rotation := _rotation c in
      modify this
        (set_basis (num_cos (num_add rotation (_y skew)))
                   (num_sin (num_add rotation (_y skew)))
                   (num_neg (num_sin (num_sub rotation (_x skew))))
                   (num_cos (num_sub rotation (_x skew))))
  end.

(** [onUpdate(point?)]: [point] is the identity of the observable that
    changed, when the call comes from one. *)
Definition onUpdate (point : option nat) (this : nid) : M unit :=
  run match point with
      | Some p =>
          do c <- getC this;
          if decide (pt_id <$> _skew c = Some p) then _updateSkew this else ret tt
      | None => ret tt
      end;
  do c <- getC this;
  if didChange c then ret tt else
  run modify this (set_didChange true);
  do c <- getC this;
  if isRenderGroupRoot c then
    match renderGroup c with
    | None => throw TypeError
    | Some g =>
        do G <- getG g;
        match RenderGroup.renderGroupParent G with
        | Some renderGroupParent => RenderGroup_onChildUpdate renderGroupParent this
        | None => ret tt
        end
    end
  else
    match renderGroup c with
    | Some g => RenderGroup_onChildUpdate g this
    | None => ret tt
    end.

Definition onViewUpdate (this : nid) : M unit :=
  do c <- getC this;
  if didViewUpdate c then ret tt else
  run modify this (set_didViewUpdate true);
  do c <- getC this;
  match renderGroup c with
  | Some g => RenderGroup_onChildViewUpdate g this
  | None => ret tt
  end.

(** [_updateIsSimple]: [&&] does not read [effects] once its left operand
    is false. *)
Definition _updateIsSimple (this : nid) : M unit :=
  do c <- getC this;
  if isRenderGroupRoot c then modify this (set_isSimple false)
  else
    match effects c with
    | None => throw TypeError
    | Some e => modify this (set_isSimple (bool_decide (length e = 0%nat)))
    end.

(** The [while (parent)] walk of [enableRenderGroup]: does the chain of
    parents that starts at [start] pass through [this]? *)
Fixpoint walk_to (fuel : nat) (this : nid) (start : option nid) : M bool :=
  match fuel with
  | O => throw OutOfFuel
  | S k =>
      match start with
      | None => ret false
      | Some p =>
          if decide (p = this) then ret true
          else do c <- getC p; walk_to k this (parent c)
      end
  end.

(** The [for] loop of [enableRenderGroup], from index [i] on: the list and
    its length are read again at every turn. *)
Fixpoint rehome (fuel walk_fuel : nat) (this : nid) (parentRenderGroup : rgid) (i : nat)
  : M unit :=
  match fuel with
  | O => throw OutOfFuel
  | S k =>
      do PG <- getG parentRenderGroup;
      match RenderGroup.renderGroupChildren PG !! i with
      | None => ret tt
      | Some childRenderGroup =>
          do CG <- getG childRenderGroup;
          do found <- walk_to walk_fuel this (Some (RenderGroup.root CG));
          run (if found then
                 do c <- getC this;
                 match renderGroup c with
                 | Some g => lift (RenderGroup_addRenderGroupChild g childRenderGroup)
                 | None => throw TypeError
                 end
               else ret tt);
          rehome k walk_fuel this parentRenderGroup (S i)
      end
  end.

Definition enableRenderGroup (fuel : nat) (this : nid) : M unit :=
  do c <- getC this;
  do owns <- match renderGroup c with
             | Some g => do G <- getG g; ret (bool_decide (RenderGroup.root G = this))
             | None => ret false
             end;
  if owns then ret tt else
  run modify this (set_isRenderGroupRoot true);
  let parentRenderGroup := renderGroup c in
  run match parentRenderGroup with
      | Some pg => lift (RenderGroup_removeChild pg this)
      | None => ret tt
      end;
  do g <- RenderGroup_new this;
  run modify this (set_renderGroup (Some g));
  run match parentRenderGroup with
      | Some pg =>
          run rehome fuel fuel this pg 0%nat;
          do c <- getC this;
          match renderGroup c with
          | Some g => lift (RenderGroup_addRenderGroupChild pg g)
          | None => throw TypeError
          end
      | None => ret tt
      end;
  _updateIsSimple this.

(** [set isRenderGroup(value)] and [get isRenderGroup()]. *)
Definition isRenderGroup_set (fuel : nat) (value : bool) (this : nid) : M unit :=
  do c <- getC this;
  if isRenderGroupRoot c && negb value then throw UnsupportedOperation
  else if value then enableRenderGroup fuel this else ret tt.

Definition isRenderGroup (c : Container) : bool := isRenderGroupRoot c.

(** [get worldTransform()]. *)
Definition worldTransform (this : nid) : M (Matrix.t R) :=
  do c <- getC this;
  run match _worldTransform c with
      | Some _ => ret tt
      | None => modify this (set_worldTransform (Some Matrix.new))
      end;
  do c <- getC this;
  run match renderGroup c with
      | Some g =>
          do G <- getG g;
          modify this
            (fun c =>
               set_worldTransform
                 ((fun w =>
                     if isRenderGroupRoot c
                     then Matrix.copyFrom w (RenderGroup.worldTransform G)
                     else Matrix.appendFrom w (rgTransform c) (RenderGroup.worldTransform G))
                    <$> _worldTransform c) c)
      | None => ret tt
      end;
  do c <- getC this;
  match _worldTransform c with
  | Some w => ret w
  | None => throw TypeError
  end.

(** [get visible()], [set visible(value)]. *)
Definition visible (c : Container) : bool :=
  negb (Z.land (localVisibleRenderable c) 2 =? 0).

Definition visible_set (value : bool) (this : nid) : M unit :=
  let valueNumber := if value then 1 else 0 in
  do c <- getC this;
  if Z.shiftr (Z.land (localVisibleRenderable c) 2) 1 =? valueNumber then ret tt else
  run match renderGroup c with
      | Some g =>
          if isRenderGroupRoot c then ret tt
          else modifyG g (RenderGroup.set_structureDidChange true)
      | None => ret tt
      end;
  run modify this (fun c => set_updateFlags (Z.lor (_updateFlags c) UPDATE_VISIBLE) c);
  run modify this
        (fun c =>
           set_localVisibleRenderable
             (Z.lor (Z.land (localVisibleRenderable c) 1) (Z.shiftl valueNumber 1)) c);
  onUpdate None this.

(** [get renderable()], [set renderable(value)]. *)
Definition renderable (c : Container) : bool :=
  negb (Z.land (localVisibleRenderable c) 1 =? 0).

Definition renderable_set (value : bool) (this : nid) : M unit :=
  let valueNumber := if value then 1 else 0 in
  do c <- getC this;
  if Z.land (localVisibleRenderable c) 1 =? valueNumber then ret tt else
  run modify this
        (fun c =>
           set_localVisibleRenderable
             (Z.lor (Z.land (localVisibleRenderable c) 2) valueNumber) c);
  run modify this (fun c => set_updateFlags (Z.lor (_updateFlags c) UPDATE_VISIBLE) c);
  do c <- getC this;
  run match renderGroup c with
      | Some g =>
          if isRenderGroupRoot c then ret tt
          else modifyG g (RenderGroup.set_structureDidChange true)
      | None => ret tt
      end;
  onUpdate None this.

(** [get isRenderable()]. *)
Definition isRenderable (c : Container) : bool :=
  (localVisibleRenderable c =? 3) && num_gt (rgAlpha c) num_zero.

(** [destroy(options)]. *)
Definition destroyChildren (options : DestroyOptions) : bool :=
  match options with
  | OptBoolean b => b
  | OptRecord children _ _ _ => default false children
  end.

Fixpoint destroy (fuel : nat) (options : DestroyOptions) (this : nid) : M unit :=
  match fuel with
  | O => throw OutOfFuel
  | S k =>
      do c <- getC this;
      if destroyed c then ret tt else
      run modify this (set_destroyed true);
      run removeFromParent this;
      run modify this release_references;
      do c <- getC this;
      run (if isRenderGroupRoot c then
             match renderGroup c with
             | Some g => modifyG g (RenderGroup.set_proxyRenderable None)
             | None => throw TypeError
             end
           else ret tt);
      run emit (EvDestroyed this);
      run emit (EvRemoveAllListeners this);
      do oldChildren <- removeChildren this;
      run (if destroyChildren options then forEach (destroy k options) oldChildren
           else ret tt);
      do c <- getC this;
      match view c with
      | Some v => emit (EvViewDestroy v options)
      | None => ret tt
      end
  end.

(** *** Observations on the trace *)

(** Is the event a call [group.onChildUpdate(n)], for some group? *)
Definition is_update_notification (n : nid) (e : Event) : bool :=
  match e with
  | EvOnChildUpdate _ child => bool_decide (child = n)
  | _ => false
  end.

(** How many times a render group was told that [n] changed. *)
Definition update_notifications (n : nid) (s : State) : nat :=
  length (List.filter (is_update_notification n) (trace s)).

(** The render group [onUpdate] notifies for [n], if there is one: the
    parent of its own group for a render-group root, its group otherwise. *)
Definition notify_target (s : State) (n : nid) : option rgid :=
  if isRenderGroupRoot (container s n) then
    match renderGroup (container s n) with
    | Some g =>
        match groups s !! g with
        | Some G => RenderGroup.renderGroupParent G
        | None => None
        end
    | None => None
    end
  else renderGroup (container s n).

(** The number of parent-to-child references in the store. *)
Definition total_children (s : State) : nat :=
  sum_list_with (fun entry => length (children (snd entry))) (map_to_list (containers s)).

(** Is the event the ['destroyed'] notification of [n]? *)
Definition is_destroyed_event (n : nid) (e : Event) : bool :=
  match e with
  | EvDestroyed target => bool_decide (target = n)
  | _ => false
  end.

(** How many times [n] announced its destruction. *)
Definition destroyed_events (n : nid) (s : State) : nat :=
  length (List.filter (is_destroyed_event n) (trace s)).

(** Every node flagged as a render-group root holds the render group it is
    the root of. *)
Definition roots_own_groups (s : State) : Prop :=
  forall m, isRenderGroupRoot (container s m) = true -> is_Some (group_owned_by s m).

(** *** The link between a parent and its children *)

(** The two sides of the link agree: a node is in the children of [p]
    exactly when its parent pointer is [p]. *)
Definition linked (s : State) : Prop :=
  forall p n, n ∈ children (container s p) <-> parent (container s n) = Some p.

(** No node occurs twice in a list of children. *)
Definition tidy (s : State) : Prop :=
  forall p, NoDup (children (container s p)).

(** The children of [k] once [C] has left its parent, if it had one. *)
Definition detached (s : State) (C k : nid) : list nid :=
  match parent (container s C) with
  | Some Q =>
      if decide (k = Q) then remove_item C (children (container s Q))
      else children (container s k)
  | None => children (container s k)
  end.

(** *** Properties of calls and relations between stores *)

(** [P] holds of the store a call leaves, returned or thrown, whenever it
    holds of the store it finds. *)
Definition preserves {A} (P : State -> Prop) (m : M A) : Prop :=
  forall s, P s -> P (final (m s)).

(** The call cannot throw. *)
Definition returns {A} (m : M A) : Prop := forall s, exists a, m s = Ok a (final (m s)).

(** The two stores agree on what [onUpdate] reads besides the basis
    scalars. *)
Definition same_latch_view (s0 s : State) : Prop :=
  trace s0 = trace s /\ groups s0 = groups s
  /\ forall m, didChange (container s0 m) = didChange (container s m)
               /\ isRenderGroupRoot (container s0 m) = isRenderGroupRoot (container s m)
               /\ renderGroup (container s0 m) = renderGroup (container s m).

(** From [s] to [s'] no node but possibly [n] was destroyed, no parent
    pointer was set and no child was added. *)
Definition calm_but (n : nid) (s s' : State) : Prop :=
  (forall m,
      (m <> n -> destroyed (container s' m) = destroyed (container s m))
      /\ (destroyed (container s m) = true -> destroyed (container s' m) = true)
      /\ isRenderGroupRoot (container s' m) = isRenderGroupRoot (container s m)
      /\ (parent (container s m) = None -> parent (container s' m) = None)
      /\ (children (container s m) = [] -> children (container s' m) = []))
  /\ (total_children s' <= total_children s)%nat
  /\ (roots_own_groups s -> roots_own_groups s').

(** From [s] to [s'] nodes were only destroyed, detached or emptied; each
    node destroyed on the way is detached and childless in [s'] and has
    announced its destruction once. *)
Definition settled (s s' : State) : Prop :=
  (forall m,
      (destroyed (container s m) = true -> destroyed (container s' m) = true)
      /\ isRenderGroupRoot (container s' m) = isRenderGroupRoot (container s m)
      /\ (parent (container s m) = None -> parent (container s' m) = None)
      /\ (children (container s m) = [] -> children (container s' m) = [])
      /\ (destroyed (container s m) = false -> destroyed (container s' m) = true ->
          parent (container s' m) = None /\ children (container s' m) = [])
      /\ destroyed_events m s'
         = (destroyed_events m s
            + (if negb (destroyed (container s m)) && destroyed (container s' m)
               then 1 else 0))%nat)
  /\ (total_children s' <= total_children s)%nat
  /\ (roots_own_groups s -> roots_own_groups s').

(** *** The remaining accessors of [Container.ts] *)

Definition set_rotation (v : R) (c : Container) : Container :=
  {|
    _updateFlags := _updateFlags c; isRenderGroupRoot := isRenderGroupRoot c;
    renderGroup := renderGroup c; didChange := didChange c;
    didViewUpdate := didViewUpdate c;
    relativeRenderGroupDepth := relativeRenderGroupDepth c; children := children c;
    parent := parent c; isSimple := isSimple c; localTransform := localTransform c;
    rgTransform := rgTransform c; _worldTransform := _worldTransform c;
    destroyed := destroyed c; _position := _position c; _scale := _scale c;
    _pivot := _pivot c; _skew := _skew c; _cx := _cx c; _sx := _sx c; _cy := _cy c;
    _sy := _sy c; _rotation := v; localAlpha := localAlpha c; rgAlpha := rgAlpha c;
    localVisibleRenderable := localVisibleRenderable c;
    rgVisibleRenderable := rgVisibleRenderable c; effects := effects c; _mask := _mask c;
    _filters := _filters c; view := view c; allowChildren := allowChildren c;
    sortableChildren := sortableChildren c; sortDirty := sortDirty c; _zIndex := _zIndex c
  |}.

Definition set_localAlpha (v : R) (c : Container) : Container :=
  {|
    _updateFlags := _updateFlags c; isRenderGroupRoot := isRenderGroupRoot c;
    renderGroup := renderGroup c; didChange := didChange c;
    didViewUpdate := didViewUpdate c;
    relativeRenderGroupDepth := relativeRenderGroupDepth c; children := children c;
    parent := parent c; isSimple := isSimple c; localTransform := localTransform c;
    rgTransform := rgTransform c; _worldTransform := _worldTransform c;
    destroyed := destroyed c; _position := _position c; _scale := _scale c;
    _pivot := _pivot c; _skew := _skew c; _cx := _cx c; _sx := _sx c; _cy := _cy c;
    _sy := _sy c; _rotation := _rotation c; localAlpha := v; rgAlpha := rgAlpha c;
    localVisibleRenderable := localVisibleRenderable c;
    rgVisibleRenderable := rgVisibleRenderable c; effects := effects c; _mask := _mask c;
    _filters := _filters c; view := view c; allowChildren := allowChildren c;
    sortableChildren := sortableChildren c; sortDirty := sortDirty c; _zIndex := _zIndex c
  |}.

Definition set_pivot (v : option ObservablePoint) (c : Container) : Container :=
  {|
    _updateFlags := _updateFlags c; isRenderGroupRoot := isRenderGroupRoot c;
    renderGroup := renderGroup c; didChange := didChange c;
    didViewUpdate := didViewUpdate c;
    relativeRenderGroupDepth := relativeRenderGroupDepth c; children := children c;
    parent := parent c; isSimple := isSimple c; localTransform := localTransform c;
    rgTransform := rgTransform c; _worldTransform := _worldTransform c;
    destroyed := destroyed c; _position := _position c; _scale := _scale c; _pivot := v;
    _skew := _skew c; _cx := _cx c; _sx := _sx c; _cy := _cy c; _sy := _sy c;
    _rotation := _rotation c; localAlpha := localAlpha c; rgAlpha := rgAlpha c;
    localVisibleRenderable := localVisibleRenderable c;
    rgVisibleRenderable := rgVisibleRenderable c; effects := effects c; _mask := _mask c;
    _filters := _filters c; view := view c; allowChildren := allowChildren c;
    sortableChildren := sortableChildren c; sortDirty := sortDirty c; _zIndex := _zIndex c
  |}.

Definition set_skew (v : option ObservablePoint) (c : Container) : Container :=
  {|
    _updateFlags := _updateFlags c; isRenderGroupRoot := isRenderGroupRoot c;
    renderGroup := renderGroup c; didChange := didChange c;
    didViewUpdate := didViewUpdate c;
    relativeRenderGroupDepth := relativeRenderGroupDepth c; children := children c;
    parent := parent c; isSimple := isSimple c; localTransform := localTransform c;
    rgTransform := rgTransform c; _worldTransform := _worldTransform c;
    destroyed := destroyed c; _position := _position c; _scale := _scale c;
    _pivot := _pivot c; _skew := v; _cx := _cx c; _sx := _sx c; _cy := _cy c; _sy := _sy c;
    _rotation := _rotation c; localAlpha := localAlpha c; rgAlpha := rgAlpha c;
    localVisibleRenderable := localVisibleRenderable c;
    rgVisibleRenderable := rgVisibleRenderable c; effects := effects c; _mask := _mask c;
    _filters := _filters c; view := view c; allowChildren := allowChildren c;
    sortableChildren := sortableChildren c; sortDirty := sortDirty c; _zIndex := _zIndex c
  |}.

Definition set_scale (v : option ObservablePoint) (c : Container) : Container :=
  {|
    _updateFlags := _updateFlags c; isRenderGroupRoot := isRenderGroupRoot c;
    renderGroup := renderGroup c; didChange := didChange c;
    didViewUpdate := didViewUpdate c;
    relativeRenderGroupDepth := relativeRenderGroupDepth c; children := children c;
    parent := parent c; isSimple := isSimple c; localTransform := localTransform c;
    rgTransform := rgTransform c; _worldTransform := _worldTransform c;
    destroyed := destroyed c; _position := _position c; _scale := v; _pivot := _pivot c;
    _skew := _skew c; _cx := _cx c; _sx := _sx c; _cy := _cy c; _sy := _sy c;
    _rotation := _rotation c; localAlpha := localAlpha c; rgAlpha := rgAlpha c;
    localVisibleRenderable := localVisibleRenderable c;
    rgVisibleRenderable := rgVisibleRenderable c; effects := effects c; _mask := _mask c;
    _filters := _filters c; view := view c; allowChildren := allowChildren c;
    sortableChildren := sortableChildren c; sortDirty := sortDirty c; _zIndex := _zIndex c
  |}.

(** [ToInt32]: the conversion the bitwise operators apply to an integral
    operand, wrap-around included. *)
Definition to_int32 (z : Z) : Z := (z + 2 ^ 31) mod 2 ^ 32 - 2 ^ 31.

(** [get tint()], as a function of the [localColor] it reads:
    [((bgr & 0xFF) << 16) + (bgr & 0xFF00) + ((bgr >> 16) & 0xFF)]. *)
Definition tint (localColor : Z) : Z :=
  let bgr := to_int32 localColor in
  to_int32 (Z.shiftl (Z.land bgr 255) 16) + Z.land bgr 65280
  + Z.land (Z.shiftr bgr 16) 255.

(** [get rotation()], [set rotation(value)]; [strict_equal] is [===] on the
    numbers of the program. *)
Definition rotation (c : Container) : R := _rotation c.

Definition rotation_set (strict_equal : R -> R -> bool) (value : R) (this : nid) : M unit :=
  do c <- getC this;
  if strict_equal (_rotation c) value then ret tt else
  run modify this (set_rotation value);
  do c <- getC this;
  onUpdate (pt_id <$> _skew c) this.

(** [get alpha()], [set alpha(value)]. *)
Definition alpha (c : Container) : R := localAlpha c.

Definition alpha_set (strict_equal : R -> R -> bool) (value : R) (this : nid) : M unit :=
  do c <- getC this;
  if strict_equal value (localAlpha c) then ret tt else
  run modify this (set_localAlpha value);
  run modify this (fun c => set_updateFlags (Z.lor (_updateFlags c) UPDATE_COLOR) c);
  onUpdate None this.

(** [get pivot()], [get skew()], [get scale()]: a node that still shares the
    default point gets a point of its own; [fresh] is the identity of the
    object [new ObservablePoint(this, ...)] returns. *)
Definition pivot_get (fresh : nat) (this : nid) : M (option ObservablePoint) :=
  do c <- getC this;
  run (if decide (pt_id <$> _pivot c = Some (pt_id defaultPivot))
       then modify this (set_pivot (Some (mkPoint fresh num_zero num_zero)))
       else ret tt);
  do c <- getC this;
  ret (_pivot c).

Definition skew_get (fresh : nat) (this : nid) : M (option ObservablePoint) :=
  do c <- getC this;
  run (if decide (pt_id <$> _skew c = Some (pt_id defaultSkew))
       then modify this (set_skew (Some (mkPoint fresh num_zero num_zero)))
       else ret tt);
  do c <- getC this;
  ret (_skew c).

Definition scale_get (fresh : nat) (this : nid) : M (option ObservablePoint) :=
  do c <- getC this;
  run (if decide (pt_id <$> _scale c = Some (pt_id defaultScale))
       then modify this (set_scale (Some (mkPoint fresh num_one num_one)))
       else ret tt);
  do c <- getC this;
  ret (_scale c).

(** *** Further observations *)

(** Is the event a call [group.onChildViewUpdate(n)], for some group? *)
Definition is_view_notification (n : nid) (e : Event) : bool :=
  match e with
  | EvOnChildViewUpdate _ child => bool_decide (child = n)
  | _ => false
  end.

(** How many times a render group was told that the view of [n] changed. *)
Definition view_notifications (n : nid) (s : State) : nat :=
  length (List.filter (is_view_notification n) (trace s)).

(** The basis scalars are the ones [_updateSkew] computes from the rotation
    and the skew the node holds. *)
Definition basis_current (c : Container) : Prop :=
  forall skew,
    _skew c = Some skew ->
    _cx c = num_cos (num_add (_rotation c) (_y skew))
    /\ _sx c = num_sin (num_add (_rotation c) (_y skew))
    /\ _cy c = num_neg (num_sin (num_sub (_rotation c) (_x skew)))
    /\ _sy c = num_cos (num_sub (_rotation c) (_x skew)).

(** What the part of [enableRenderGroup] that follows the creation of the
    group keeps: the node is flagged as a root and holds the group it is
    the root of. *)
Definition promoted (n : nid) (g : rgid) (s : State) : Prop :=
  group_owned_by s n = Some g /\ isRenderGroupRoot (container s n) = true.

(** From [s0] to [s] things were only taken apart: no list of children
    gained an entry or was reordered, parent pointers were at most cleared,
    no destroyed node came back, references given up stayed given up, and
    no node changed its render-group rank. *)
Definition dwindled (s0 s : State) : Prop :=
  forall m,
    sublist (children (container s m)) (children (container s0 m))
    /\ (parent (container s m) = parent (container s0 m) \/ parent (container s m) = None)
    /\ (destroyed (container s0 m) = true -> destroyed (container s m) = true)
    /\ isRenderGroupRoot (container s m) = isRenderGroupRoot (container s0 m)
    /\ (_position (container s0 m) = None -> _position (container s m) = None)
    /\ (_scale (container s0 m) = None -> _scale (container s m) = None)
    /\ (_pivot (container s0 m) = None -> _pivot (container s m) = None)
    /\ (_skew (container s0 m) = None -> _skew (container s m) = None)
    /\ (effects (container s0 m) = None -> effects (container s m) = None)
    /\ (_mask (container s0 m) = None -> _mask (container s m) = None)
    /\ (_filters (container s0 m) = None -> _filters (container s m) = None).

(** The check of [linked] and [tidy] on the nodes a store has entries
    for; the other nodes have neither parent nor children. *)
Definition links_checked (s : State) : bool :=
  forallb
    (fun entry =>
       forallb (fun child => bool_decide (parent (container s child) = Some (fst entry)))
         (children (snd entry))
       && match parent (snd entry) with
          | Some p => bool_decide (fst entry ∈ children (container s p))
          | None => true
          end
       && bool_decide (NoDup (children (snd entry))))
    (map_to_list (containers s)).

End Scene.

Arguments Ok {R A} a s.
Arguments Throw {R A} e s.

(** * Scenarios in exact arithmetic *)

(** A stage that is a render-group root, with a plain child that has a
    plain child of its own. *)
Definition stage : nid := 1%nat.
Definition panel : nid := 2%nat.
Definition sprite : nid := 3%nat.
Definition label : nid := 4%nat.
Definition loose : nid := 5%nat.

Definition scene_rooted : State (R:=Z) :=
  final (enableRenderGroup 1 stage empty_scene).

Definition scene_tree : State (R:=Z) :=
  final (addChild panel [sprite] (final (addChild stage [panel] scene_rooted))).

(** Two sibling render-group roots under a plain node of the stage. *)
Definition scene_nested : State (R:=Z) :=
  final (enableRenderGroup 4 label
    (final (enableRenderGroup 4 sprite
       (final (addChild panel [sprite; label]
          (final (addChild stage [panel] scene_rooted))))))).

(** * Properties *)

Section Properties.
Context {R : Type} `{JSNumber R}.

Implicit Types (s : State (R:=R)) (c : Container (R:=R)) (n m : nid) (g : rgid).

Local Abbreviation preserves := (preserves (R:=R)).
Local Abbreviation returns := (returns (R:=R)).

Arguments container : simpl never.
Arguments update : simpl never.
Arguments update_group : simpl never.
Arguments log : simpl never.

(** ** Reading the store after a write *)

Lemma container_update n f s m :
  container (update n f s) m = if decide (n = m) then f (container s n) else container s m.
Proof.
  unfold container, update; simpl.
  destruct (decide (n = m)) as [->|Hne].
  - by rewrite lookup_insert_eq.
  - by rewrite lookup_insert_ne.
Qed.

Lemma container_update_eq n f s : container (update n f s) n = f (container s n).
Proof. rewrite container_update. by destruct (decide (n = n)). Qed.

Lemma container_update_ne n f s m :
  n <> m -> container (update n f s) m = container s m.
Proof. intros. rewrite container_update. by destruct (decide (n = m)). Qed.

Lemma container_update_group g f s m : container (update_group g f s) m = container s m.
Proof. reflexivity. Qed.

Lemma container_log e s m : container (log e s) m = container s m.
Proof. reflexivity. Qed.

(** ** Invariants of a call, whether it returns or throws *)

Lemma preserves_ret {A} P (a : A) : preserves P (ret a).
Proof. by intros s HP. Qed.

Lemma preserves_throw {A} P e : preserves P (throw (A:=A) e).
Proof. by intros s HP. Qed.

Lemma preserves_getC P n : preserves P (getC n).
Proof. by intros s HP. Qed.

Lemma preserves_bind {A B} P (m : M A) (k : A -> M B) :
  preserves P m -> (forall a, preserves P (k a)) -> preserves P (bind m k).
Proof.
  intros Hm Hk s HP. unfold bind. specialize (Hm s HP).
  destruct (m s) as [a s'|e s']; simpl in *; [by apply Hk|done].
Qed.

Lemma preserves_lift P (f : State -> State) :
  (forall s, P s -> P (f s)) -> preserves P (lift f).
Proof. intros Hf s HP. by apply Hf. Qed.

Lemma preserves_getG P g : preserves P (getG g).
Proof. intros s HP. unfold getG. by destruct (groups s !! g). Qed.

Lemma preserves_modifyG P g f :
  (forall s, P s -> P (update_group g f s)) -> preserves P (modifyG g f).
Proof.
  intros Hf. apply preserves_bind; [apply preserves_getG|].
  intros _. by apply preserves_lift.
Qed.

Lemma preserves_forEach {A} P (f : A -> M unit) l :
  (forall x, preserves P (f x)) -> preserves P (forEach f l).
Proof.
  intros Hf. induction l as [|x l IH]; simpl.
  - apply preserves_ret.
  - apply preserves_bind; [apply Hf|]. by intros _.
Qed.

Ltac preserve_step :=
  lazymatch goal with
  | |- preserves _ (bind _ _) => apply preserves_bind; [|intros ?]
  | |- preserves _ (ret _) => apply preserves_ret
  | |- preserves _ (throw _) => apply preserves_throw
  | |- preserves _ (getC _) => apply preserves_getC
  | |- preserves _ (getG _) => apply preserves_getG
  | |- preserves _ (modifyG _ _) => apply preserves_modifyG
  | |- preserves _ (modify _ _) => apply preserves_lift
  | |- preserves _ (emit _) => apply preserves_lift
  | |- preserves _ (lift _) => apply preserves_lift
  | |- preserves _ (forEach _ _) => apply preserves_forEach; intros ?
  | |- preserves _ (if ?b then _ else _) => destruct b
  | |- preserves _ (match ?x with _ => _ end) => destruct x
  end.

(** A write to one node, seen from a field it does not assign. *)
Ltac frame_write :=
  intros; rewrite ?container_update_group, ?container_log, ?container_update;
  try case_decide; subst; simpl; auto.

(** ** Visibility bits *)

Lemma onUpdate_keeps_visibility point n m v :
  preserves (fun s => localVisibleRenderable (container s m) = v) (onUpdate point n).
Proof.
  unfold onUpdate, _updateSkew, RenderGroup_onChildUpdate.
  repeat preserve_step; frame_write.
Qed.

Lemma preserves_onUpdate_visibility (Q : Z -> Prop) point n m :
  preserves (fun s => Q (localVisibleRenderable (container s m))) (onUpdate point n).
Proof.
  intros s HQ.
  by rewrite (onUpdate_keeps_visibility point n m _ s eq_refl).
Qed.

Lemma land_lor_bit0 x k : Z.land k 1 = 0 -> Z.land (Z.lor (Z.land x 1) k) 1 = Z.land x 1.
Proof.
  intros Hk. rewrite Z.land_lor_distr_l, Hk, Z.lor_0_r, <- Z.land_assoc.
  reflexivity.
Qed.

Lemma land_lor_bit1 x k : Z.land k 2 = 0 -> Z.land (Z.lor (Z.land x 2) k) 2 = Z.land x 2.
Proof.
  intros Hk. rewrite Z.land_lor_distr_l, Hk, Z.lor_0_r, <- Z.land_assoc.
  reflexivity.
Qed.

Lemma visible_set_keeps_renderable value n m b :
  preserves (fun s => renderable (container s m) = b) (visible_set value n).
Proof.
  unfold visible_set.
  repeat preserve_step.
  all: try apply (preserves_onUpdate_visibility (fun z => negb (Z.land z 1 =? 0) = b)).
  all: unfold renderable; frame_write.
  rewrite land_lor_bit0; [done|by destruct value].
Qed.

Lemma renderable_set_keeps_visible value n m b :
  preserves (fun s => visible (container s m) = b) (renderable_set value n).
Proof.
  unfold renderable_set.
  repeat preserve_step.
  all: try apply (preserves_onUpdate_visibility (fun z => negb (Z.land z 2 =? 0) = b)).
  all: unfold visible; frame_write.
  rewrite land_lor_bit1; [done|by destruct value].
Qed.

Lemma land_1_cases x : Z.land x 1 = 0 \/ Z.land x 1 = 1.
Proof.
  change (Z.land x 1) with (Z.land x (Z.ones 1)). rewrite Z.land_ones by lia.
  change (2 ^ 1) with 2. pose proof (Z.mod_pos_bound x 2). lia.
Qed.

Lemma land_2_cases x : Z.land x 2 = 0 \/ Z.land x 2 = 2.
Proof.
  destruct (Z.testbit x 1) eqn:Hbit; [right|left]; apply Z.bits_inj'; intros k Hk;
    rewrite Z.land_spec; change 2 with (2 ^ 1) at 1; rewrite Z.pow2_bits_eqb by lia.
  - change 2 with (2 ^ 1); rewrite Z.pow2_bits_eqb by lia.
    destruct (Z.eqb_spec 1 k) as [<-|]; [by rewrite Hbit|by rewrite andb_false_r].
  - rewrite Z.bits_0.
    destruct (Z.eqb_spec 1 k) as [<-|]; [by rewrite Hbit|by rewrite andb_false_r].
Qed.

(** The setters keep the packed field a two-bit value. *)
Lemma visible_set_two_bits value n m :
  preserves (fun s => 0 <= localVisibleRenderable (container s m) <= 3)
            (visible_set value n).
Proof.
  unfold visible_set.
  repeat preserve_step.
  all: try apply (preserves_onUpdate_visibility (fun z => 0 <= z <= 3)).
  all: frame_write.
  match goal with |- context [Z.land ?x 1] => destruct (land_1_cases x) as [->| ->] end;
    destruct value; vm_compute; split; discriminate.
Qed.

Lemma renderable_set_two_bits value n m :
  preserves (fun s => 0 <= localVisibleRenderable (container s m) <= 3)
            (renderable_set value n).
Proof.
  unfold renderable_set.
  repeat preserve_step.
  all: try apply (preserves_onUpdate_visibility (fun z => 0 <= z <= 3)).
  all: frame_write.
  match goal with |- context [Z.land ?x 2] => destruct (land_2_cases x) as [->| ->] end;
    destruct value; vm_compute; split; discriminate.
Qed.

(** C7. A node is renderable exactly when both bits of its packed local
    visibility field are set and its render-group alpha is greater than 0;
    hiding the node and showing it again leaves its renderable bit as it
    was, and so does any write of [visible] (likewise [renderable] writes
    leave the visible bit alone). *)
Theorem isRenderable_iff_bits_and_alpha s n :
  0 <= localVisibleRenderable (container s n) <= 3 ->
  (isRenderable (container s n) = true <->
     visible (container s n) = true /\ renderable (container s n) = true /\
     num_gt (rgAlpha (container s n)) num_zero = true)
  /\ renderable (container (final (visible_set true n (final (visible_set false n s)))) n)
     = renderable (container s n)
  /\ (forall value,
        renderable (container (final (visible_set value n s)) n)
        = renderable (container s n))
  /\ (forall value,
        visible (container (final (renderable_set value n s)) n)
        = visible (container s n)).
Proof.
  intros Hrange. split; [|split; [|split]].
  - unfold isRenderable, visible, renderable.
    assert (Hcases : localVisibleRenderable (container s n) = 0
                     \/ localVisibleRenderable (container s n) = 1
                     \/ localVisibleRenderable (container s n) = 2
                     \/ localVisibleRenderable (container s n) = 3) by lia.
    destruct Hcases as [-> | [-> | [-> | ->]]]; simpl;
      try (split; [discriminate | intros (? & ? & ?); discriminate]).
    split; [intros Hgt; by repeat split | by intros (_ & _ & Hgt)].
  - rewrite (visible_set_keeps_renderable true n n _ _ eq_refl).
    by rewrite (visible_set_keeps_renderable false n n _ _ eq_refl).
  - intros value. by rewrite (visible_set_keeps_renderable value n n _ _ eq_refl).
  - intros value. by rewrite (renderable_set_keeps_visible value n n _ _ eq_refl).
Qed.

(** ** Render-group flag *)

(** C9. Asking a render-group root to stop being one fails with the
    unsupported-operation error, and the store the failed call leaves is
    the store it found: nothing was written. *)
Theorem isRenderGroup_set_false_on_root fuel s n :
  isRenderGroupRoot (container s n) = true ->
  isRenderGroup_set fuel false n s = Throw UnsupportedOperation s.
Proof.
  intros Hroot. unfold isRenderGroup_set, bind, getC, throw.
  by rewrite Hroot.
Qed.

(** ** World transform *)


(** C10. Reading the world transform of a node that has no render group
    returns without an error and without composing anything: the first
    read allocates the identity matrix, stores it and returns it; a read
    that finds a stored matrix returns it and writes nothing; reading
    again gives the same matrix and the same store. *)
Theorem worldTransform_without_render_group s n :
  renderGroup (container s n) = None ->
  exists w s',
    worldTransform n s = Ok w s'
    /\ w = default Matrix.new (_worldTransform (container s n))
    /\ s' = match _worldTransform (container s n) with
            | Some _ => s
            | None => update n (set_worldTransform (Some Matrix.new)) s
            end
    /\ worldTransform n s' = Ok w s'.
Proof.
  intros Hnone. unfold worldTransform, bind, getC, modify, lift, ret.
  destruct (_worldTransform (container s n)) as [w0|] eqn:Hw.
  - exists w0, s.
    repeat progress (simpl; rewrite ?container_update_eq, ?Hnone, ?Hw). done.
  - exists Matrix.new, (update n (set_worldTransform (Some Matrix.new)) s).
    repeat progress (simpl; rewrite ?container_update_eq, ?Hnone, ?Hw). done.
Qed.


(** ** JavaScript array idioms *)

Lemma indexOf_elem (x : nat) (l : list nat) :
  x ∈ l ->
  exists i : nat,
    indexOf x l = Z.of_nat i /\ l !! i = Some x
    /\ (forall j y, l !! j = Some y -> (j < i)%nat -> y <> x).
Proof.
  intros Hin. unfold indexOf.
  destruct (list_find (fun y => y = x) l) as [[i y]|] eqn:Hfind.
  - apply list_find_Some in Hfind as (Hi & -> & Hbefore).
    exists i. repeat split; [done|]. intros j z Hj Hlt. by eapply Hbefore.
  - apply list_find_None in Hfind. rewrite Forall_forall in Hfind.
    by destruct (Hfind x Hin).
Qed.

Lemma indexOf_not_elem (x : nat) (l : list nat) : x ∉ l -> indexOf x l = -1.
Proof.
  intros Hnin. unfold indexOf.
  destruct (list_find (fun y => y = x) l) as [[i y]|] eqn:Hfind; [|done].
  apply list_find_Some in Hfind as (Hi & -> & _).
  destruct Hnin. by eapply list_elem_of_lookup_2.
Qed.

Lemma splice1_at (i : nat) (l : list nat) :
  (i < length l)%nat -> splice1 (Z.of_nat i) l = delete i l.
Proof.
  intros Hlt. unfold splice1.
  destruct (Z.ltb_spec (Z.of_nat i) 0) as [Hneg|_]; [lia|].
  rewrite Z.min_l by lia. by rewrite Nat2Z.id.
Qed.

(** Removing the first occurrence and pushing it back: the element moves
    to the end and the others keep their order. *)
Lemma splice_push_moves_last (x : nat) (l : list nat) :
  x ∈ l ->
  exists l1 l2,
    l = l1 ++ (x :: l2) /\ (x ∉ l1)
    /\ splice1 (indexOf x l) l ++ [x] = l1 ++ l2 ++ [x].
Proof.
  intros Hin. destruct (indexOf_elem x l Hin) as (i & -> & Hi & Hbefore).
  exists (take i l), (drop (S i) l). split; [|split].
  - by rewrite take_drop_middle.
  - intros Hx. apply list_elem_of_lookup in Hx as (j & Hj).
    pose proof (lookup_lt_Some _ _ _ Hj) as Hlen. rewrite length_take in Hlen.
    rewrite lookup_take_lt in Hj by lia.
    eapply Hbefore; [exact Hj|lia|done].
  - rewrite splice1_at by (by eapply lookup_lt_Some).
    by rewrite delete_take_drop, <- app_assoc.
Qed.

(** ** Re-adding a child *)


(** ** Dirty latch *)

Lemma onUpdate_point point n s :
  exists s0, onUpdate point n s = onUpdate None n s0 /\ same_latch_view s0 s.
Proof.
  destruct point as [q|]; [|by exists s].
  unfold onUpdate at 1, _updateSkew, bind, getC.
  destruct (decide (pt_id <$> _skew (container s n) = Some q)) as [Heq|Hne].
  - destruct (_skew (container s n)) as [skew|] eqn:Hskew; [|done].
    eexists (update n _ s). split; [reflexivity|].
    repeat split; intros; frame_write.
  - by exists s.
Qed.

Lemma final_onUpdate_None n s :
  final (onUpdate None n s)
  = if didChange (container s n) then s
    else match notify_target s n with
         | Some target => log (EvOnChildUpdate target n) (update n (set_didChange true) s)
         | None => update n (set_didChange true) s
         end.
Proof.
  unfold onUpdate, bind, getC, ret, modify, lift, notify_target. simpl.
  destruct (didChange (container s n)); [done|].
  rewrite container_update_eq. simpl.
  destruct (isRenderGroupRoot (container s n)).
  - destruct (renderGroup (container s n)) as [g|]; [|done].
    unfold getG, update. simpl.
    destruct (groups s !! g) as [G|]; [|done].
    by destruct (RenderGroup.renderGroupParent G).
  - by destruct (renderGroup (container s n)).
Qed.

Lemma onUpdate_None_returns n s :
  (didChange (container s n) = false -> isRenderGroupRoot (container s n) = true ->
   exists g, renderGroup (container s n) = Some g /\ is_Some (groups s !! g)) ->
  onUpdate None n s = Ok tt (final (onUpdate None n s)).
Proof.
  intros Hclosed.
  unfold onUpdate, bind, getC, ret, modify, lift. simpl.
  destruct (didChange (container s n)); [done|].
  rewrite container_update_eq. simpl.
  destruct (isRenderGroupRoot (container s n)).
  - destruct Hclosed as (g & -> & G & HG); [done..|].
    unfold getG, update. simpl. rewrite HG.
    by destruct (RenderGroup.renderGroupParent G).
  - by destruct (renderGroup (container s n)).
Qed.

Lemma update_notifications_log e n s :
  update_notifications n (log e s)
  = ((if is_update_notification n e then 1 else 0) + update_notifications n s)%nat.
Proof.
  unfold update_notifications, log. simpl.
  by destruct (is_update_notification n e).
Qed.

(** C4, as the code has it. Two calls of [onUpdate] in a row leave
    [didChange] set and notify a render group at most once: exactly once
    when [didChange] was clear before the first call and the node has a
    render group to notify, never otherwise.  The second call adds nothing
    to the trace, and both calls return when a render-group root has its
    render group. *)
Theorem onUpdate_twice_coalesces s n point1 point2 :
  let s1 := final (onUpdate point1 n s) in
  let s2 := final (onUpdate point2 n s1) in
  didChange (container s2 n) = true
  /\ trace s2 = trace s1
  /\ update_notifications n s2
     = ((if didChange (container s n) then 0
         else match notify_target s n with Some _ => 1 | None => 0 end) + update_notifications n s)%nat
  /\ ((isRenderGroupRoot (container s n) = true ->
       exists g, renderGroup (container s n) = Some g /\ is_Some (groups s !! g)) ->
      onUpdate point1 n s = Ok tt s1 /\ onUpdate point2 n s1 = Ok tt s2).
Proof.
  intros s1 s2.
  destruct (onUpdate_point point1 n s) as (s0 & Hrun1 & Htr0 & Hg0 & Hc0).
  assert (Htarget0 : notify_target s0 n = notify_target s n).
  { unfold notify_target. destruct (Hc0 n) as (_ & -> & ->). by rewrite Hg0. }
  assert (Hdirty1 : didChange (container s1 n) = true).
  { subst s1. rewrite Hrun1, final_onUpdate_None.
    destruct (didChange (container s0 n)) eqn:Hd; [done|].
    destruct (notify_target s0 n); rewrite ?container_log, container_update_eq; done. }
  destruct (onUpdate_point point2 n s1) as (s1' & Hrun2 & Htr1 & Hg1 & Hc1).
  assert (Hdirty1' : didChange (container s1' n) = true).
  { destruct (Hc1 n) as (-> & _). exact Hdirty1. }
  assert (Hs2 : s2 = s1').
  { subst s2. by rewrite Hrun2, final_onUpdate_None, Hdirty1'. }
  assert (Hcount1 : update_notifications n s1
                    = ((if didChange (container s n) then 0
                        else match notify_target s n with Some _ => 1 | None => 0 end)
                       + update_notifications n s)%nat).
  { subst s1. rewrite Hrun1, final_onUpdate_None, Htarget0.
    destruct (Hc0 n) as (-> & _).
    assert (Hsame : update_notifications n s0 = update_notifications n s)
      by (unfold update_notifications; by rewrite Htr0).
    destruct (didChange (container s n)); [done|].
    destruct (notify_target s n) as [target|].
    - rewrite update_notifications_log. simpl. rewrite bool_decide_eq_true_2 by done.
      unfold update_notifications, update in *. simpl. by rewrite Htr0.
    - unfold update_notifications, update in *. simpl. by rewrite Htr0. }
  split; [|split; [|split]].
  - rewrite Hs2. exact Hdirty1'.
  - by rewrite Hs2.
  - rewrite <- Hcount1. unfold update_notifications. by rewrite Hs2, Htr1.
  - intros Hclosed. split.
    + subst s1. rewrite Hrun1. apply onUpdate_None_returns.
      intros _ Hroot. destruct (Hc0 n) as (_ & Hr & ->). rewrite Hr in Hroot.
      rewrite Hg0. by apply Hclosed.
    + subst s2. rewrite Hrun2. apply onUpdate_None_returns.
      intros Hclean. by rewrite Hdirty1' in Hclean.
Qed.

(** ** Removing a node that is not a child *)

(** What [removeChild] does with a node it does not find: the search gives
    -1, nothing is spliced, and the three statements after the guard run. *)
Lemma removeChild_not_found s P N :
  N ∉ children (container s P) ->
  removeChild P [N] s
  = Ok N (log (EvRemoved N P)
            (log (EvChildRemoved P N P (-1)) (update N (set_parent None) s))).
Proof.
  intros Hnin. unfold removeChild, removeChild1, bind, getC, modify, emit, lift, ret.
  by rewrite (indexOf_not_elem _ _ Hnin).
Qed.

(** C1, where the code departs from it. When [N] is a child of [Q] and
    [P], which does not have [N] among its children, is asked to remove it,
    the call returns with [N] still in the children of [Q] but with the
    parent pointer of [N] cleared: the two sides of the link between [Q]
    and [N] no longer agree. *)
Theorem removeChild_elsewhere_breaks_link s P Q N :
  N ∈ children (container s Q) ->
  parent (container s N) = Some Q ->
  N ∉ children (container s P) ->
  exists s',
    removeChild P [N] s = Ok N s'
    /\ N ∈ children (container s' Q)
    /\ parent (container s' N) = None
    /\ ~ (N ∈ children (container s' Q) <-> parent (container s' N) = Some Q).
Proof.
  intros HinQ Hparent HninP. eexists. split; [by apply removeChild_not_found|].
  assert (Hkids : N ∈ children (container
                    (log (EvRemoved N P)
                       (log (EvChildRemoved P N P (-1)) (update N (set_parent None) s))) Q)).
  { rewrite !container_log, container_update. case_decide; subst; simpl; done. }
  assert (Hnull : parent (container
                    (log (EvRemoved N P)
                       (log (EvChildRemoved P N P (-1)) (update N (set_parent None) s))) N)
                  = None).
  { by rewrite !container_log, container_update_eq. }
  repeat split; [done|done|]. intros [Hlink _]. specialize (Hlink Hkids).
  by rewrite Hnull in Hlink.
Qed.

(** C2, where the code departs from it. Asking [P] to remove a node [C]
    that is not among its children leaves the children of [P] as they were,
    returns [C], and passes -1 as the index of the removal notification;
    yet the call clears the parent pointer of [C], so a node that had a
    parent does not come back unmodified. *)
Theorem removeChild_non_child_clears_parent s P Q C :
  C ∉ children (container s P) ->
  parent (container s C) = Some Q ->
  exists s',
    removeChild P [C] s = Ok C s'
    /\ children (container s' P) = children (container s P)
    /\ trace s' = EvRemoved C P :: EvChildRemoved P C P (-1) :: trace s
    /\ parent (container s' C) = None
    /\ container s' C <> container s C.
Proof.
  intros Hnin Hparent. eexists. split; [by apply removeChild_not_found|].
  assert (Hnull : parent (container
                    (log (EvRemoved C P)
                       (log (EvChildRemoved P C P (-1)) (update C (set_parent None) s))) C)
                  = None).
  { by rewrite !container_log, container_update_eq. }
  repeat split.
  - rewrite !container_log, container_update. case_decide; subst; simpl; done.
  - exact Hnull.
  - intros Heq. rewrite Heq, Hparent in Hnull. discriminate.
Qed.

(** When the node has no parent, removing it from a container that does
    not hold it changes no node at all. *)
Lemma removeChild_orphan_unchanged s P C m :
  C ∉ children (container s P) ->
  parent (container s C) = None ->
  container (final (removeChild P [C] s)) m = container s m.
Proof.
  intros Hnin Hparent. rewrite (removeChild_not_found _ _ _ Hnin). simpl.
  rewrite !container_log, container_update. case_decide; [subst|done].
  destruct (container s m). simpl in *. by subst.
Qed.

(** ** Promoting a node that already owns its render group *)

Lemma enableRenderGroup_owner_noop fuel s n g G :
  renderGroup (container s n) = Some g ->
  groups s !! g = Some G ->
  RenderGroup.root G = n ->
  enableRenderGroup fuel n s = Ok tt s.
Proof.
  intros Hg HG Hroot. unfold enableRenderGroup, bind, getC, getG, ret.
  rewrite Hg, HG. by rewrite bool_decide_eq_true_2.
Qed.

(** ** Destruction *)

(** *** The measure that bounds the recursion *)

Lemma total_children_update n f s :
  (total_children (update n f s) + length (children (container s n))
   = total_children s + length (children (f (container s n))))%nat.
Proof.
  unfold total_children, update, container. simpl.
  destruct (containers s !! n) as [c|] eqn:Hc; simpl.
  - rewrite <- insert_delete_eq.
    rewrite map_to_list_insert by apply lookup_delete_eq.
    rewrite <- (map_to_list_delete _ _ _ Hc). simpl. lia.
  - rewrite map_to_list_insert by done. simpl. lia.
Qed.

Lemma total_children_update_le n f s :
  (forall c, length (children (f c)) <= length (children c))%nat ->
  (total_children (update n f s) <= total_children s)%nat.
Proof.
  intros Hf. pose proof (total_children_update n f s).
  pose proof (Hf (container s n)). lia.
Qed.

Lemma splice1_length (i : Z) (l : list nat) : (length (splice1 i l) <= length l)%nat.
Proof.
  unfold splice1.
  generalize (Z.to_nat (if i <? 0 then Z.max (Z.of_nat (length l) + i) 0
                        else Z.min i (Z.of_nat (length l)))).
  intros k. revert k. induction l as [|x l IH]; intros [|k]; simpl; try lia.
  specialize (IH k). lia.
Qed.

(** *** Who owns which render group *)

Lemma group_owned_by_update_group g f s m :
  (forall G, RenderGroup.root (f G) = RenderGroup.root G) ->
  group_owned_by (update_group g f s) m = group_owned_by s m.
Proof.
  intros Hroot. unfold group_owned_by. rewrite container_update_group.
  destruct (renderGroup (container s m)) as [g'|]; [|done].
  unfold update_group. simpl. rewrite lookup_alter.
  destruct (decide (g = g')) as [->|]; [|done].
  destruct (groups s !! g') as [G|]; simpl; [|done]. by rewrite Hroot.
Qed.

Lemma group_owned_by_update n f s m :
  (n = m -> renderGroup (f (container s n)) = renderGroup (container s n)) ->
  group_owned_by (update n f s) m = group_owned_by s m.
Proof.
  intros Hgroup. unfold group_owned_by. rewrite container_update.
  destruct (decide (n = m)) as [->|]; [|done]. by rewrite Hgroup.
Qed.

Lemma roots_own_groups_update_group g f s :
  (forall G, RenderGroup.root (f G) = RenderGroup.root G) ->
  roots_own_groups s -> roots_own_groups (update_group g f s).
Proof.
  intros Hroot Hown m. rewrite container_update_group, group_owned_by_update_group by done.
  apply Hown.
Qed.

Lemma roots_own_groups_update n f s :
  (forall c, isRenderGroupRoot (f c) = isRenderGroupRoot c) ->
  (forall c, renderGroup (f c) = renderGroup c) ->
  roots_own_groups s -> roots_own_groups (update n f s).
Proof.
  intros Hroot Hgroup Hown m. rewrite group_owned_by_update by (intros; apply Hgroup).
  rewrite container_update. case_decide; [subst; rewrite Hroot|]; apply Hown.
Qed.

Lemma roots_own_groups_removeChild g child s :
  roots_own_groups s -> roots_own_groups (RenderGroup_removeChild g child s).
Proof.
  intros Hown. unfold RenderGroup_removeChild.
  set (s1 := update_group g _ s).
  assert (Hown1 : roots_own_groups s1) by (by apply roots_own_groups_update_group).
  destruct (group_owned_by s1 child) as [own|] eqn:Howned.
  - by repeat apply roots_own_groups_update_group.
  - intros m Hm. rewrite container_update in Hm.
    destruct (decide (child = m)) as [->|Hne].
    + simpl in Hm. apply Hown1 in Hm. rewrite Howned in Hm. by destruct Hm.
    + rewrite group_owned_by_update by done. by apply Hown1.
Qed.

Lemma container_removeChild_fields g child s m :
  let c' := container (RenderGroup_removeChild g child s) m in
  destroyed c' = destroyed (container s m)
  /\ isRenderGroupRoot c' = isRenderGroupRoot (container s m)
  /\ parent c' = parent (container s m)
  /\ children c' = children (container s m)
  /\ view c' = view (container s m).
Proof.
  unfold RenderGroup_removeChild.
  destruct (group_owned_by _ child); rewrite ?container_update_group; [done|].
  rewrite container_update. by case_decide; subst.
Qed.

Lemma total_children_update_group g f s :
  total_children (update_group g f s) = total_children s.
Proof. reflexivity. Qed.

Lemma total_children_removeChild g child s :
  total_children (RenderGroup_removeChild g child s) = total_children s.
Proof.
  unfold RenderGroup_removeChild.
  destruct (group_owned_by _ child); rewrite ?total_children_update_group; [done|].
  pose proof (total_children_update child (set_renderGroup None)
                (update_group g
                   (fun G => RenderGroup.set_children
                               (remove_item child (RenderGroup._children G))
                               (RenderGroup.set_structureDidChange true G)) s)) as Hsum.
  simpl in Hsum. rewrite total_children_update_group in Hsum. lia.
Qed.

Lemma trace_removeChild g child s : trace (RenderGroup_removeChild g child s) = trace s.
Proof. unfold RenderGroup_removeChild. by destruct (group_owned_by _ child). Qed.

(** *** Steps that destroy nothing but possibly [n] *)

Lemma calm_but_refl n s : calm_but n s s.
Proof. by repeat split. Qed.

Lemma calm_but_trans n s1 s2 s3 : calm_but n s1 s2 -> calm_but n s2 s3 -> calm_but n s1 s3.
Proof.
  intros (Hc12 & Ht12 & Ho12) (Hc23 & Ht23 & Ho23). split; [|split; [lia|auto]].
  intros m. destruct (Hc12 m) as (Ha & Hb & Hc & Hd & He).
  destruct (Hc23 m) as (Ha' & Hb' & Hc' & Hd' & He').
  repeat split; [intros; rewrite Ha', Ha; auto|auto|congruence|auto|auto].
Qed.

Lemma calm_but_update n m f s :
  (forall c, m <> n -> destroyed (f c) = destroyed c) ->
  (forall c, destroyed c = true -> destroyed (f c) = true) ->
  (forall c, isRenderGroupRoot (f c) = isRenderGroupRoot c) ->
  (forall c, renderGroup (f c) = renderGroup c) ->
  (forall c, parent c = None -> parent (f c) = None) ->
  (forall c, length (children (f c)) <= length (children c))%nat ->
  calm_but n s (update m f s).
Proof.
  intros Hd Hd' Hr Hg Hp Hk. split; [|split].
  - intros k. rewrite container_update.
    destruct (decide (m = k)) as [->|]; [|done].
    repeat split; auto.
    intros Hnil. specialize (Hk (container s k)). rewrite Hnil in Hk. simpl in Hk.
    by destruct (children (f (container s k))); [|simpl in Hk; lia].
  - by apply total_children_update_le.
  - by apply roots_own_groups_update.
Qed.

Lemma calm_but_update_group n g f s :
  (forall G, RenderGroup.root (f G) = RenderGroup.root G) ->
  calm_but n s (update_group g f s).
Proof.
  intros Hroot. split; [done|]. split; [done|]. by apply roots_own_groups_update_group.
Qed.

Lemma calm_but_log n e s : calm_but n s (log e s).
Proof. by repeat split. Qed.

Lemma calm_but_removeChild n g child s : calm_but n s (RenderGroup_removeChild g child s).
Proof.
  split; [|split].
  - intros m. destruct (container_removeChild_fields g child s m) as (-> & -> & -> & -> & _).
    by repeat split.
  - by rewrite total_children_removeChild.
  - apply roots_own_groups_removeChild.
Qed.

Ltac calm_leaf :=
  let s' := fresh "s" in
  let Hs' := fresh "Hcalm" in
  intros s' Hs'; eapply calm_but_trans; [exact Hs'|];
  first [ apply calm_but_log
        | apply calm_but_removeChild
        | apply calm_but_update_group; done
        | apply calm_but_update; intros; simpl; auto using splice1_length; lia ].

Lemma calm_removeChild1 n s0 p child : preserves (calm_but n s0) (removeChild1 p child).
Proof. unfold removeChild1. repeat preserve_step; calm_leaf. Qed.

Lemma calm_removeFromParent n s0 this : preserves (calm_but n s0) (removeFromParent this).
Proof.
  unfold removeFromParent. repeat preserve_step; try apply calm_removeChild1.
Qed.

Lemma calm_removeChildren n s0 this : preserves (calm_but n s0) (removeChildren this).
Proof. unfold removeChildren. repeat preserve_step; calm_leaf. Qed.

(** *** Calls that cannot throw *)

Lemma returns_ret {A} (a : A) : returns (ret a).
Proof. intros s. by exists a. Qed.

Lemma returns_getC n : returns (getC n).
Proof. intros s. by eexists. Qed.

Lemma returns_lift f : returns (lift f).
Proof. intros s. by exists tt. Qed.

Lemma returns_bind {A B} (m : M A) (k : A -> M B) :
  returns m -> (forall a, returns (k a)) -> returns (bind m k).
Proof.
  intros Hm Hk s. unfold bind. destruct (Hm s) as (a & ->).
  destruct (Hk a (final (m s))) as (b & Hb). exists b. by rewrite Hb.
Qed.

Lemma returns_forEach {A} (f : A -> M unit) l :
  (forall x, returns (f x)) -> returns (forEach f l).
Proof.
  intros Hf. induction l as [|x l IH]; simpl.
  - apply returns_ret.
  - apply returns_bind; [apply Hf|]. by intros _.
Qed.

Ltac returns_step :=
  lazymatch goal with
  | |- returns (bind _ _) => apply returns_bind; [|intros ?]
  | |- returns (ret _) => apply returns_ret
  | |- returns (getC _) => apply returns_getC
  | |- returns (modify _ _) => apply returns_lift
  | |- returns (emit _) => apply returns_lift
  | |- returns (lift _) => apply returns_lift
  | |- returns (forEach _ _) => apply returns_forEach; intros ?
  | |- returns (if ?b then _ else _) => destruct b
  | |- returns (match ?x with _ => _ end) => destruct x
  end.

Lemma returns_removeChild1 p child : returns (removeChild1 p child).
Proof. unfold removeChild1. repeat returns_step. Qed.

Lemma returns_removeFromParent this : returns (removeFromParent this).
Proof. unfold removeFromParent. repeat returns_step. apply returns_removeChild1. Qed.

Lemma returns_removeChildren this : returns (removeChildren this).
Proof. unfold removeChildren. repeat returns_step. Qed.

(** *** What the detaching steps leave alone *)

Lemma destroyed_events_log e m s :
  is_destroyed_event m e = false -> destroyed_events m (log e s) = destroyed_events m s.
Proof. intros He. unfold destroyed_events, log. simpl. by rewrite He. Qed.

Ltac events_leaf :=
  intros; rewrite ?destroyed_events_log by done;
  unfold destroyed_events in *; rewrite ?trace_removeChild; auto.

Lemma events_removeChild1 m k p child :
  preserves (fun s => destroyed_events m s = k) (removeChild1 p child).
Proof. unfold removeChild1. repeat preserve_step; events_leaf. Qed.

Lemma events_removeFromParent m k this :
  preserves (fun s => destroyed_events m s = k) (removeFromParent this).
Proof.
  unfold removeFromParent. repeat preserve_step; try apply events_removeChild1.
Qed.

Lemma events_removeChildren m k this :
  preserves (fun s => destroyed_events m s = k) (removeChildren this).
Proof. unfold removeChildren. repeat preserve_step; events_leaf. Qed.

Lemma elem_of_delete_other (c x : nat) (l : list nat) (i : nat) :
  c ∈ l -> l !! i = Some x -> c <> x -> c ∈ delete i l.
Proof.
  intros Hin Hi Hne. apply list_elem_of_lookup in Hin as (j & Hj).
  apply list_elem_of_lookup.
  destruct (decide (j < i)%nat) as [Hlt|Hge].
  - exists j. by rewrite list_lookup_delete_lt.
  - assert (j <> i) by (intros ->; congruence).
    exists (pred j). rewrite list_lookup_delete_ge by lia.
    by replace (S (pred j)) with j by lia.
Qed.

Lemma elem_of_splice1_indexOf (c x : nat) (l : list nat) :
  c ∈ l -> c <> x -> (indexOf x l >? -1) = true -> c ∈ splice1 (indexOf x l) l.
Proof.
  intros Hin Hne Hfound.
  destruct (decide (x ∈ l)) as [Hx|Hx].
  - destruct (indexOf_elem x l Hx) as (i & Hi & Hlook & _).
    rewrite Hi, splice1_at by (by eapply lookup_lt_Some).
    by eapply elem_of_delete_other.
  - rewrite (indexOf_not_elem x l Hx) in Hfound. done.
Qed.

Lemma children_removeChild_helper m l g child :
  forall s, children (container s m) = l ->
            children (container (RenderGroup_removeChild g child s) m) = l.
Proof.
  intros s Hs. by destruct (container_removeChild_fields g child s m) as (_ & _ & _ & -> & _).
Qed.

(** Cutting the link to the parent keeps the children of the node, the
    node itself apart. *)
Lemma removeFromParent_keeps_children n child s :
  child <> n -> child ∈ children (container s n) ->
  child ∈ children (container (final (removeFromParent n s)) n).
Proof.
  intros Hne Hin.
  unfold removeFromParent, removeChild1, bind, getC, modify, emit, lift, ret.
  destruct (parent (container s n)) as [p|]; [|done].
  destruct (indexOf n (children (container s p)) >? -1) eqn:Hfound; simpl.
  - rewrite container_update_eq. simpl.
    assert (Hkept : child ∈ children
                      (container
                         (update p (fun c0 => set_children
                                      (splice1 (indexOf n (children (container s p)))
                                         (children c0)) c0) s) n)).
    { rewrite container_update. case_decide; [subst|done].
      simpl. by apply elem_of_splice1_indexOf. }
    destruct (renderGroup (container s p)) as [g|]; simpl;
      rewrite !container_log, container_update_eq; simpl; [|done].
    by rewrite (children_removeChild_helper n _ g n _ eq_refl).
  - by rewrite !container_log, container_update_eq.
Qed.

(** What [removeChildren] returns and leaves behind. *)
Lemma removeChildren_spec n s :
  exists s',
    removeChildren n s = Ok (children (container s n)) s'
    /\ children (container s' n) = []
    /\ (total_children s' + length (children (container s n)) <= total_children s)%nat.
Proof.
  unfold removeChildren. unfold bind at 1, getC at 1. cbv beta iota zeta.
  set (old := children (container s n)).
  set (detach := forEach _ old).
  assert (Hdetach_ret : returns detach) by (subst detach; repeat returns_step).
  unfold bind at 1. destruct (Hdetach_ret s) as ([] & Hrun1). rewrite Hrun1.
  set (s1 := final (detach s)) in *.
  assert (Hkids1 : children (container s1 n) = old).
  { subst s1 detach.
    apply (preserves_forEach (fun s => children (container s n) = old)); [|done].
    intros child. repeat preserve_step; try (by apply children_removeChild_helper);
      frame_write. }
  assert (Htotal1 : (total_children s1 <= total_children s)%nat).
  { subst s1 detach.
    apply (preserves_forEach (fun s' => (total_children s' <= total_children s)%nat));
      [|done].
    intros child. repeat preserve_step; intros s' Hs'.
    - by rewrite total_children_removeChild.
    - etransitivity; [|exact Hs']. by apply total_children_update_le. }
  unfold bind at 1, modify at 1, lift at 1.
  set (s2 := update n (set_children []) s1).
  assert (Htotal2 : (total_children s2 + length old <= total_children s)%nat).
  { pose proof (total_children_update n (set_children []) s1) as Hsum.
    rewrite Hkids1 in Hsum. simpl in Hsum. subst s2. lia. }
  set (notify := forEach _ (imap _ old)).
  assert (Hnotify_ret : returns notify) by (subst notify; repeat returns_step).
  unfold bind at 1. destruct (Hnotify_ret s2) as ([] & Hrun2). rewrite Hrun2.
  assert (Hlast : children (container (final (notify s2)) n) = []
                  /\ (total_children (final (notify s2)) + length old
                      <= total_children s)%nat).
  { subst notify.
    apply (preserves_forEach
             (fun s' => children (container s' n) = []
                        /\ (total_children s' + length old <= total_children s)%nat)).
    - intros ic. repeat preserve_step; intros s' Hs'; exact Hs'.
    - split; [|exact Htotal2]. subst s2. by rewrite container_update_eq. }
  eexists. split; [reflexivity|]. simpl. by destruct Hlast.
Qed.

(** *** What a call of [destroy] leaves behind *)

Lemma settled_refl s : settled s s.
Proof.
  split; [|by split]. intros m. repeat split; try done; try congruence.
  destruct (destroyed (container s m)); simpl; lia.
Qed.

Lemma settled_trans s1 s2 s3 : settled s1 s2 -> settled s2 s3 -> settled s1 s3.
Proof.
  intros (Hm12 & Ht12 & Ho12) (Hm23 & Ht23 & Ho23). split; [|split; [lia|auto]].
  intros m. destruct (Hm12 m) as (Hd & Hr & Hp & Hk & Hnew & Hev).
  destruct (Hm23 m) as (Hd' & Hr' & Hp' & Hk' & Hnew' & Hev').
  split; [auto|]. split; [congruence|]. split; [auto|]. split; [auto|]. split.
  - intros Hf Ht. destruct (destroyed (container s2 m)) eqn:Hmid.
    + destruct (Hnew Hf eq_refl) as [Hpn Hkn]. auto.
    + by apply Hnew'.
  - rewrite Hev', Hev.
    destruct (destroyed (container s1 m)) eqn:H1.
    + rewrite (Hd eq_refl), (Hd' (Hd eq_refl)). simpl. lia.
    + destruct (destroyed (container s2 m)) eqn:H2.
      * rewrite (Hd' eq_refl). simpl. lia.
      * destruct (destroyed (container s3 m)); simpl; lia.
Qed.

Lemma forEach_destroy_settles options k :
  (forall n s, roots_own_groups s -> (total_children s < k)%nat ->
               exists s', destroy k options n s = Ok tt s' /\ settled s s'
                          /\ destroyed (container s' n) = true) ->
  forall l s, roots_own_groups s -> (l <> [] -> (total_children s < k)%nat) ->
              exists s', forEach (destroy k options) l s = Ok tt s' /\ settled s s'
                         /\ forall x, x ∈ l -> destroyed (container s' x) = true.
Proof.
  intros Hone l. induction l as [|x l IH]; intros s Hown Hfuel.
  - exists s. split; [done|]. split; [apply settled_refl|]. intros x Hx. inversion Hx.
  - destruct (Hone x s Hown (Hfuel ltac:(done))) as (s1 & Hrun1 & Hset1 & Hx1).
    destruct (IH s1) as (s2 & Hrun2 & Hset2 & Hl2).
    + by apply Hset1.
    + intros _. destruct Hset1 as (_ & Hle & _). specialize (Hfuel ltac:(done)). lia.
    + exists s2. split; [|split].
      * simpl. unfold bind. by rewrite Hrun1.
      * by eapply settled_trans.
      * intros y Hy. apply elem_of_cons in Hy as [->|Hy]; [|by apply Hl2].
        destruct Hset2 as (Hm & _). by apply (Hm x).
Qed.

Lemma bind_Ok {A B} (m : M A) (k : A -> M B) s a s' :
  m s = Ok a s' -> bind m k s = k a s'.
Proof. intros Hm. unfold bind. by rewrite Hm. Qed.

Lemma bind_getC {B} n (k : Container -> M B) s : bind (getC n) k s = k (container s n) s.
Proof. reflexivity. Qed.

Lemma bind_modify {B} n f (k : unit -> M B) s : bind (modify n f) k s = k tt (update n f s).
Proof. reflexivity. Qed.

Lemma bind_emit {B} e (k : unit -> M B) s : bind (emit e) k s = k tt (log e s).
Proof. reflexivity. Qed.

(** Releasing the proxy renderable of a render-group root. *)
Lemma destroy_proxy_step n s :
  roots_own_groups s ->
  exists s',
    (if isRenderGroupRoot (container s n)
     then match renderGroup (container s n) with
          | Some g => modifyG g (RenderGroup.set_proxyRenderable None)
          | None => throw TypeError
          end
     else ret tt) s = Ok tt s'
    /\ (forall m, container s' m = container s m)
    /\ trace s' = trace s
    /\ calm_but n s s'.
Proof.
  intros Hown. destruct (isRenderGroupRoot (container s n)) eqn:Hroot.
  - destruct (Hown n Hroot) as [own Howned]. unfold group_owned_by in Howned.
    destruct (renderGroup (container s n)) as [g|]; [|done].
    destruct (groups s !! g) as [G|] eqn:HG; [|done].
    exists (update_group g (RenderGroup.set_proxyRenderable None) s).
    split; [|split; [done|split; [done|by apply calm_but_update_group]]].
    unfold modifyG, bind, getG, lift. by rewrite HG.
  - exists s. split; [done|]. split; [done|]. split; [done|]. apply calm_but_refl.
Qed.

(** The head of [destroy]: everything up to the loop over the former
    children, which starts from the store [s6] with the list [old]. *)
Lemma destroy_head k options n s :
  roots_own_groups s ->
  destroyed (container s n) = false ->
  exists s6 old,
    destroy (S k) options n s
    = bind (if destroyChildren options then forEach (destroy k options) old else ret tt)
        (fun _ => bind (getC n)
                    (fun c => match view c with
                              | Some v => emit (EvViewDestroy v options)
                              | None => ret tt
                              end)) s6
    /\ calm_but n s s6
    /\ destroyed (container s6 n) = true
    /\ parent (container s6 n) = None
    /\ children (container s6 n) = []
    /\ (forall m, destroyed_events m s6
                  = (destroyed_events m s + if decide (m = n) then 1 else 0)%nat)
    /\ (total_children s6 + length old <= total_children s)%nat
    /\ (forall child, child <> n -> child ∈ children (container s n) -> child ∈ old).
Proof.
  intros Hown Hlive. cbn [destroy].
  rewrite bind_getC, Hlive, bind_modify.
  set (s1 := update n (set_destroyed true) s).
  destruct (returns_removeFromParent n s1) as ([] & Hrun2).
  set (s2 := final (removeFromParent n s1)) in *.
  rewrite (bind_Ok _ _ _ _ _ Hrun2), bind_modify, bind_getC.
  set (s3 := update n release_references s2).
  assert (Hc01 : calm_but n s s1) by (apply calm_but_update; intros; simpl; first [done|lia]).
  assert (Hc12 : calm_but n s1 s2)
    by (apply (calm_removeFromParent n s1 n s1), calm_but_refl).
  assert (Hc23 : calm_but n s2 s3) by (apply calm_but_update; intros; simpl; first [done|lia]).
  assert (Hown3 : roots_own_groups s3).
  { apply Hc23, Hc12, Hc01, Hown. }
  destruct (destroy_proxy_step n s3 Hown3) as (s4 & Hrun4 & Hsame4 & Htr4 & Hc34).
  rewrite (bind_Ok _ _ _ _ _ Hrun4), !bind_emit.
  set (s5 := log (EvRemoveAllListeners n) (log (EvDestroyed n) s4)).
  assert (Hc45 : calm_but n s4 s5).
  { eapply calm_but_trans; apply calm_but_log. }
  destruct (removeChildren_spec n s5) as (s6 & Hrun6 & Hnil6 & Htotal6).
  assert (Hfinal6 : s6 = final (removeChildren n s5)) by (by rewrite Hrun6).
  assert (Hc56 : calm_but n s5 s6)
    by (rewrite Hfinal6; apply (calm_removeChildren n s5 n s5), calm_but_refl).
  rewrite (bind_Ok _ _ _ _ _ Hrun6).
  assert (Hc36 : calm_but n s3 s6).
  { eapply calm_but_trans; [exact Hc34|]. by eapply calm_but_trans. }
  assert (Hc16 : calm_but n s1 s6).
  { eapply calm_but_trans; [exact Hc12|]. by eapply calm_but_trans. }
  exists s6, (children (container s5 n)).
  split; [reflexivity|]. split; [by eapply calm_but_trans|].
  split; [|split; [|split; [exact Hnil6|split; [|split]]]].
  - destruct Hc16 as (Hm & _). apply (Hm n). subst s1. by rewrite container_update_eq.
  - destruct Hc36 as (Hm & _). apply (Hm n). subst s3. by rewrite container_update_eq.
  - intros m.
    assert (He2 : destroyed_events m s2 = destroyed_events m s)
      by (by apply (events_removeFromParent m _ n s1)).
    assert (He5 : destroyed_events m s5
                  = (destroyed_events m s + if decide (m = n) then 1 else 0)%nat).
    { unfold destroyed_events in *. subst s5. simpl. rewrite Htr4.
      change (trace s3) with (trace s2). rewrite <- He2.
      destruct (decide (m = n)) as [->|Hne].
      - rewrite bool_decide_eq_true_2 by done. simpl. lia.
      - rewrite bool_decide_eq_false_2 by done. lia. }
    rewrite Hfinal6, <- He5. by apply (events_removeChildren m _ n s5).
  - destruct Hc01 as (_ & Ht01 & _). destruct Hc12 as (_ & Ht12 & _).
    destruct Hc23 as (_ & Ht23 & _). destruct Hc34 as (_ & Ht34 & _).
    destruct Hc45 as (_ & Ht45 & _). lia.
  - intros child Hne Hin.
    assert (Hin2 : child ∈ children (container s2 n)).
    { apply removeFromParent_keeps_children; [done|].
      subst s1. by rewrite container_update_eq. }
    subst s5. rewrite !container_log, Hsame4. subst s3.
    by rewrite container_update_eq.
Qed.

Lemma settled_of_calm n s s' :
  calm_but n s s' ->
  destroyed (container s n) = false ->
  destroyed (container s' n) = true ->
  parent (container s' n) = None ->
  children (container s' n) = [] ->
  (forall m, destroyed_events m s'
             = (destroyed_events m s + if decide (m = n) then 1 else 0)%nat) ->
  settled s s'.
Proof.
  intros (Hm & Htotal & Hown) Hlive Hdead Hparent Hkids Hevents.
  split; [|by split]. intros m.
  destruct (Hm m) as (Hsame & Hmono & Hroot & Hp & Hk).
  split; [auto|]. split; [auto|]. split; [auto|]. split; [auto|]. split.
  - intros Hf Ht. destruct (decide (m = n)) as [->|Hne]; [done|].
    rewrite Hsame in Ht by done. congruence.
  - rewrite Hevents. destruct (decide (m = n)) as [->|Hne].
    + by rewrite Hlive, Hdead.
    + rewrite Hsame by done. by destruct (destroyed (container s m)).
Qed.

Lemma settled_log e s :
  (forall m, is_destroyed_event m e = false) -> settled s (log e s).
Proof.
  intros He. split; [|by split]. intros m. rewrite container_log.
  split; [auto|]. split; [auto|]. split; [auto|]. split; [auto|]. split; [congruence|].
  rewrite destroyed_events_log by apply He.
  destruct (destroyed (container s m)); simpl; lia.
Qed.

(** With one unit of fuel more than there are parent-to-child references,
    [destroy] returns, and it leaves the node destroyed and every node it
    destroyed on the way detached and childless. *)
Lemma destroy_settles options fuel :
  forall n s,
    roots_own_groups s -> (total_children s < fuel)%nat ->
    exists s',
      destroy fuel options n s = Ok tt s' /\ settled s s'
      /\ destroyed (container s' n) = true
      /\ (destroyChildren options = true -> destroyed (container s n) = false ->
          forall child, child ∈ children (container s n) ->
                        destroyed (container s' child) = true).
Proof.
  induction fuel as [|k IH]; intros n s Hown Hfuel; [lia|].
  destruct (destroyed (container s n)) eqn:Hlive.
  - exists s. cbn [destroy]. rewrite bind_getC, Hlive.
    split; [done|]. split; [apply settled_refl|]. split; [done|]. intros _ Hf. discriminate.
  - destruct (destroy_head k options n s Hown Hlive)
      as (s6 & old & Hrun & Hcalm & Hd6 & Hp6 & Hk6 & Hev6 & Htot6 & Hold).
    rewrite Hrun.
    assert (Hset6 : settled s s6) by (by eapply settled_of_calm).
    assert (Hown6 : roots_own_groups s6) by (by apply Hset6).
    assert (Hloop : exists s7,
               (if destroyChildren options then forEach (destroy k options) old
                else ret tt) s6 = Ok tt s7
               /\ settled s6 s7
               /\ (destroyChildren options = true ->
                   forall x, x ∈ old -> destroyed (container s7 x) = true)).
    { destruct (destroyChildren options).
      - destruct (forEach_destroy_settles options k) with (l := old) (s := s6)
          as (s7 & Hrun7 & Hset7 & Hall7); [|done| |by exists s7].
        + intros x s0 Hown0 Hfuel0.
          destruct (IH x s0 Hown0 Hfuel0) as (s0' & ? & ? & ? & _). by exists s0'.
        + intros Hne. destruct old; [done|]. simpl in Htot6. lia.
      - exists s6. split; [done|]. split; [apply settled_refl|]. discriminate. }
    destruct Hloop as (s7 & Hrun7 & Hset7 & Hall7).
    rewrite (bind_Ok _ _ _ _ _ Hrun7), bind_getC.
    assert (Hview : exists s8,
               match view (container s7 n) with
               | Some v => emit (EvViewDestroy v options)
               | None => ret tt
               end s7 = Ok tt s8 /\ settled s7 s8).
    { destruct (view (container s7 n)) as [v|].
      - exists (log (EvViewDestroy v options) s7). split; [done|]. by apply settled_log.
      - exists s7. split; [done|apply settled_refl]. }
    destruct Hview as (s8 & Hrun8 & Hset8).
    exists s8. split; [exact Hrun8|].
    assert (Hset68 : settled s6 s8) by (by eapply settled_trans).
    split; [by eapply settled_trans|]. split.
    + destruct Hset68 as (Hm & _). by apply (Hm n).
    + intros Hopt _ child Hin. destruct (decide (child = n)) as [->|Hne].
      * destruct Hset68 as (Hm & _). by apply (Hm n).
      * destruct Hset8 as (Hm & _). apply (Hm child). apply Hall7; [done|].
        by apply Hold.
Qed.

(** C8. [destroy] is idempotent and, asked to destroy the children too,
    destroys every former child exactly once.  Whenever the call has more
    fuel than the store has parent-to-child references it returns; the
    node is then destroyed, and calling [destroy] on it again returns the
    same store.  With the children option set, each child the node had,
    not destroyed before, ends with its destroyed flag set, a null parent
    and no children, and has announced its destruction exactly once. *)
Theorem destroy_idempotent_and_destroys_children fuel options n s :
  roots_own_groups s ->
  (total_children s < fuel)%nat ->
  exists s',
    destroy fuel options n s = Ok tt s'
    /\ destroyed (container s' n) = true
    /\ destroy fuel options n s' = Ok tt s'
    /\ (destroyChildren options = true ->
        destroyed (container s n) = false ->
        forall child,
          child ∈ children (container s n) ->
          destroyed (container s child) = false ->
          destroyed (container s' child) = true
          /\ parent (container s' child) = None
          /\ children (container s' child) = []
          /\ destroyed_events child s' = S (destroyed_events child s)).
Proof.
  intros Hown Hfuel.
  destruct (destroy_settles options fuel n s Hown Hfuel)
    as (s' & Hrun & (Hm & _) & Hdead & Hkids).
  exists s'. split; [exact Hrun|]. split; [exact Hdead|]. split.
  - destruct fuel as [|k]; [lia|]. cbn [destroy]. by rewrite bind_getC, Hdead.
  - intros Hopt Hlive child Hin Hchild.
    specialize (Hkids Hopt Hlive child Hin).
    destruct (Hm child) as (_ & _ & _ & _ & Hnew & Hev).
    destruct (Hnew Hchild Hkids) as [Hp Hk].
    split; [exact Hkids|]. split; [exact Hp|]. split; [exact Hk|].
    rewrite Hev, Hchild, Hkids. simpl. lia.
Qed.

(** Destroying a destroyed node changes nothing. *)
Lemma destroy_destroyed_noop fuel options n s :
  destroyed (container s n) = true -> destroy (S fuel) options n s = Ok tt s.
Proof. intros Hdead. cbn [destroy]. by rewrite bind_getC, Hdead. Qed.

(** A check of [roots_own_groups] that runs. *)
Lemma roots_own_groups_checked s :
  forallb (fun entry => implb (isRenderGroupRoot (snd entry))
                          (bool_decide (is_Some (group_owned_by s (fst entry)))))
    (map_to_list (containers s)) = true ->
  roots_own_groups s.
Proof.
  intros Hcheck m Hroot. unfold container in Hroot.
  destruct (containers s !! m) as [c|] eqn:Hc; simpl in Hroot; [|done].
  rewrite forallb_forall in Hcheck.
  assert (Hin : In (m, c) (map_to_list (containers s))).
  { apply list_elem_of_In, elem_of_map_to_list, Hc. }
  specialize (Hcheck _ Hin). simpl in Hcheck. rewrite Hroot in Hcheck. simpl in Hcheck.
  by apply bool_decide_eq_true in Hcheck.
Qed.

(** ** The link between parent and children, where the code keeps it *)

Lemma remove_item_spec (x : nat) (l : list nat) :
  NoDup l ->
  NoDup (remove_item x l) /\ forall y, y ∈ remove_item x l <-> y ∈ l /\ y <> x.
Proof.
  intros Hnd. unfold remove_item.
  destruct (decide (x ∈ l)) as [Hx|Hx].
  - destruct (indexOf_elem x l Hx) as (i & Hi & Hlook & _).
    rewrite Hi. replace (Z.of_nat i >? -1) with true by (symmetry; apply Z.gtb_lt; lia).
    rewrite splice1_at by (by eapply lookup_lt_Some).
    rewrite delete_take_drop.
    rewrite <- (take_drop_middle l i x Hlook) in Hnd.
    apply NoDup_app in Hnd as (Hnd1 & Hdisj & Hnd2).
    apply NoDup_cons in Hnd2 as (Hx2 & Hnd2).
    split.
    + apply NoDup_app. split; [done|]. split; [|done].
      intros y Hy1 Hy2. apply (Hdisj y Hy1). by right.
    + intros y. rewrite <- (take_drop_middle l i x Hlook) at 3.
      rewrite !elem_of_app, elem_of_cons. split.
      * intros [Hy|Hy]; (split; [tauto|]); intros ->; [|done].
        apply (Hdisj x Hy). by left.
      * intros [[Hy|[Hy|Hy]] Hne]; tauto.
  - rewrite (indexOf_not_elem x l Hx). simpl. split; [done|].
    intros y. split; [|tauto]. intros Hy. split; [done|]. by intros ->.
Qed.

Lemma container_addChild_helper_links g child s m :
  parent (container (RenderGroup_addChild g child s) m) = parent (container s m)
  /\ children (container (RenderGroup_addChild g child s) m) = children (container s m).
Proof.
  unfold RenderGroup_addChild, RenderGroup_addRenderGroupChild.
  destruct (group_owned_by _ child) as [own|].
  - destruct (groups _ !! own) as [C|]; [destruct (RenderGroup.renderGroupParent C)|];
      by rewrite ?container_update_group.
  - rewrite !container_update_group, container_update. by case_decide; subst.
Qed.

(** The parent pointers and the children lists after [removeChild]. *)
Lemma removeChild1_links P C s m :
  parent (container (final (removeChild1 P C s)) m)
  = (if decide (m = C) then None else parent (container s m))
  /\ children (container (final (removeChild1 P C s)) m)
     = (if decide (m = P) then remove_item C (children (container s P))
        else children (container s m)).
Proof.
  unfold removeChild1, bind, getC, modify, emit, lift, ret, remove_item.
  destruct (indexOf C (children (container s P)) >? -1) eqn:Hfound; simpl.
  - rewrite container_update_eq. simpl.
    set (s1 := update P _ s).
    assert (Hs1 : parent (container s1 m) = parent (container s m)
                  /\ children (container s1 m)
                     = (if decide (m = P)
                        then splice1 (indexOf C (children (container s P)))
                               (children (container s P))
                        else children (container s m))).
    { subst s1. rewrite container_update.
      destruct (decide (P = m)) as [->|Hne]; simpl.
      - by rewrite decide_True.
      - by rewrite decide_False by done. }
    destruct Hs1 as [Hp1 Hk1].
    destruct (renderGroup (container s P)) as [g|]; simpl;
      rewrite !container_log, container_update;
      destruct (decide (C = m)) as [->|Hne]; simpl;
      rewrite ?decide_True by done; rewrite ?(decide_False (P := m = C)) by done;
      try (destruct (container_removeChild_fields g C s1 m) as (_ & _ & Hp2 & Hk2 & _));
      try (destruct (container_removeChild_fields g m s1 m) as (_ & _ & Hp3 & Hk3 & _));
      by rewrite ?Hp2, ?Hk2, ?Hp3, ?Hk3, ?Hp1, ?Hk1.
  - rewrite !container_log, container_update.
    destruct (decide (C = m)) as [->|Hne]; simpl.
    + rewrite decide_True by done. split; [done|]. by destruct (decide (m = P)) as [->|].
    + rewrite (decide_False (P := m = C)) by done. split; [done|].
      by destruct (decide (m = P)) as [->|].
Qed.

(** Removing a node from the container that holds it keeps the link. *)
Lemma removeChild_keeps_link P C s :
  linked s -> tidy s -> C ∈ children (container s P) ->
  linked (final (removeChild P [C] s)) /\ tidy (final (removeChild P [C] s))
  /\ parent (container (final (removeChild P [C] s)) C) = None.
Proof.
  intros Hlinked Htidy Hin.
  change (removeChild P [C] s) with (removeChild1 P C s).
  destruct (remove_item_spec C _ (Htidy P)) as [Hnd Hmem].
  split; [|split].
  - intros p n.
    destruct (removeChild1_links P C s n) as [-> _].
    destruct (removeChild1_links P C s p) as [_ ->].
    destruct (decide (n = C)) as [->|Hn]; destruct (decide (p = P)) as [->|Hp].
    + split; [|done]. intros HC. apply Hmem in HC. tauto.
    + split; [|done]. intros HC. apply Hlinked in HC. apply Hlinked in Hin. congruence.
    + split.
      * intros Hn'. apply Hmem in Hn' as [Hn' _]. by apply Hlinked.
      * intros Hn'. apply Hmem. split; [by apply Hlinked|done].
    + apply Hlinked.
  - intros p. destruct (removeChild1_links P C s p) as [_ ->].
    destruct (decide (p = P)); [done|apply Htidy].
  - destruct (removeChild1_links P C s C) as [-> _]. by rewrite decide_True.
Qed.

Lemma deprecation_check_runs P s :
  exists s0, deprecation_check P s = Ok tt s0 /\ forall m, container s0 m = container s m.
Proof.
  unfold deprecation_check. rewrite bind_getC.
  destruct (allowChildren (container s P)); [by exists s|].
  by exists (log EvDeprecation s).
Qed.

Lemma links_addChild_helper m x y g child :
  forall s, parent (container s m) = x /\ children (container s m) = y ->
            parent (container (RenderGroup_addChild g child s) m) = x
            /\ children (container (RenderGroup_addChild g child s) m) = y.
Proof.
  intros s [Hp Hk]. destruct (container_addChild_helper_links g child s m) as [-> ->].
  done.
Qed.

(** The parent pointers and the children lists after [addChild]. *)
Lemma addChild1_links P C s m :
  let s' := final (addChild1 P C s) in
  if decide (parent (container s C) = Some P) then
    parent (container s' m) = parent (container s m)
    /\ children (container s' m)
       = (if decide (m = P)
          then splice1 (indexOf C (children (container s P))) (children (container s P))
               ++ [C]
          else children (container s m))
  else
    parent (container s' m) = (if decide (m = C) then Some P else parent (container s m))
    /\ children (container s' m)
       = (if decide (m = P) then detached s C P ++ [C] else detached s C m).
Proof.
  cbv zeta. unfold addChild1.
  destruct (deprecation_check_runs P s) as (s0 & Hrun0 & Hs0).
  rewrite (bind_Ok _ _ _ _ _ Hrun0), bind_getC, Hs0.
  destruct (decide (parent (container s C) = Some P)) as [Hchild|Hother].
  - rewrite !bind_modify, bind_getC.
    match goal with
    | |- context [final (?tail ?st)] =>
        assert (Htail : preserves
                  (fun s' => parent (container s' m) = parent (container s m)
                             /\ children (container s' m)
                                = (if decide (m = P)
                                   then splice1 (indexOf C (children (container s P)))
                                          (children (container s P)) ++ [C]
                                   else children (container s m))) tail);
        [|apply Htail]
    end.
    + repeat preserve_step; intros s' Hs'; exact Hs'.
    + rewrite !container_update. destruct (decide (P = m)) as [->|Hne]; simpl.
      * rewrite !Hs0. by destruct (decide (m = m)).
      * rewrite Hs0. by destruct (decide (m = P)); [subst|].
  - assert (Hdetach : exists s1,
               (match parent (container s C) with
                | Some p => bind (removeChild1 p C) (fun _ => ret tt)
                | None => ret tt
                end) s0 = Ok tt s1
               /\ forall k,
                    parent (container s1 k)
                    = (if decide (k = C) then None else parent (container s k))
                    /\ children (container s1 k) = detached s C k).
    { unfold detached. destruct (parent (container s C)) as [Q|] eqn:HQ.
      - destruct (returns_removeChild1 Q C s0) as (r & Hr).
        exists (final (removeChild1 Q C s0)). split; [by rewrite (bind_Ok _ _ _ _ _ Hr)|].
        intros k. destruct (removeChild1_links Q C s0 k) as [-> ->].
        by rewrite !Hs0.
      - exists s0. split; [done|]. intros k. rewrite Hs0. split; [|done].
        destruct (decide (k = C)) as [->|]; done. }
    destruct Hdetach as (s1 & Hrun1 & Hs1).
    rewrite (bind_Ok _ _ _ _ _ Hrun1), bind_modify, bind_getC.
    set (s2 := update P _ s1).
    assert (Hs2 : forall k,
               parent (container s2 k)
               = (if decide (k = C) then None else parent (container s k))
               /\ children (container s2 k)
                  = (if decide (k = P) then detached s C P ++ [C] else detached s C k)).
    { intros k. subst s2. rewrite container_update.
      destruct (decide (P = k)) as [->|Hne]; simpl.
      - destruct (Hs1 k) as [-> ->]. by destruct (decide (k = k)).
      - destruct (decide (k = P)); [by subst|]. apply Hs1. }
    match goal with
    | |- context [final (bind ?sort ?rest s2)] =>
        assert (Hsort : exists s3, sort s2 = Ok tt s3
                                   /\ forall k, parent (container s3 k) = parent (container s2 k)
                                                /\ children (container s3 k)
                                                   = children (container s2 k))
    end.
    { destruct (sortableChildren (container s2 P)).
      - eexists. split; [reflexivity|]. intros k. rewrite container_update.
        by destruct (decide (P = k)) as [->|].
      - by exists s2. }
    destruct Hsort as (s3 & Hrun3 & Hs3).
    rewrite (bind_Ok _ _ _ _ _ Hrun3), bind_modify.
    match goal with
    | |- context [final (?tail ?st)] =>
        assert (Htail : preserves
                  (fun s' => parent (container s' m)
                             = (if decide (m = C) then Some P else parent (container s m))
                             /\ children (container s' m)
                                = (if decide (m = P) then detached s C P ++ [C]
                                   else detached s C m)) tail);
        [|apply Htail]
    end.
    + repeat preserve_step; try (by apply links_addChild_helper);
        intros s' Hs'; rewrite ?container_log;
        try (rewrite container_update;
             match goal with
             | |- context [decide (?a = m)] => destruct (decide (a = m)) as [->|?]
             end; simpl);
        exact Hs'.
    + rewrite container_update. destruct (decide (C = m)) as [->|Hne]; simpl.
      * destruct (decide (m = m)); [|done]. split; [done|].
        destruct (Hs3 m) as [_ ->]. apply Hs2.
      * destruct (Hs3 m) as [-> ->]. destruct (Hs2 m) as [-> ->].
        by destruct (decide (m = C)); [subst|].
Qed.

Lemma detached_spec s C k :
  linked s -> tidy s ->
  NoDup (detached s C k)
  /\ forall y, y ∈ detached s C k <-> y ∈ children (container s k) /\ y <> C.
Proof.
  intros Hlinked Htidy.
  assert (Hfree : parent (container s C) <> Some k ->
                  forall y, y ∈ children (container s k)
                            <-> y ∈ children (container s k) /\ y <> C).
  { intros Hp y. split; [|tauto]. intros Hy. split; [done|]. intros ->.
    by apply Hlinked in Hy. }
  unfold detached. destruct (parent (container s C)) as [Q|] eqn:HQ.
  - destruct (decide (k = Q)) as [->|Hne].
    + apply remove_item_spec, Htidy.
    + split; [apply Htidy|]. apply Hfree. congruence.
  - split; [apply Htidy|]. by apply Hfree.
Qed.

(** Adding a node, wherever it was, keeps the link: [addChild] detaches the
    node from its former parent before it attaches it. *)
Lemma addChild_keeps_link P C s :
  linked s -> tidy s ->
  linked (final (addChild P [C] s)) /\ tidy (final (addChild P [C] s))
  /\ parent (container (final (addChild P [C] s)) C) = Some P
  /\ C ∈ children (container (final (addChild P [C] s)) P).
Proof.
  intros Hlinked Htidy.
  change (addChild P [C] s) with (addChild1 P C s).
  pose proof (addChild1_links P C s) as Hlinks. cbv zeta in Hlinks.
  destruct (decide (parent (container s C) = Some P)) as [Hchild|Hother].
  - assert (Hin : C ∈ children (container s P)) by (by apply Hlinked).
    destruct (splice_push_moves_last C _ Hin) as (l1 & l2 & Hl & Hnin & Hmove).
    assert (Hperm : l1 ++ l2 ++ [C] ≡ₚ children (container s P)).
    { rewrite Hl. by rewrite (Permutation_app_comm l2 [C]). }
    assert (Hkids : forall p, children (container (final (addChild1 P C s)) p)
                              ≡ₚ children (container s p)).
    { intros p. destruct (Hlinks p) as [_ ->].
      destruct (decide (p = P)) as [->|]; [|done]. by rewrite Hmove. }
    assert (Hpar : forall n, parent (container (final (addChild1 P C s)) n)
                             = parent (container s n))
      by (intros n; by destruct (Hlinks n)).
    split; [|split; [|split]].
    + intros p n. rewrite Hkids, Hpar. apply Hlinked.
    + intros p. rewrite Hkids. apply Htidy.
    + by rewrite Hpar.
    + by rewrite Hkids.
  - assert (Hkids : forall p y,
               y ∈ children (container (final (addChild1 P C s)) p)
               <-> (y ∈ children (container s p) /\ y <> C) \/ (p = P /\ y = C)).
    { intros p y. destruct (Hlinks p) as [_ ->].
      destruct (detached_spec s C p Hlinked Htidy) as [_ Hmem].
      destruct (decide (p = P)) as [->|Hne].
      - rewrite elem_of_app, list_elem_of_singleton, Hmem. tauto.
      - rewrite Hmem. tauto. }
    assert (Hpar : forall n, parent (container (final (addChild1 P C s)) n)
                             = (if decide (n = C) then Some P
                                else parent (container s n)))
      by (intros n; by destruct (Hlinks n)).
    split; [|split; [|split]].
    + intros p n. rewrite Hkids, Hpar.
      destruct (decide (n = C)) as [->|Hn].
      * split; [intros [[_ ?]|[-> _]]; done|]. intros [= ->]. by right.
      * split.
        -- intros [[Hy _]|[_ ?]]; [by apply Hlinked|done].
        -- intros Hp. left. split; [by apply Hlinked|done].
    + intros p. destruct (Hlinks p) as [_ ->].
      destruct (detached_spec s C p Hlinked Htidy) as [Hnd Hmem].
      destruct (decide (p = P)) as [->|]; [|done].
      apply NoDup_app. split; [done|]. split; [|apply NoDup_singleton].
      intros y Hy Hy'. apply list_elem_of_singleton in Hy' as ->.
      apply Hmem in Hy. tauto.
    + rewrite Hpar. by destruct (decide (C = C)).
    + apply Hkids. by right.
Qed.
(** ** The link invariants, checked on a store *)

Lemma links_checked_sound s : links_checked s = true -> linked s /\ tidy s.
Proof.
  intros Hcheck. unfold links_checked in Hcheck. rewrite forallb_forall in Hcheck.
  assert (Hentry : forall m c0, containers s !! m = Some c0 ->
             (forall child, child ∈ children c0 -> parent (container s child) = Some m)
             /\ (forall p, parent c0 = Some p -> m ∈ children (container s p))
             /\ NoDup (children c0)).
  { intros m c0 Hm.
    assert (Hin : In (m, c0) (map_to_list (containers s)))
      by (apply list_elem_of_In, elem_of_map_to_list, Hm).
    specialize (Hcheck _ Hin). simpl in Hcheck.
    apply andb_prop in Hcheck as [Hcheck Hnd]. apply andb_prop in Hcheck as [Hkids Hpar].
    split; [|split].
    - intros child Hchild. rewrite forallb_forall in Hkids.
      apply list_elem_of_In in Hchild. specialize (Hkids _ Hchild).
      by apply bool_decide_eq_true in Hkids.
    - intros p Hp. rewrite Hp in Hpar. by apply bool_decide_eq_true in Hpar.
    - by apply bool_decide_eq_true in Hnd. }
  split.
  - intros p n. split.
    + intros Hin. unfold container in Hin at 1.
      destruct (containers s !! p) as [c0|] eqn:Hp; simpl in Hin; [|inversion Hin].
      by apply (Hentry p c0 Hp).
    + intros Hpar. unfold container in Hpar at 1.
      destruct (containers s !! n) as [c0|] eqn:Hn; simpl in Hpar; [|discriminate].
      by apply (Hentry n c0 Hn).
  - intros p. unfold container.
    destruct (containers s !! p) as [c0|] eqn:Hp; simpl; [|apply NoDup_nil_2].
    by apply (Hentry p c0 Hp).
Qed.


(** ** The tint, read back *)

Ltac powers_of_two :=
  change (2 ^ 8) with 256 in *; change (2 ^ 16) with 65536 in *;
  change (2 ^ 24) with 16777216 in *; change (2 ^ 31) with 2147483648 in *;
  change (2 ^ 32) with 4294967296 in *.

Lemma to_int32_congruent z : exists k, to_int32 z = z + k * 2 ^ 32.
Proof.
  unfold to_int32. exists (- ((z + 2 ^ 31) / 2 ^ 32)). powers_of_two.
  pose proof (Z.div_mod (z + 2147483648) 4294967296 ltac:(lia)). lia.
Qed.

Lemma to_int32_small z : - 2 ^ 31 <= z < 2 ^ 31 -> to_int32 z = z.
Proof. intros Hz. unfold to_int32. powers_of_two. rewrite Z.mod_small by lia. lia. Qed.

Lemma land_255 z : Z.land z 255 = z mod 256.
Proof. change 255 with (Z.ones 8). by rewrite Z.land_ones. Qed.

Lemma land_65280 z : Z.land z 65280 = 256 * ((z / 256) mod 256).
Proof.
  transitivity (Z.shiftl (Z.land (Z.shiftr z 8) (Z.ones 8)) 8).
  - apply Z.bits_inj'. intros k Hk.
    rewrite Z.land_spec. change 65280 with (Z.shiftl (Z.ones 8) 8).
    destruct (Z.ltb_spec k 8) as [Hlt|Hge].
    + rewrite !Z.shiftl_spec_low by lia. apply andb_false_r.
    + rewrite !Z.shiftl_spec by lia. rewrite Z.land_spec, Z.shiftr_spec by lia.
      by replace (k - 8 + 8) with k by lia.
  - rewrite Z.land_ones, Z.shiftr_div_pow2, Z.shiftl_mul_pow2 by lia.
    change (2 ^ 8) with 256. lia.
Qed.

Lemma mod_256_congruent z k : (z + k * 2 ^ 32) mod 256 = z mod 256.
Proof.
  replace (z + k * 2 ^ 32) with (z + (k * 2 ^ 24) * 256) by (powers_of_two; lia).
  apply Z_mod_plus_full.
Qed.

Lemma div_mod_256_congruent z k d :
  d = 256 \/ d = 65536 -> ((z + k * 2 ^ 32) / d) mod 256 = (z / d) mod 256.
Proof.
  intros [-> | ->].
  - replace (z + k * 2 ^ 32) with (z + (k * 2 ^ 24) * 256) by (powers_of_two; lia).
    rewrite Z.div_add by lia.
    replace (k * 2 ^ 24) with ((k * 2 ^ 16) * 256) by (powers_of_two; lia).
    apply Z_mod_plus_full.
  - replace (z + k * 2 ^ 32) with (z + (k * 2 ^ 16) * 65536) by (powers_of_two; lia).
    rewrite Z.div_add by lia.
    replace (k * 2 ^ 16) with ((k * 2 ^ 8) * 256) by (powers_of_two; lia).
    apply Z_mod_plus_full.
Qed.

(** The tint getter swaps the first and the third byte of the stored colour
    and drops everything above the third. *)
Lemma tint_bytes x :
  tint x = 65536 * (x mod 256) + 256 * ((x / 256) mod 256) + (x / 65536) mod 256.
Proof.
  unfold tint. destruct (to_int32_congruent x) as (k & ->).
  rewrite Z.shiftr_div_pow2, Z.shiftl_mul_pow2 by lia. rewrite !land_255, land_65280.
  change (2 ^ 16) with 65536.
  rewrite mod_256_congruent, !div_mod_256_congruent by auto.
  pose proof (Z.mod_pos_bound x 256 ltac:(lia)).
  rewrite to_int32_small by (powers_of_two; lia). lia.
Qed.

(** X1. The tint getter turns the stored BGR colour into RGB: whatever
    integer is stored, the result is a 24-bit colour, and converting the
    result once more gives the low 24 bits of the stored colour, so on 24-bit
    colours the conversion is its own inverse. *)
Theorem tint_round_trip x :
  0 <= tint x < 2 ^ 24 /\ tint (tint x) = x mod 2 ^ 24.
Proof.
  powers_of_two.
  assert (Hrange : 0 <= tint x < 16777216).
  { rewrite tint_bytes.
    pose proof (Z.mod_pos_bound x 256 ltac:(lia)).
    pose proof (Z.mod_pos_bound (x / 256) 256 ltac:(lia)).
    pose proof (Z.mod_pos_bound (x / 65536) 256 ltac:(lia)). lia. }
  assert (Hback : tint (tint x) = x mod 16777216).
  { rewrite (tint_bytes (tint x)), (tint_bytes x).
    set (r := x mod 256). set (g := (x / 256) mod 256). set (b := (x / 65536) mod 256).
    assert (Hr : 0 <= r < 256) by (apply Z.mod_pos_bound; lia).
    assert (Hg : 0 <= g < 256) by (apply Z.mod_pos_bound; lia).
    assert (Hb : 0 <= b < 256) by (apply Z.mod_pos_bound; lia).
    replace ((65536 * r + 256 * g + b) mod 256) with b
      by (apply (Z.mod_unique_pos _ _ (256 * r + g)); lia).
    replace ((65536 * r + 256 * g + b) / 256) with (256 * r + g)
      by (apply (Z.div_unique_pos _ _ _ b); lia).
    replace ((256 * r + g) mod 256) with g
      by (apply (Z.mod_unique_pos _ _ r); lia).
    replace ((65536 * r + 256 * g + b) / 65536) with r
      by (apply (Z.div_unique_pos _ _ _ (256 * g + b)); lia).
    rewrite (Z.mod_small r) by lia.
    apply (Z.mod_unique_pos _ _ (x / 16777216)); [lia|].
    subst r g b.
    pose proof (Z.div_mod x 256 ltac:(lia)).
    pose proof (Z.div_mod (x / 256) 256 ltac:(lia)).
    pose proof (Z.div_mod (x / 65536) 256 ltac:(lia)).
    replace (x / 65536) with (x / 256 / 256) in * by (rewrite Z.div_div by lia; done).
    replace (x / 16777216) with (x / 256 / 256 / 256)
      by (rewrite !Z.div_div by lia; done).
    lia. }
  split; [exact Hrange|exact Hback].
Qed.

(** ** [onViewUpdate] *)

Lemma view_notifications_log e n s :
  view_notifications n (log e s)
  = ((if is_view_notification n e then 1 else 0) + view_notifications n s)%nat.
Proof.
  unfold view_notifications, log. simpl.
  destruct (is_view_notification n e); reflexivity.
Qed.

Lemma final_onViewUpdate n s :
  onViewUpdate n s
  = Ok tt (if didViewUpdate (container s n) then s
           else match renderGroup (container s n) with
                | Some g => log (EvOnChildViewUpdate g n) (update n (set_didViewUpdate true) s)
                | None => update n (set_didViewUpdate true) s
                end).
Proof.
  unfold onViewUpdate. rewrite bind_getC.
  destruct (didViewUpdate (container s n)); [reflexivity|].
  rewrite bind_modify, bind_getC, container_update_eq. simpl.
  destruct (renderGroup (container s n)); reflexivity.
Qed.

(** X2. [onViewUpdate] never throws and coalesces: the first call latches
    [didViewUpdate] and tells the render group of the node, if it has one
    and the latch was clear; a second call changes nothing.  The call
    touches no other node, no render group and not the [didChange] latch. *)
Theorem onViewUpdate_coalesces s n :
  let s1 := final (onViewUpdate n s) in
  onViewUpdate n s = Ok tt s1
  /\ onViewUpdate n s1 = Ok tt s1
  /\ didViewUpdate (container s1 n) = true
  /\ view_notifications n s1
     = ((if didViewUpdate (container s n) then 0
         else match renderGroup (container s n) with Some _ => 1 | None => 0 end)
        + view_notifications n s)%nat
  /\ (forall m, didChange (container s1 m) = didChange (container s m))
  /\ (forall m, m <> n -> container s1 m = container s m)
  /\ groups s1 = groups s.
Proof.
  intros s1. subst s1.
  assert (Hlatched : didViewUpdate (container (final (onViewUpdate n s)) n) = true).
  { rewrite final_onViewUpdate. simpl.
    destruct (didViewUpdate (container s n)) eqn:Hd; [exact Hd|].
    destruct (renderGroup (container s n));
      rewrite ?container_log, container_update_eq; reflexivity. }
  split; [rewrite final_onViewUpdate; reflexivity|].
  split; [rewrite (final_onViewUpdate n (final _)), Hlatched; reflexivity|].
  split; [exact Hlatched|].
  rewrite final_onViewUpdate. simpl.
  destruct (didViewUpdate (container s n)) eqn:Hd.
  { split; [reflexivity|]. split; [reflexivity|]. split; reflexivity. }
  destruct (renderGroup (container s n)) eqn:Hg.
  - split.
    { rewrite view_notifications_log. simpl. rewrite bool_decide_eq_true_2 by done.
      reflexivity. }
    split; [intros m; rewrite container_log, container_update; case_decide; subst; auto|].
    split; [intros m Hm; rewrite container_log, container_update_ne by done; reflexivity|].
    reflexivity.
  - split; [reflexivity|].
    split; [intros m; rewrite container_update; case_decide; subst; auto|].
    split; [intros m Hm; rewrite container_update_ne by done; reflexivity|].
    reflexivity.
Qed.

(** ** The setters of the visibility bits, the alpha and the rotation *)

Lemma final_bind_Ok {A B} (m : M A) (k : A -> M B) s a s' :
  m s = Ok a s' -> final (bind m k s) = final (k a s').
Proof. intros Hm. by rewrite (bind_Ok _ _ _ _ _ Hm). Qed.

(** What [onUpdate()] leaves of the node it is called on. *)
Lemma container_onUpdate_None n s :
  container (final (onUpdate None n s)) n = set_didChange true (container s n).
Proof.
  rewrite final_onUpdate_None.
  destruct (didChange (container s n)) eqn:Hd.
  - destruct (container s n); simpl in *; by subst.
  - destruct (notify_target s n); by rewrite ?container_log, container_update_eq.
Qed.

(** The [structureDidChange] mark of the setters: it reads the node, writes
    to its render group and goes wrong only on a group that is not there. *)
Lemma structure_mark_runs s n :
  (isRenderGroupRoot (container s n) = false ->
   forall g, renderGroup (container s n) = Some g -> is_Some (groups s !! g)) ->
  exists s1,
    match renderGroup (container s n) with
    | Some g =>
        if isRenderGroupRoot (container s n) then ret tt
        else modifyG g (RenderGroup.set_structureDidChange true)
    | None => ret tt
    end s = Ok tt s1
    /\ (forall m, container s1 m = container s m).
Proof.
  intros Hclosed.
  destruct (renderGroup (container s n)) as [g|] eqn:Hg; [|by exists s].
  destruct (isRenderGroupRoot (container s n)) eqn:Hroot; [by exists s|].
  destruct (Hclosed eq_refl g eq_refl) as [G HG].
  exists (update_group g (RenderGroup.set_structureDidChange true) s). split.
  - unfold modifyG, bind, getG, lift. by rewrite HG.
  - intros m. apply container_update_group.
Qed.

Lemma visible_bit_written x (value : bool) :
  negb (Z.land (Z.lor (Z.land x 1) (Z.shiftl (if value then 1 else 0) 1)) 2 =? 0) = value.
Proof.
  destruct (land_1_cases x) as [-> | ->]; destruct value; reflexivity.
Qed.

Lemma renderable_bit_written x (value : bool) :
  negb (Z.land (Z.lor (Z.land x 2) (if value then 1 else 0)) 1 =? 0) = value.
Proof.
  destruct (land_2_cases x) as [-> | ->]; destruct value; reflexivity.
Qed.

Lemma visible_guard x (value : bool) :
  (Z.shiftr (Z.land x 2) 1 =? (if value then 1 else 0)) = true
  <-> negb (Z.land x 2 =? 0) = value.
Proof.
  destruct (land_2_cases x) as [-> | ->]; destruct value; simpl; split; congruence.
Qed.

Lemma renderable_guard x (value : bool) :
  (Z.land x 1 =? (if value then 1 else 0)) = true
  <-> negb (Z.land x 1 =? 0) = value.
Proof.
  destruct (land_1_cases x) as [-> | ->]; destruct value; simpl; split; congruence.
Qed.

Lemma lor_flag_set x k : Z.land (Z.lor x k) k = k.
Proof.
  apply Z.bits_inj'. intros i Hi. rewrite Z.land_spec, Z.lor_spec.
  destruct (Z.testbit x i), (Z.testbit k i); reflexivity.
Qed.

(** X3. Reading [visible] after setting it gives the value set, on a node
    whose render group, if it is a member of one, is in the store.  Setting
    the value the node already has changes nothing; a change raises the
    UPDATE_VISIBLE flag, latches [didChange] and leaves the renderable bit
    alone. *)
Theorem visible_set_then_get s n value :
  (isRenderGroupRoot (container s n) = false ->
   forall g, renderGroup (container s n) = Some g -> is_Some (groups s !! g)) ->
  let s' := final (visible_set value n s) in
  visible (container s' n) = value
  /\ renderable (container s' n) = renderable (container s n)
  /\ (visible (container s n) = value -> visible_set value n s = Ok tt s)
  /\ (visible (container s n) <> value ->
      Z.land (_updateFlags (container s' n)) UPDATE_VISIBLE = UPDATE_VISIBLE
      /\ didChange (container s' n) = true).
Proof.
  intros Hclosed s'. subst s'.
  split; [|split; [apply (visible_set_keeps_renderable value n n _ s eq_refl)|]].
  - unfold visible_set. rewrite bind_getC.
    destruct (_ =? _) eqn:Hguard.
    + simpl. by apply visible_guard.
    + destruct (structure_mark_runs s n Hclosed) as (s1 & Hrun & Hsame).
      rewrite (final_bind_Ok _ _ _ _ _ Hrun), !bind_modify, container_onUpdate_None.
      rewrite !container_update_eq, Hsame. simpl. apply visible_bit_written.
  - unfold visible_set. rewrite bind_getC.
    destruct (_ =? _) eqn:Hguard.
    + split; [reflexivity|]. intros Hne. destruct Hne. by apply visible_guard.
    + split.
      { intros Hv. apply visible_guard in Hv. unfold visible in Hguard. congruence. }
      intros _.
      destruct (structure_mark_runs s n Hclosed) as (s1 & Hrun & Hsame).
      rewrite (final_bind_Ok _ _ _ _ _ Hrun), !bind_modify, container_onUpdate_None.
      rewrite !container_update_eq. simpl. split; [apply lor_flag_set|reflexivity].
Qed.

(** X4. Reading [renderable] after setting it gives the value set, whatever
    the store; setting the value the node already has changes nothing; a
    change raises the UPDATE_VISIBLE flag and leaves the visible bit alone,
    and latches [didChange] when the render group of the node is in the
    store. *)
Theorem renderable_set_then_get s n value :
  let s' := final (renderable_set value n s) in
  renderable (container s' n) = value
  /\ visible (container s' n) = visible (container s n)
  /\ (renderable (container s n) = value -> renderable_set value n s = Ok tt s)
  /\ (renderable (container s n) <> value ->
      Z.land (_updateFlags (container s' n)) UPDATE_VISIBLE = UPDATE_VISIBLE
      /\ ((isRenderGroupRoot (container s n) = false ->
           forall g, renderGroup (container s n) = Some g -> is_Some (groups s !! g)) ->
          didChange (container s' n) = true)).
Proof.
  intros s'. subst s'.
  assert (Hkept : forall (Q : Container -> Prop) (s0 : State),
             (forall c b, Q c -> Q (set_didChange b c)) ->
             Q (container s0 n) ->
             Q (container
                  (final
                     (bind
                        (match renderGroup (container s0 n) with
                         | Some g =>
                             if isRenderGroupRoot (container s0 n) then ret tt
                             else modifyG g (RenderGroup.set_structureDidChange true)
                         | None => ret tt
                         end) (fun _ => onUpdate None n) s0)) n)).
  { intros Q s0 HQ Hs0.
    assert (Hend : forall s1, (forall m, container s1 m = container s0 m) ->
                              Q (container (final (onUpdate None n s1)) n)).
    { intros s1 Hs1. rewrite container_onUpdate_None, Hs1. by apply HQ. }
    destruct (renderGroup (container s0 n)) as [g|]; [|by apply Hend].
    destruct (isRenderGroupRoot (container s0 n)); [by apply Hend|].
    unfold modifyG, bind at 1 2, getG, lift.
    destruct (groups s0 !! g); [|exact Hs0].
    apply Hend. intros m. apply container_update_group. }
  split; [|split; [apply (renderable_set_keeps_visible value n n _ s eq_refl)|]].
  - unfold renderable_set. rewrite bind_getC.
    destruct (_ =? _) eqn:Hguard.
    + simpl. by apply renderable_guard.
    + rewrite !bind_modify, bind_getC.
      apply (Hkept (fun c => renderable c = value)); [by intros [] ?|].
      rewrite !container_update_eq. simpl. apply renderable_bit_written.
  - unfold renderable_set. rewrite bind_getC.
    destruct (_ =? _) eqn:Hguard.
    + split; [reflexivity|]. intros Hne. destruct Hne. by apply renderable_guard.
    + split.
      { intros Hv. apply renderable_guard in Hv. unfold renderable in Hguard. congruence. }
      intros _. rewrite !bind_modify, bind_getC. split.
      * apply (Hkept (fun c => Z.land (_updateFlags c) UPDATE_VISIBLE = UPDATE_VISIBLE));
          [by intros [] ?|].
        rewrite !container_update_eq. simpl. apply lor_flag_set.
      * intros Hclosed.
        set (s2 := update n _ (update n _ s)).
        assert (Hs2 : forall m, isRenderGroupRoot (container s2 m)
                                = isRenderGroupRoot (container s m)
                                /\ renderGroup (container s2 m) = renderGroup (container s m)).
        { intros m. unfold s2. destruct (decide (n = m)) as [<-|Hm].
          - by rewrite !container_update_eq.
          - by rewrite !container_update_ne. }
        destruct (structure_mark_runs s2 n) as (s3 & Hrun & Hsame).
        { destruct (Hs2 n) as [-> ->]. exact Hclosed. }
        rewrite (final_bind_Ok _ _ _ _ _ Hrun), container_onUpdate_None. reflexivity.
Qed.

(** When the observable that changed is the node's own skew, [onUpdate]
    first refreshes the basis scalars. *)
Lemma onUpdate_own_skew n s skew :
  _skew (container s n) = Some skew ->
  onUpdate (Some (pt_id skew)) n s
  = onUpdate None n
      (update n
         (set_basis (num_cos (num_add (_rotation (container s n)) (_y skew)))
                    (num_sin (num_add (_rotation (container s n)) (_y skew)))
                    (num_neg (num_sin (num_sub (_rotation (container s n)) (_x skew))))
                    (num_cos (num_sub (_rotation (container s n)) (_x skew)))) s).
Proof.
  intros Hskew. unfold onUpdate at 1. unfold bind at 1. rewrite bind_getC, Hskew. simpl.
  rewrite decide_True by done.
  unfold _updateSkew. rewrite bind_getC, Hskew. unfold modify, lift. reflexivity.
Qed.

(** X5. [set alpha]: a value that is [===] to the current one changes
    nothing; any other value is stored as it is, the UPDATE_COLOR flag is
    raised, [didChange] is latched and the visibility bits are untouched. *)
Theorem alpha_set_stores strict_equal value s n :
  let s' := final (alpha_set strict_equal value n s) in
  (strict_equal value (alpha (container s n)) = true ->
   alpha_set strict_equal value n s = Ok tt s)
  /\ (strict_equal value (alpha (container s n)) = false ->
      alpha (container s' n) = value
      /\ _updateFlags (container s' n) = Z.lor (_updateFlags (container s n)) UPDATE_COLOR
      /\ didChange (container s' n) = true
      /\ localVisibleRenderable (container s' n) = localVisibleRenderable (container s n)).
Proof.
  intros s'. subst s'. unfold alpha_set, alpha. rewrite bind_getC.
  destruct (strict_equal value (localAlpha (container s n))); split; try done.
  intros _. rewrite !bind_modify, container_onUpdate_None, !container_update_eq.
  simpl. auto.
Qed.

(** X6. [set rotation]: a value that is [===] to the current one changes
    nothing; any other value is stored as it is and, on the way, the basis
    scalars are recomputed from it and the skew, so that they are current
    when the call ends; [didChange] is latched and no update flag is
    raised. *)
Theorem rotation_set_refreshes_basis strict_equal value s n :
  let s' := final (rotation_set strict_equal value n s) in
  (strict_equal (rotation (container s n)) value = true ->
   rotation_set strict_equal value n s = Ok tt s)
  /\ (strict_equal (rotation (container s n)) value = false ->
      rotation (container s' n) = value
      /\ basis_current (container s' n)
      /\ didChange (container s' n) = true
      /\ _updateFlags (container s' n) = _updateFlags (container s n)).
Proof.
  intros s'. subst s'. unfold rotation_set, rotation. rewrite bind_getC.
  destruct (strict_equal (_rotation (container s n)) value); split; try done.
  intros _. rewrite bind_modify, bind_getC, container_update_eq.
  destruct (_skew (container s n)) as [skew|] eqn:Hskew.
  - replace (pt_id <$> _skew (set_rotation value (container s n)))
      with (Some (pt_id skew)) by (simpl; by rewrite Hskew).
    rewrite onUpdate_own_skew by (rewrite container_update_eq; exact Hskew).
    rewrite container_onUpdate_None, !container_update_eq. simpl.
    split; [reflexivity|]. split; [|auto].
    intros skew'. simpl. rewrite Hskew. intros [= <-]. auto.
  - replace (pt_id <$> _skew (set_rotation value (container s n)))
      with (@None nat) by (simpl; by rewrite Hskew).
    rewrite container_onUpdate_None, !container_update_eq. simpl.
    split; [reflexivity|]. split; [|auto].
    intros skew'. simpl. rewrite Hskew. discriminate.
Qed.

(** ** The getters of the pivot, the skew and the scale *)

Ltac lazy_point field :=
  rewrite bind_getC;
  destruct (decide (pt_id <$> field = _)) as [Hshared|Hown];
  [ rewrite bind_modify, bind_getC, container_update_eq; simpl;
    eexists _, _; split; [reflexivity|];
    split; [simpl in *; congruence|];
    split; [intros fresh'; rewrite bind_getC, container_update_eq; simpl;
            rewrite decide_False by (simpl in *; congruence);
            unfold bind at 1, ret at 1; rewrite bind_getC, container_update_eq;
            reflexivity|];
    split; [intros m Hm; by rewrite container_update_ne|];
    split; [reflexivity|intros Hown; by destruct Hown]
  | unfold bind at 1, ret at 1; rewrite bind_getC;
    eexists _, _; split; [reflexivity|];
    split; [exact Hown|];
    split; [intros fresh'; rewrite bind_getC, decide_False by exact Hown;
            unfold bind at 1, ret at 1; rewrite bind_getC; reflexivity|];
    split; [reflexivity|];
    split; [intros Hdefault; destruct Hown; by rewrite Hdefault|done] ].

(** X7. The getters of [pivot], [skew] and [scale] never hand out the point
    all nodes share by default: a node that still holds the default gets a
    point of its own, with the coordinates of the default, and keeps it, so
    that a later read returns the same point and changes nothing; a node
    with a point of its own gets that point and nothing changes.  No other
    node is touched. *)
Theorem point_getters_give_own_point fresh s n :
  fresh <> pt_id defaultPivot -> fresh <> pt_id defaultSkew -> fresh <> pt_id defaultScale ->
  (exists p s',
      pivot_get fresh n s = Ok p s'
      /\ (pt_id <$> p) <> Some (pt_id defaultPivot)
      /\ (forall fresh', pivot_get fresh' n s' = Ok p s')
      /\ (forall m, m <> n -> container s' m = container s m)
      /\ (_pivot (container s n) = Some defaultPivot ->
          p = Some (mkPoint fresh (_x defaultPivot) (_y defaultPivot)))
      /\ ((pt_id <$> _pivot (container s n)) <> Some (pt_id defaultPivot) ->
          p = _pivot (container s n) /\ s' = s))
  /\ (exists p s',
      skew_get fresh n s = Ok p s'
      /\ (pt_id <$> p) <> Some (pt_id defaultSkew)
      /\ (forall fresh', skew_get fresh' n s' = Ok p s')
      /\ (forall m, m <> n -> container s' m = container s m)
      /\ (_skew (container s n) = Some defaultSkew ->
          p = Some (mkPoint fresh (_x defaultSkew) (_y defaultSkew)))
      /\ ((pt_id <$> _skew (container s n)) <> Some (pt_id defaultSkew) ->
          p = _skew (container s n) /\ s' = s))
  /\ (exists p s',
      scale_get fresh n s = Ok p s'
      /\ (pt_id <$> p) <> Some (pt_id defaultScale)
      /\ (forall fresh', scale_get fresh' n s' = Ok p s')
      /\ (forall m, m <> n -> container s' m = container s m)
      /\ (_scale (container s n) = Some defaultScale ->
          p = Some (mkPoint fresh (_x defaultScale) (_y defaultScale)))
      /\ ((pt_id <$> _scale (container s n)) <> Some (pt_id defaultScale) ->
          p = _scale (container s n) /\ s' = s)).
Proof.
  intros Hpivot Hskew Hscale. split; [|split].
  - unfold pivot_get. lazy_point (_pivot (container s n)).
  - unfold skew_get. lazy_point (_skew (container s n)).
  - unfold scale_get. lazy_point (_scale (container s n)).
Qed.

(** ** [addChild] and [removeChild] with several arguments *)

(** A loop whose turns cannot throw: [I done] relates the store to the
    elements the loop has been through. *)
Lemma forEach_loop {A} (f : A -> M unit) (I : list A -> State (R:=R) -> Prop) l :
  forall done,
    (forall seen x s,
        (exists rest, done ++ l = seen ++ x :: rest) ->
        I seen s -> exists s1, f x s = Ok tt s1 /\ I (seen ++ [x]) s1) ->
    forall s, I done s -> exists s', forEach f l s = Ok tt s' /\ I (done ++ l) s'.
Proof.
  induction l as [|x l IH]; intros done Hstep s HI.
  - exists s. by rewrite app_nil_r.
  - destruct (Hstep done x s) as (s1 & Hx & HI1); [by exists l|exact HI|].
    destruct (IH (done ++ [x])) with (s := s1) as (s' & Hrest & HI'); [|exact HI1|].
    { intros seen y s0 [rest Hsplit]. apply Hstep. exists rest.
      by rewrite <- Hsplit, <- app_assoc. }
    exists s'. split; [simpl; by rewrite (bind_Ok _ _ _ _ _ Hx)|].
    by rewrite <- app_assoc in HI'.
Qed.

(** [addChild] of a node that is not yet a child of [P] cannot throw; the
    node comes back marked as changed, with every update flag raised, and
    both sides are told, the container with the index of the last entry of
    its list. *)
Lemma addChild1_new_child P C s :
  parent (container s C) <> Some P ->
  exists s',
    addChild1 P C s = Ok C s'
    /\ didChange (container s' C) = true
    /\ didViewUpdate (container s' C) = false
    /\ _updateFlags (container s' C) = 15
    /\ EvAdded C P ∈ trace s'
    /\ EvChildAdded P C P (Z.of_nat (length (children (container s' P))) - 1) ∈ trace s'.
Proof.
  intros Hother. unfold addChild1.
  destruct (deprecation_check_runs P s) as (s0 & Hrun0 & Hs0).
  rewrite (bind_Ok _ _ _ _ _ Hrun0), bind_getC, Hs0.
  rewrite decide_False by exact Hother.
  assert (Hdetach : exists s1,
             (match parent (container s C) with
              | Some p => bind (removeChild1 p C) (fun _ => ret tt)
              | None => ret tt
              end) s0 = Ok tt s1).
  { destruct (parent (container s C)) as [Q|]; [|by exists s0].
    destruct (returns_removeChild1 Q C s0) as (r & Hr).
    eexists. by rewrite (bind_Ok _ _ _ _ _ Hr). }
  destruct Hdetach as (s1 & Hrun1).
  rewrite (bind_Ok _ _ _ _ _ Hrun1), bind_modify, bind_getC.
  set (s2 := update P _ s1).
  assert (Hsort : exists s3,
             (if sortableChildren (container s2 P) then modify P (set_sortDirty true)
              else ret tt) s2 = Ok tt s3).
  { destruct (sortableChildren (container s2 P)); by eexists. }
  destruct Hsort as (s3 & Hrun3).
  rewrite (bind_Ok _ _ _ _ _ Hrun3), !bind_modify, bind_getC.
  set (s7 := update C (set_updateFlags 15) _).
  assert (Hs7 : didChange (container s7 C) = true
                /\ didViewUpdate (container s7 C) = false
                /\ _updateFlags (container s7 C) = 15).
  { subst s7. by rewrite !container_update_eq. }
  assert (Hgroup : exists s8,
             (match renderGroup (container s7 P) with
              | Some g => lift (RenderGroup_addChild g C)
              | None => ret tt
              end) s7 = Ok tt s8
             /\ didChange (container s8 C) = true
             /\ didViewUpdate (container s8 C) = false
             /\ _updateFlags (container s8 C) = 15).
  { destruct (renderGroup (container s7 P)) as [g|]; [|by exists s7].
    eexists. split; [reflexivity|].
    unfold RenderGroup_addChild, RenderGroup_addRenderGroupChild.
    destruct (group_owned_by _ C) as [own|].
    - destruct (groups _ !! own) as [G|]; [destruct (RenderGroup.renderGroupParent G)|];
        by rewrite ?container_update_group.
    - by rewrite !container_update_group, container_update_eq. }
  destruct Hgroup as (s8 & Hrun8 & Hs8).
  rewrite (bind_Ok _ _ _ _ _ Hrun8), bind_getC, !bind_emit, bind_getC.
  destruct (decide (_zIndex _ = 0)).
  - eexists. split; [reflexivity|]. rewrite !container_log. simpl.
    destruct Hs8 as (-> & -> & ->). repeat (split; [reflexivity|]).
    split; [left|right; left].
  - eexists. split; [reflexivity|]. unfold depthOfChildModified.
    rewrite !container_log. simpl.
    destruct Hs8 as (-> & -> & ->). repeat (split; [reflexivity|]).
    split; [right; left|right; right; left].
Qed.

Lemma addChild1_parent P C s m :
  parent (container (final (addChild1 P C s)) m)
  = if decide (m = C) then Some P else parent (container s m).
Proof.
  pose proof (addChild1_links P C s m) as Hlinks. cbv zeta in Hlinks.
  destruct (decide (parent (container s C) = Some P)) as [Hchild|Hother].
  - destruct Hlinks as [-> _]. by destruct (decide (m = C)) as [->|].
  - by destruct Hlinks as [-> _].
Qed.

Lemma links_only_containers s s' :
  (forall m, container s' m = container s m) ->
  linked s /\ tidy s -> linked s' /\ tidy s'.
Proof.
  intros Hsame [Hlinked Htidy]. split.
  - intros p n. rewrite !Hsame. apply Hlinked.
  - intros p. rewrite Hsame. apply Htidy.
Qed.

(** X8. [addChild], with any number of arguments, keeps the two sides of
    the parent-child link in agreement and every list of children free of
    duplicates, in whatever store the call ends, returned or thrown. *)
Theorem addChild_variadic_keeps_links P cs s :
  linked s -> tidy s ->
  linked (final (addChild P cs s)) /\ tidy (final (addChild P cs s)).
Proof.
  intros Hlinked Htidy.
  assert (Hone : forall C, preserves (fun s => linked s /\ tidy s) (addChild1 P C)).
  { intros C s0 [Hl Ht]. destruct (addChild_keeps_link P C s0 Hl Ht) as (? & ? & _).
    by split. }
  assert (Hcheck : preserves (fun s => linked s /\ tidy s) (deprecation_check P)).
  { intros s0 Hs0. destruct (deprecation_check_runs P s0) as (s1 & Hrun & Hsame).
    rewrite Hrun. simpl. by apply (links_only_containers s0). }
  assert (Hall : preserves (fun s => linked s /\ tidy s) (addChild P cs)).
  { unfold addChild. destruct cs as [|C [|C' cs]].
    - apply preserves_bind; [exact Hcheck|]. intros _. apply preserves_throw.
    - apply Hone.
    - apply preserves_bind; [exact Hcheck|]. intros _.
      apply preserves_bind; [|intros _; apply preserves_ret].
      apply preserves_forEach. intros C0.
      apply preserves_bind; [apply Hone|]. intros _. apply preserves_ret. }
  by apply Hall.
Qed.

(** X9. [addChild] with several nodes, no two the same and none of them a
    child of [P] yet, cannot throw: it returns the first argument, [P]'s
    list of children is the old list followed by the arguments in the
    order given, each argument has [P] as its parent and the parent of no
    other node changes. *)
Theorem addChild_appends_in_order P cs s first :
  head cs = Some first ->
  NoDup cs ->
  (forall C, C ∈ cs -> parent (container s C) <> Some P) ->
  exists s',
    addChild P cs s = Ok first s'
    /\ children (container s' P) = children (container s P) ++ cs
    /\ (forall C, C ∈ cs -> parent (container s' C) = Some P)
    /\ (forall m, m ∉ cs -> parent (container s' m) = parent (container s m)).
Proof.
  intros Hfirst Hnodup Hnew.
  set (I := fun (seen : list nid) (s' : State (R:=R)) =>
              children (container s' P) = children (container s P) ++ seen
              /\ forall m, parent (container s' m)
                           = if decide (m ∈ seen) then Some P else parent (container s m)).
  assert (Hstep : forall seen C s0,
             (exists rest, cs = seen ++ C :: rest) ->
             I seen s0 ->
             exists s1, addChild1 P C s0 = Ok C s1 /\ I (seen ++ [C]) s1).
  { intros seen C s0 [rest Hsplit] [Hkids Hpar].
    assert (HC : C ∈ cs) by (rewrite Hsplit, elem_of_app, elem_of_cons; auto).
    assert (Hfresh : C ∉ seen).
    { rewrite Hsplit in Hnodup. apply NoDup_app in Hnodup as (_ & Hdisj & _).
      intros Hin. apply (Hdisj C Hin). by left. }
    assert (Hother : parent (container s0 C) <> Some P).
    { rewrite Hpar, decide_False by exact Hfresh. by apply Hnew. }
    destruct (addChild1_new_child P C s0 Hother) as (s1 & Hrun & _).
    exists s1. split; [exact Hrun|].
    assert (Hs1 : s1 = final (addChild1 P C s0)) by (by rewrite Hrun).
    split.
    - pose proof (addChild1_links P C s0 P) as Hlinks. cbv zeta in Hlinks.
      rewrite decide_False in Hlinks by exact Hother.
      destruct Hlinks as [_ Hlinks]. rewrite decide_True in Hlinks by done.
      rewrite Hs1, Hlinks, app_assoc, <- Hkids. f_equal.
      unfold detached. destruct (parent (container s0 C)) as [Q|]; [|done].
      rewrite decide_False; [done|congruence].
    - intros m. rewrite Hs1, addChild1_parent, Hpar.
      destruct (decide (m = C)) as [->|Hm].
      + rewrite decide_True; [done|]. rewrite elem_of_app, list_elem_of_singleton. auto.
      + destruct (decide (m ∈ seen)) as [Hin|Hout].
        * rewrite decide_True; [done|]. rewrite elem_of_app. auto.
        * rewrite decide_False; [done|].
          rewrite elem_of_app, list_elem_of_singleton. tauto. }
  assert (Hend : forall s', I cs s' ->
                            children (container s' P) = children (container s P) ++ cs
                            /\ (forall C, C ∈ cs -> parent (container s' C) = Some P)
                            /\ (forall m, m ∉ cs ->
                                          parent (container s' m) = parent (container s m))).
  { intros s' [Hkids Hpar]. split; [exact Hkids|]. split.
    - intros C HC. by rewrite Hpar, decide_True.
    - intros m Hm. by rewrite Hpar, decide_False. }
  unfold addChild. destruct cs as [|C [|C' cs']]; [discriminate| |];
    injection Hfirst as <-.
  - destruct (Hstep [] C s) as (s1 & Hrun & HI).
    + by exists [].
    + split; [by rewrite app_nil_r|]. intros m. by rewrite decide_False by apply not_elem_of_nil.
    + exists s1. split; [exact Hrun|]. by apply Hend.
  - destruct (deprecation_check_runs P s) as (s0 & Hrun0 & Hs0).
    rewrite (bind_Ok _ _ _ _ _ Hrun0).
    destruct (forEach_loop (fun child => bind (addChild1 P child) (fun _ => ret tt)) I
                (C :: C' :: cs') []) with (s := s0) as (s' & Hrun & HI).
    + intros seen x s1 Hsplit HI.
      destruct (Hstep seen x s1 Hsplit HI) as (s2 & Hrun & HI2).
      exists s2. split; [by rewrite (bind_Ok _ _ _ _ _ Hrun)|exact HI2].
    + split; [by rewrite app_nil_r, Hs0|]. intros m.
      by rewrite Hs0, decide_False by apply not_elem_of_nil.
    + exists s'. split; [by rewrite (bind_Ok _ _ _ _ _ Hrun)|]. by apply Hend.
Qed.

(** X10. [addChild] of a single node that is not yet a child of [P] cannot
    throw: the node is returned, it is the last entry of [P]'s list, it is
    marked as changed with its view not yet updated and every update flag
    raised, and both sides are notified, the container with the index of
    the last entry of its list. *)
Theorem addChild_new_child P C s :
  parent (container s C) <> Some P ->
  exists s',
    addChild P [C] s = Ok C s'
    /\ parent (container s' C) = Some P
    /\ last (children (container s' P)) = Some C
    /\ didChange (container s' C) = true
    /\ didViewUpdate (container s' C) = false
    /\ _updateFlags (container s' C) = 15
    /\ EvAdded C P ∈ trace s'
    /\ EvChildAdded P C P (Z.of_nat (length (children (container s' P))) - 1) ∈ trace s'.
Proof.
  intros Hother. change (addChild P [C] s) with (addChild1 P C s).
  destruct (addChild1_new_child P C s Hother) as (s' & Hrun & Hflags).
  exists s'. split; [exact Hrun|].
  assert (Hs' : s' = final (addChild1 P C s)) by (by rewrite Hrun).
  split; [by rewrite Hs', addChild1_parent, decide_True|].
  split; [|exact Hflags].
  pose proof (addChild1_links P C s P) as Hlinks. cbv zeta in Hlinks.
  rewrite decide_False in Hlinks by exact Hother.
  destruct Hlinks as [_ Hlinks]. rewrite decide_True in Hlinks by done.
  rewrite Hs', Hlinks. apply last_snoc.
Qed.

(** [removeChild] with one argument cannot throw, returns its argument and
    tells both sides, the container with the index [indexOf] gave. *)
Lemma removeChild1_runs P C s :
  removeChild1 P C s = Ok C (final (removeChild1 P C s))
  /\ trace (final (removeChild1 P C s))
     = EvRemoved C P
       :: EvChildRemoved P C P (indexOf C (children (container s P))) :: trace s.
Proof.
  unfold removeChild1, bind, getC, modify, emit, lift, ret.
  destruct (indexOf C (children (container s P)) >? -1); simpl; [|done].
  rewrite container_update_eq. simpl.
  destruct (renderGroup (container s P)); simpl; [|done].
  by rewrite trace_removeChild.
Qed.

(** Removing a node from the container that holds it, or a node that no
    container holds, keeps the link. *)
Lemma removeChild1_keeps_links P C s :
  linked s -> tidy s ->
  parent (container s C) = Some P \/ parent (container s C) = None ->
  linked (final (removeChild1 P C s)) /\ tidy (final (removeChild1 P C s)).
Proof.
  intros Hlinked Htidy Hmine.
  destruct (remove_item_spec C _ (Htidy P)) as [Hnd Hmem].
  split.
  - intros p n.
    destruct (removeChild1_links P C s n) as [-> _].
    destruct (removeChild1_links P C s p) as [_ ->].
    destruct (decide (n = C)) as [->|Hn]; destruct (decide (p = P)) as [->|Hp].
    + split; [|done]. intros HC. apply Hmem in HC. tauto.
    + split; [|done]. intros HC. apply Hlinked in HC.
      destruct Hmine as [Hmine|Hmine]; congruence.
    + split.
      * intros Hn'. apply Hmem in Hn' as [Hn' _]. by apply Hlinked.
      * intros Hn'. apply Hmem. split; [by apply Hlinked|done].
    + apply Hlinked.
  - intros p. destruct (removeChild1_links P C s p) as [_ ->].
    destruct (decide (p = P)); [done|apply Htidy].
Qed.

(** X11. [removeChild] with any number of arguments, each a child of [P]
    or a node without a parent (an argument may be given twice), cannot
    throw: it returns the first argument, every argument ends without a
    parent and outside [P]'s list, the other entries of the list stay, no
    other list and no other parent pointer changes, and the two sides of
    the parent-child link still agree. *)
Theorem removeChild_detaches_each P cs s first :
  head cs = Some first ->
  linked s -> tidy s ->
  (forall C, C ∈ cs -> parent (container s C) = Some P \/ parent (container s C) = None) ->
  exists s',
    removeChild P cs s = Ok first s'
    /\ linked s' /\ tidy s'
    /\ (forall C, C ∈ cs -> parent (container s' C) = None /\ C ∉ children (container s' P))
    /\ (forall y, y ∈ children (container s' P) <-> y ∈ children (container s P) /\ y ∉ cs)
    /\ (forall m, m ∉ cs -> parent (container s' m) = parent (container s m))
    /\ (forall m, m <> P -> children (container s' m) = children (container s m)).
Proof.
  intros Hfirst Hlinked Htidy Hmine.
  set (I := fun (seen : list nid) (s' : State (R:=R)) =>
              linked s' /\ tidy s'
              /\ (forall m, parent (container s' m)
                            = if decide (m ∈ seen) then None else parent (container s m))
              /\ (forall y, y ∈ children (container s' P)
                            <-> y ∈ children (container s P) /\ y ∉ seen)
              /\ (forall m, m <> P -> children (container s' m) = children (container s m))).
  assert (Hstart : I [] s).
  { split; [exact Hlinked|]. split; [exact Htidy|]. split; [|split; [|done]].
    - intros m. by rewrite decide_False by apply not_elem_of_nil.
    - intros y. split; [|tauto]. intros Hy. split; [exact Hy|apply not_elem_of_nil]. }
  assert (Hstep : forall seen C s0,
             (exists rest, cs = seen ++ C :: rest) ->
             I seen s0 ->
             exists s1, removeChild1 P C s0 = Ok C s1 /\ I (seen ++ [C]) s1).
  { intros seen C s0 [rest Hsplit] (Hl0 & Ht0 & Hpar & Hkids & Hrest).
    assert (HC : C ∈ cs) by (rewrite Hsplit, elem_of_app, elem_of_cons; auto).
    assert (Hmine0 : parent (container s0 C) = Some P \/ parent (container s0 C) = None).
    { rewrite Hpar. destruct (decide (C ∈ seen)); [by right|by apply Hmine]. }
    destruct (removeChild1_runs P C s0) as [Hrun _].
    destruct (removeChild1_keeps_links P C s0 Hl0 Ht0 Hmine0) as [Hl1 Ht1].
    destruct (remove_item_spec C _ (Ht0 P)) as [_ Hmem].
    eexists. split; [exact Hrun|].
    split; [exact Hl1|]. split; [exact Ht1|]. split; [|split].
    - intros m. destruct (removeChild1_links P C s0 m) as [-> _]. rewrite Hpar.
      destruct (decide (m = C)) as [->|Hm].
      + rewrite decide_True; [done|]. rewrite elem_of_app, list_elem_of_singleton. auto.
      + destruct (decide (m ∈ seen)) as [Hin|Hout].
        * rewrite decide_True; [done|]. rewrite elem_of_app. auto.
        * rewrite decide_False; [done|].
          rewrite elem_of_app, list_elem_of_singleton. tauto.
    - intros y. destruct (removeChild1_links P C s0 P) as [_ ->].
      rewrite decide_True by done.
      rewrite Hmem, Hkids, elem_of_app, list_elem_of_singleton. tauto.
    - intros m Hm. destruct (removeChild1_links P C s0 m) as [_ ->].
      rewrite decide_False by done. by apply Hrest. }
  assert (Hend : forall s', I cs s' ->
             linked s' /\ tidy s'
             /\ (forall C, C ∈ cs ->
                           parent (container s' C) = None /\ C ∉ children (container s' P))
             /\ (forall y, y ∈ children (container s' P)
                           <-> y ∈ children (container s P) /\ y ∉ cs)
             /\ (forall m, m ∉ cs -> parent (container s' m) = parent (container s m))
             /\ (forall m, m <> P -> children (container s' m) = children (container s m))).
  { intros s' (Hl & Ht & Hpar & Hkids & Hrest).
    split; [exact Hl|]. split; [exact Ht|]. split; [|split; [exact Hkids|split]].
    - intros C HC. split; [by rewrite Hpar, decide_True|].
      rewrite Hkids. tauto.
    - intros m Hm. by rewrite Hpar, decide_False.
    - exact Hrest. }
  unfold removeChild. destruct cs as [|C [|C' cs']]; [discriminate| |];
    injection Hfirst as <-.
  - destruct (Hstep [] C s) as (s1 & Hrun & HI); [by exists []|exact Hstart|].
    exists s1. split; [exact Hrun|]. by apply Hend.
  - destruct (forEach_loop (fun child => bind (removeChild1 P child) (fun _ => ret tt)) I
                (C :: C' :: cs') []) with (s := s) as (s' & Hrun & HI).
    + intros seen x s1 Hsplit HI.
      destruct (Hstep seen x s1 Hsplit HI) as (s2 & Hrun & HI2).
      exists s2. split; [by rewrite (bind_Ok _ _ _ _ _ Hrun)|exact HI2].
    + exact Hstart.
    + exists s'. split; [by rewrite (bind_Ok _ _ _ _ _ Hrun)|]. by apply Hend.
Qed.

(** X12. [removeChild] of a node [P] holds takes out the first occurrence
    of the node and nothing else: the list loses the entry at that index,
    the node loses its parent, the [childRemoved] event carries that index,
    and no other list and no other parent pointer changes. *)
Theorem removeChild_found_child P C s :
  C ∈ children (container s P) ->
  exists (i : nat) s',
    removeChild P [C] s = Ok C s'
    /\ children (container s P) !! i = Some C
    /\ (forall j y, children (container s P) !! j = Some y -> (j < i)%nat -> y <> C)
    /\ children (container s' P) = delete i (children (container s P))
    /\ parent (container s' C) = None
    /\ trace s' = EvRemoved C P :: EvChildRemoved P C P (Z.of_nat i) :: trace s
    /\ (forall m, m <> P -> children (container s' m) = children (container s m))
    /\ (forall m, m <> C -> parent (container s' m) = parent (container s m)).
Proof.
  intros Hin. change (removeChild P [C] s) with (removeChild1 P C s).
  destruct (indexOf_elem C _ Hin) as (i & Hindex & Hat & Hfirst).
  destruct (removeChild1_runs P C s) as [Hrun Htrace].
  exists i, (final (removeChild1 P C s)).
  split; [exact Hrun|]. split; [exact Hat|]. split; [exact Hfirst|].
  split; [|split; [|split; [|split]]].
  - destruct (removeChild1_links P C s P) as [_ ->]. rewrite decide_True by done.
    unfold remove_item. rewrite Hindex.
    replace (Z.of_nat i >? -1) with true by (symmetry; apply Z.gtb_lt; lia).
    apply splice1_at. by apply lookup_lt_Some in Hat.
  - destruct (removeChild1_links P C s C) as [-> _]. by rewrite decide_True.
  - by rewrite Htrace, Hindex.
  - intros m Hm. destruct (removeChild1_links P C s m) as [_ ->].
    by rewrite decide_False.
  - intros m Hm. destruct (removeChild1_links P C s m) as [-> _].
    by rewrite decide_False.
Qed.

(** ** Promotion to a render group *)

Lemma bind_Ok_inv {A B} (m : M A) (k : A -> M B) s b s' :
  bind m k s = Ok b s' -> exists a s1, m s = Ok a s1 /\ k a s1 = Ok b s'.
Proof.
  unfold bind. destruct (m s) as [a s1|]; [|discriminate]. intros Hk. by exists a, s1.
Qed.

Lemma group_owned_by_addRenderGroupChild g child s m :
  group_owned_by (RenderGroup_addRenderGroupChild g child s) m = group_owned_by s m.
Proof.
  unfold RenderGroup_addRenderGroupChild.
  rewrite !group_owned_by_update_group by done.
  destruct (groups s !! child) as [G|]; [|done].
  destruct (RenderGroup.renderGroupParent G); [|done].
  by rewrite group_owned_by_update_group.
Qed.

Lemma container_addRenderGroupChild g child s m :
  container (RenderGroup_addRenderGroupChild g child s) m = container s m.
Proof.
  unfold RenderGroup_addRenderGroupChild. rewrite !container_update_group.
  destruct (groups s !! child) as [G|]; [|done].
  destruct (RenderGroup.renderGroupParent G); [|done].
  by rewrite container_update_group.
Qed.

Lemma promoted_walk_to n g fuel this start : preserves (promoted n g) (walk_to fuel this start).
Proof.
  revert start. induction fuel as [|k IH]; intros start; simpl.
  - apply preserves_throw.
  - destruct start as [p|]; [|apply preserves_ret].
    destruct (decide (p = this)); [apply preserves_ret|].
    apply preserves_bind; [apply preserves_getC|]. intros c0. apply IH.
Qed.

Lemma promoted_addRenderGroupChild n g g1 g2 s :
  promoted n g s -> promoted n g (RenderGroup_addRenderGroupChild g1 g2 s).
Proof.
  intros [Hown Hroot]. split.
  - by rewrite group_owned_by_addRenderGroupChild.
  - by rewrite container_addRenderGroupChild.
Qed.

Lemma promoted_rehome n g fuel walk_fuel this pg i :
  preserves (promoted n g) (rehome fuel walk_fuel this pg i).
Proof.
  revert i. induction fuel as [|k IH]; intros i; simpl.
  - apply preserves_throw.
  - apply preserves_bind; [apply preserves_getG|]. intros PG.
    destruct (RenderGroup.renderGroupChildren PG !! i) as [childRenderGroup|];
      [|apply preserves_ret].
    apply preserves_bind; [apply preserves_getG|]. intros CG.
    apply preserves_bind; [apply promoted_walk_to|]. intros found.
    apply preserves_bind; [|intros _; apply IH].
    destruct found; [|apply preserves_ret].
    apply preserves_bind; [apply preserves_getC|]. intros c0.
    destruct (renderGroup c0); [|apply preserves_throw].
    apply preserves_lift. intros s0. apply promoted_addRenderGroupChild.
Qed.

(** X13. A call of [enableRenderGroup] that returns leaves the node
    holding a render group it is the root of, and a further call, with any
    fuel, changes nothing.  If the node was not the root of its group
    before, it is now flagged as a render-group root and as not simple, and
    an attempt to switch the flag off throws. *)
Theorem enableRenderGroup_makes_owner fuel s n s' :
  enableRenderGroup fuel n s = Ok tt s' ->
  is_Some (group_owned_by s' n)
  /\ (forall fuel', enableRenderGroup fuel' n s' = Ok tt s')
  /\ (group_owned_by s n = None ->
      isRenderGroupRoot (container s' n) = true
      /\ isSimple (container s' n) = false
      /\ forall fuel', isRenderGroup_set fuel' false n s' = Throw UnsupportedOperation s').
Proof.
  intros Hrun.
  assert (Hagain : forall g, group_owned_by s' n = Some g ->
                             forall fuel', enableRenderGroup fuel' n s' = Ok tt s').
  { intros g Hown fuel'. unfold group_owned_by in Hown.
    destruct (renderGroup (container s' n)) as [g'|] eqn:Hg; [|discriminate].
    destruct (groups s' !! g') as [G|] eqn:HG; [|discriminate].
    destruct (decide (RenderGroup.root G = n)) as [Hroot|]; [|discriminate].
    by apply (enableRenderGroup_owner_noop fuel' s' n g' G). }
  unfold enableRenderGroup in Hrun. rewrite bind_getC in Hrun.
  apply bind_Ok_inv in Hrun as (owns & s0 & Howns & Hrun).
  assert (Hguard : s0 = s /\ (owns = true -> is_Some (group_owned_by s n))
                   /\ (owns = false -> group_owned_by s n = None)).
  { unfold group_owned_by.
    destruct (renderGroup (container s n)) as [g|].
    - unfold bind, getG, ret in Howns. destruct (groups s !! g) as [G|]; [|discriminate].
      injection Howns as <- <-. split; [done|].
      destruct (decide (RenderGroup.root G = n)).
      + rewrite bool_decide_eq_true_2 by done. split; [by eexists|done].
      + rewrite bool_decide_eq_false_2 by done. split; done.
    - unfold ret in Howns. injection Howns as <- <-. split; [done|]. split; done. }
  destruct Hguard as (-> & Hyes & Hno).
  destruct owns.
  - unfold ret in Hrun. injection Hrun as <-.
    destruct (Hyes eq_refl) as [g Hown].
    split; [by exists g|]. split; [by apply (Hagain g)|].
    intros Hnone. congruence.
  - clear Hyes Howns.
    rewrite bind_modify in Hrun.
    set (s1 := update n (set_isRenderGroupRoot true) s) in Hrun.
    apply bind_Ok_inv in Hrun as ([] & s2 & Hleave & Hrun).
    assert (Hs2 : isRenderGroupRoot (container s2 n) = true).
    { destruct (renderGroup (container s n)) as [pg|].
      - injection Hleave as <-.
        destruct (container_removeChild_fields pg n s1 n) as (_ & -> & _).
        subst s1. by rewrite container_update_eq.
      - injection Hleave as <-. subst s1. by rewrite container_update_eq. }
    unfold bind at 1, RenderGroup_new at 1 in Hrun. rewrite bind_modify in Hrun.
    set (g := next_group s2) in Hrun.
    set (s4 := update n (set_renderGroup (Some g)) _) in Hrun.
    assert (Hs4 : promoted n g s4).
    { split.
      - unfold group_owned_by. subst s4. rewrite container_update_eq. simpl.
        rewrite lookup_insert_eq. simpl. by rewrite decide_True.
      - subst s4. rewrite container_update_eq. simpl. exact Hs2. }
    apply bind_Ok_inv in Hrun as ([] & s5 & Hmiddle & Hlast).
    assert (Hs5 : promoted n g s5).
    { replace s5 with (final ((match renderGroup (container s n) with
                                | Some pg =>
                                    bind (rehome fuel fuel n pg 0%nat)
                                      (fun _ => bind (getC n)
                                         (fun c0 => match renderGroup c0 with
                                                    | Some g0 =>
                                                        lift (RenderGroup_addRenderGroupChild
                                                                pg g0)
                                                    | None => throw TypeError
                                                    end))
                                | None => ret tt
                                end) s4)) by (by rewrite Hmiddle).
      assert (Hkeeps : preserves (promoted n g)
                         (match renderGroup (container s n) with
                          | Some pg =>
                              bind (rehome fuel fuel n pg 0%nat)
                                (fun _ => bind (getC n)
                                   (fun c0 => match renderGroup c0 with
                                              | Some g0 =>
                                                  lift (RenderGroup_addRenderGroupChild pg g0)
                                              | None => throw TypeError
                                              end))
                          | None => ret tt
                          end)); [|by apply Hkeeps].
      destruct (renderGroup (container s n)) as [pg|]; [|apply preserves_ret].
      apply preserves_bind; [apply promoted_rehome|]. intros _.
      apply preserves_bind; [apply preserves_getC|]. intros c0.
      destruct (renderGroup c0); [|apply preserves_throw].
      apply preserves_lift. intros s6. apply promoted_addRenderGroupChild. }
    destruct Hs5 as [Hown5 Hroot5].
    unfold _updateIsSimple in Hlast. rewrite bind_getC, Hroot5 in Hlast.
    injection Hlast as <-.
    assert (Hown' : group_owned_by (update n (set_isSimple false) s5) n = Some g)
      by (by rewrite group_owned_by_update).
    split; [by exists g|]. split; [by apply (Hagain g)|].
    intros _. rewrite container_update_eq. simpl.
    split; [exact Hroot5|]. split; [reflexivity|].
    intros fuel'. unfold isRenderGroup_set. rewrite bind_getC, container_update_eq.
    simpl. by rewrite Hroot5.
Qed.


(** ** What [destroy] never does *)

Lemma dwindled_refl s : dwindled s s.
Proof. intros m. split; [done|]. split; [by left|]. repeat split; done. Qed.

Lemma dwindled_trans s1 s2 s3 : dwindled s1 s2 -> dwindled s2 s3 -> dwindled s1 s3.
Proof.
  intros H12 H23 m.
  destruct (H12 m) as (Hk1 & Hp1 & Hd1 & Hr1 & Ha1 & Hb1 & Hc1 & He1 & Hf1 & Hg1 & Hh1).
  destruct (H23 m) as (Hk2 & Hp2 & Hd2 & Hr2 & Ha2 & Hb2 & Hc2 & He2 & Hf2 & Hg2 & Hh2).
  split; [by etransitivity|].
  split; [destruct Hp2 as [-> | ->]; [exact Hp1|by right]|].
  split; [auto|]. split; [congruence|].
  repeat split; auto.
Qed.

Lemma dwindled_same s s' : (forall m, container s' m = container s m) -> dwindled s s'.
Proof. intros Hsame m. rewrite Hsame. apply dwindled_refl. Qed.

Lemma dwindled_update n f s :
  (forall c, sublist (children (f c)) (children c)) ->
  (forall c, parent (f c) = parent c \/ parent (f c) = None) ->
  (forall c, destroyed c = true -> destroyed (f c) = true) ->
  (forall c, isRenderGroupRoot (f c) = isRenderGroupRoot c) ->
  (forall c, (_position c = None -> _position (f c) = None)
             /\ (_scale c = None -> _scale (f c) = None)
             /\ (_pivot c = None -> _pivot (f c) = None)
             /\ (_skew c = None -> _skew (f c) = None)
             /\ (effects c = None -> effects (f c) = None)
             /\ (_mask c = None -> _mask (f c) = None)
             /\ (_filters c = None -> _filters (f c) = None)) ->
  dwindled s (update n f s).
Proof.
  intros Hk Hp Hd Hr Hrefs m. rewrite container_update.
  destruct (decide (n = m)) as [->|]; [|apply dwindled_refl].
  split; [apply Hk|]. split; [apply Hp|]. split; [apply Hd|]. split; [apply Hr|].
  apply Hrefs.
Qed.

Lemma dwindled_removeChild g child s : dwindled s (RenderGroup_removeChild g child s).
Proof.
  unfold RenderGroup_removeChild.
  set (s1 := update_group g _ s).
  assert (H1 : dwindled s s1) by (apply dwindled_same; intros m; apply container_update_group).
  destruct (group_owned_by s1 child).
  - apply dwindled_same. intros m. by rewrite !container_update_group.
  - eapply dwindled_trans; [exact H1|]. apply dwindled_update; intros; simpl; auto.
    repeat split; auto.
Qed.

Lemma sublist_splice1 (i : Z) (l : list nat) : sublist (splice1 i l) l.
Proof. unfold splice1. apply sublist_delete. Qed.

Ltac dwindled_leaf :=
  let s' := fresh "s" in
  let Hs' := fresh "Hdwindled" in
  intros s' Hs'; eapply dwindled_trans; [exact Hs'|];
  first [ apply dwindled_same; intros ?; by rewrite ?container_log, ?container_update_group
        | apply dwindled_removeChild
        | apply dwindled_update; intros; simpl;
          auto using sublist_splice1, sublist_nil_l; repeat split; auto ].

Lemma dwindled_removeChild1 s0 p child : preserves (dwindled s0) (removeChild1 p child).
Proof. unfold removeChild1. repeat preserve_step; dwindled_leaf. Qed.

Lemma dwindled_removeFromParent s0 this : preserves (dwindled s0) (removeFromParent this).
Proof.
  unfold removeFromParent. repeat preserve_step; try apply dwindled_removeChild1.
Qed.

Lemma dwindled_removeChildren s0 this : preserves (dwindled s0) (removeChildren this).
Proof. unfold removeChildren. repeat preserve_step; dwindled_leaf. Qed.

Lemma dwindled_destroy fuel options :
  forall n s0, preserves (dwindled s0) (destroy fuel options n).
Proof.
  induction fuel as [|k IH]; intros n s0; simpl; [apply preserves_throw|].
  apply preserves_bind; [apply preserves_getC|]. intros c0.
  destruct (destroyed c0); [apply preserves_ret|].
  apply preserves_bind; [apply preserves_lift; dwindled_leaf|]. intros _.
  apply preserves_bind; [apply dwindled_removeFromParent|]. intros _.
  apply preserves_bind; [apply preserves_lift; dwindled_leaf|]. intros _.
  apply preserves_bind; [apply preserves_getC|]. intros c1.
  apply preserves_bind; [repeat preserve_step; dwindled_leaf|]. intros _.
  apply preserves_bind; [apply preserves_lift; dwindled_leaf|]. intros _.
  apply preserves_bind; [apply preserves_lift; dwindled_leaf|]. intros _.
  apply preserves_bind; [apply dwindled_removeChildren|]. intros old.
  apply preserves_bind.
  { destruct (destroyChildren options); [|apply preserves_ret].
    apply preserves_forEach. intros child. apply IH. }
  intros _. repeat preserve_step; dwindled_leaf.
Qed.

(** X15. [destroy] only takes things apart, in whatever store it ends,
    returned, thrown or out of fuel: the list of children of every node is
    a sublist of what it was, a parent pointer is what it was or null, no
    destroyed node comes back, and a node keeps its render-group rank. *)
Theorem destroy_only_takes_apart fuel options n s m :
  let s' := final (destroy fuel options n s) in
  sublist (children (container s' m)) (children (container s m))
  /\ (parent (container s' m) = parent (container s m) \/ parent (container s' m) = None)
  /\ (destroyed (container s m) = true -> destroyed (container s' m) = true)
  /\ isRenderGroupRoot (container s' m) = isRenderGroupRoot (container s m).
Proof.
  intros s'.
  destruct (dwindled_destroy fuel options n s s (dwindled_refl s) m)
    as (Hk & Hp & Hd & Hr & _).
  auto.
Qed.

(** X16. [destroy] of a live node, with fuel for one call at least, marks
    it destroyed, leaves it without a parent and out of a duplicate-free
    list of its former parent, and gives up its position, scale, pivot,
    skew, effects, mask and filters, in whatever store the call ends. *)
Theorem destroy_releases_the_node fuel options n s :
  destroyed (container s n) = false ->
  let s' := final (destroy (S fuel) options n s) in
  destroyed (container s' n) = true
  /\ parent (container s' n) = None
  /\ (forall p, parent (container s n) = Some p -> NoDup (children (container s p)) ->
                n ∉ children (container s' p))
  /\ _position (container s' n) = None /\ _scale (container s' n) = None
  /\ _pivot (container s' n) = None /\ _skew (container s' n) = None
  /\ effects (container s' n) = None /\ _mask (container s' n) = None
  /\ _filters (container s' n) = None.
Proof.
  intros Hlive s'. subst s'. cbn [destroy].
  rewrite bind_getC, Hlive, bind_modify.
  set (s1 := update n (set_destroyed true) s).
  destruct (returns_removeFromParent n s1) as ([] & Hrun2).
  set (s2 := final (removeFromParent n s1)) in *.
  rewrite (bind_Ok _ _ _ _ _ Hrun2), bind_modify.
  set (s3 := update n release_references s2).
  match goal with
  | |- context [final (?rest s3)] =>
      assert (Hrest : preserves (dwindled s3) rest)
  end.
  { apply preserves_bind; [apply preserves_getC|]. intros c1.
    apply preserves_bind; [repeat preserve_step; dwindled_leaf|]. intros _.
    apply preserves_bind; [apply preserves_lift; dwindled_leaf|]. intros _.
    apply preserves_bind; [apply preserves_lift; dwindled_leaf|]. intros _.
    apply preserves_bind; [apply dwindled_removeChildren|]. intros old.
    apply preserves_bind.
    { destruct (destroyChildren options); [|apply preserves_ret].
      apply preserves_forEach. intros child. apply dwindled_destroy. }
    intros _. repeat preserve_step; dwindled_leaf. }
  specialize (Hrest s3 (dwindled_refl s3)).
  assert (H12 : dwindled s1 s2) by (apply dwindled_removeFromParent, dwindled_refl).
  assert (Hn3 : container s3 n = release_references (container s2 n))
    by (unfold s3; apply container_update_eq).
  destruct (Hrest n) as (_ & Hp & Hd & _ & Ha & Hb & Hc & He & Hf & Hg & Hh).
  split.
  { apply Hd. rewrite Hn3. simpl. destruct (H12 n) as (_ & _ & Hd2 & _). apply Hd2.
    unfold s1. by rewrite container_update_eq. }
  split; [destruct Hp as [Hp|Hp]; [by rewrite Hp, Hn3|exact Hp]|].
  split; [|repeat split;
           first [apply Ha|apply Hb|apply Hc|apply He|apply Hf|apply Hg|apply Hh];
           by rewrite Hn3].
  intros p Hparent Hnodup.
  assert (Hgone : n ∉ children (container s2 p)).
  { unfold s2, removeFromParent. rewrite bind_getC.
    replace (parent (container s1 n)) with (Some p)
      by (unfold s1; by rewrite container_update_eq).
    destruct (returns_removeChild1 p n s1) as (r & Hr).
    rewrite (final_bind_Ok _ _ _ _ _ Hr). simpl.
    destruct (removeChild1_links p n s1 p) as [_ ->]. rewrite decide_True by done.
    assert (Hkids : children (container s1 p) = children (container s p)).
    { unfold s1. rewrite container_update. by destruct (decide (n = p)) as [->|]. }
    rewrite Hkids. destruct (remove_item_spec n _ Hnodup) as [_ Hmem].
    rewrite Hmem. tauto. }
  destruct (Hrest p) as (Hk & _).
  intros Hin. apply Hgone.
  assert (Hk3 : children (container s3 p) = children (container s2 p)).
  { unfold s3. rewrite container_update. by destruct (decide (n = p)) as [->|]. }
  rewrite <- Hk3. by eapply elem_of_sublist.
Qed.

(** ** [destroy] without the [children] option *)

Lemma dwindled_keeps_orphan s0 s child :
  dwindled s0 s -> parent (container s0 child) = None -> parent (container s child) = None.
Proof. intros Hd Hnone. destruct (Hd child) as (_ & [Hp|Hp] & _); congruence. Qed.

(** What every turn of a loop that cannot throw establishes for its element,
    and later turns keep, holds of every element when the loop ends. *)
Lemma forEach_each {A} (f : A -> M unit) (Q : A -> State (R:=R) -> Prop) l :
  (forall x, returns (f x)) ->
  (forall x s, Q x (final (f x s))) ->
  (forall x y, preserves (Q x) (f y)) ->
  forall s x, x ∈ l -> Q x (final (forEach f l s)).
Proof.
  intros Hret Hsets Hkeeps. induction l as [|y l IH]; intros s x Hx; [inversion Hx|].
  simpl. destruct (Hret y s) as ([] & Hy). rewrite (final_bind_Ok _ _ _ _ _ Hy).
  apply elem_of_cons in Hx as [->|Hx]; [|by apply IH].
  apply (preserves_forEach (Q y)); [intros z; apply Hkeeps|]. apply Hsets.
Qed.

(** [removeChildren] leaves every node it removes without a parent. *)
Lemma removeChildren_orphans n s child :
  child ∈ children (container s n) ->
  parent (container (final (removeChildren n s)) child) = None.
Proof.
  intros Hin. unfold removeChildren. rewrite bind_getC.
  set (detach := forEach _ (children (container s n))).
  assert (Hdetach_ret : returns detach) by (subst detach; repeat returns_step).
  destruct (Hdetach_ret s) as ([] & Hrun1).
  rewrite (final_bind_Ok _ _ _ _ _ Hrun1).
  assert (Horphan : parent (container (final (detach s)) child) = None).
  { subst detach.
    apply (forEach_each _ (fun x s' => parent (container s' x) = None)); [| | |exact Hin].
    - intros x. repeat returns_step.
    - intros x s0. rewrite bind_getC.
      destruct (renderGroup (container s0 n)) as [g|];
        unfold bind, lift, ret, modify, lift; simpl; by rewrite container_update_eq.
    - intros x y s0 Hx.
      assert (Hstep : preserves (dwindled s0)
                        (bind (getC n)
                           (fun c0 => bind match renderGroup c0 with
                                           | Some g => lift (RenderGroup_removeChild g y)
                                           | None => ret tt
                                           end
                                        (fun _ => modify y (set_parent None)))))
        by (repeat preserve_step; dwindled_leaf).
      apply (dwindled_keeps_orphan s0); [|exact Hx]. apply Hstep, dwindled_refl. }
  match goal with
  | |- context [final (?rest (final (detach s)))] =>
      assert (Hrest : preserves (dwindled (final (detach s))) rest)
        by (repeat preserve_step; dwindled_leaf)
  end.
  apply (dwindled_keeps_orphan (final (detach s))); [|exact Horphan].
  apply Hrest, dwindled_refl.
Qed.

(** The nodes [destroy] finds among the children of a live node end
    without a parent. *)
Lemma destroy_orphans k options n s child :
  roots_own_groups s ->
  destroyed (container s n) = false ->
  child ∈ children (container s n) ->
  parent (container (final (destroy (S k) options n s)) child) = None.
Proof.
  intros Hown Hlive Hin. cbn [destroy].
  rewrite bind_getC, Hlive, bind_modify.
  set (s1 := update n (set_destroyed true) s).
  destruct (returns_removeFromParent n s1) as ([] & Hrun2).
  set (s2 := final (removeFromParent n s1)) in *.
  rewrite (bind_Ok _ _ _ _ _ Hrun2), bind_modify, bind_getC.
  set (s3 := update n release_references s2).
  assert (Hc01 : calm_but n s s1) by (apply calm_but_update; intros; simpl; first [done|lia]).
  assert (Hc12 : calm_but n s1 s2)
    by (apply (calm_removeFromParent n s1 n s1), calm_but_refl).
  assert (Hc23 : calm_but n s2 s3) by (apply calm_but_update; intros; simpl; first [done|lia]).
  assert (Hown3 : roots_own_groups s3) by (apply Hc23, Hc12, Hc01, Hown).
  destruct (destroy_proxy_step n s3 Hown3) as (s4 & Hrun4 & Hsame4 & Htr4 & Hc34).
  rewrite (bind_Ok _ _ _ _ _ Hrun4), !bind_emit.
  set (s5 := log (EvRemoveAllListeners n) (log (EvDestroyed n) s4)).
  destruct (removeChildren_spec n s5) as (s6 & Hrun6 & _).
  assert (Hfinal6 : s6 = final (removeChildren n s5)) by (by rewrite Hrun6).
  rewrite (bind_Ok _ _ _ _ _ Hrun6).
  match goal with
  | |- context [final (?rest s6)] => assert (Hrest : preserves (dwindled s6) rest)
  end.
  { apply preserves_bind.
    { destruct (destroyChildren options); [|apply preserves_ret].
      apply preserves_forEach. intros x. apply dwindled_destroy. }
    intros _. repeat preserve_step; dwindled_leaf. }
  apply (dwindled_keeps_orphan s6); [apply Hrest, dwindled_refl|].
  assert (Hs5 : forall m, container s5 m = container s3 m)
    by (intros m; unfold s5; by rewrite !container_log, Hsame4).
  destruct (decide (child = n)) as [->|Hne].
  - apply (dwindled_keeps_orphan s5).
    + rewrite Hfinal6. apply dwindled_removeChildren, dwindled_refl.
    + rewrite Hs5. unfold s3. by rewrite container_update_eq.
  - rewrite Hfinal6. apply removeChildren_orphans.
    rewrite Hs5. unfold s3. rewrite container_update_eq. simpl.
    apply removeFromParent_keeps_children; [done|].
    unfold s1. by rewrite container_update_eq.
Qed.

(** X17. [destroy] without the [children] option, on a live node of a
    store whose render-group roots hold their groups, returns with fuel for
    a single call: the node is the only one it destroys, the node ends with
    no children, each node that was among its children ends without a parent
    but is not destroyed, and the node announces its destruction once. *)
Theorem destroy_spares_the_children fuel options n s :
  destroyChildren options = false ->
  roots_own_groups s ->
  destroyed (container s n) = false ->
  exists s',
    destroy (S fuel) options n s = Ok tt s'
    /\ destroyed (container s' n) = true
    /\ (forall m, m <> n -> destroyed (container s' m) = destroyed (container s m))
    /\ children (container s' n) = []
    /\ (forall child, child ∈ children (container s n) -> parent (container s' child) = None)
    /\ destroyed_events n s' = S (destroyed_events n s).
Proof.
  intros Hflat Hown Hlive.
  pose proof (destroy_orphans fuel options n s) as Horphans.
  destruct (destroy_head fuel options n s Hown Hlive)
    as (s6 & old & Hrun & Hcalm & Hdead & _ & Hnil & Hev & _).
  rewrite Hflat in Hrun. unfold bind at 1, ret at 1 in Hrun. rewrite bind_getC in Hrun.
  destruct Hcalm as (Hcalm & _).
  assert (Hevent : destroyed_events n s6 = S (destroyed_events n s))
    by (rewrite Hev, decide_True by done; lia).
  destruct (view (container s6 n)) as [v|].
  - exists (log (EvViewDestroy v options) s6). split; [exact Hrun|].
    rewrite Hrun in Horphans. simpl in Horphans.
    rewrite !container_log. split; [exact Hdead|].
    split; [intros m Hm; by apply (Hcalm m)|]. split; [exact Hnil|].
    split; [intros child Hin; by apply Horphans|].
    by rewrite destroyed_events_log.
  - exists s6. split; [exact Hrun|].
    rewrite Hrun in Horphans. simpl in Horphans.
    split; [exact Hdead|].
    split; [intros m Hm; by apply (Hcalm m)|]. split; [exact Hnil|].
    split; [intros child Hin; by apply Horphans|]. exact Hevent.
Qed.

(** ** The world transform is only cached *)

(** X18. Reading [worldTransform] writes nothing but the matrix the node
    caches, in whatever store the call ends: every other field of the node,
    every other node, the render groups and the trace are as before. *)
Theorem worldTransform_only_caches s n :
  let s' := final (worldTransform n s) in
  groups s' = groups s
  /\ trace s' = trace s
  /\ (forall m, m <> n -> container s' m = container s m)
  /\ container s' n = set_worldTransform (_worldTransform (container s' n)) (container s n).
Proof.
  intros s'.
  assert (Hframe : preserves
            (fun s1 => groups s1 = groups s /\ trace s1 = trace s
                       /\ (forall m, m <> n -> container s1 m = container s m)
                       /\ exists w, container s1 n = set_worldTransform w (container s n))
            (worldTransform n)).
  { unfold worldTransform. repeat preserve_step;
      intros s1 (Hg & Ht & Hother & w & Hn); try (by eauto);
      (split; [exact Hg|]; split; [exact Ht|]; split;
       [intros m Hm; by rewrite container_update_ne, Hother|]);
      rewrite container_update_eq, Hn; by eexists. }
  destruct (Hframe s) as (Hg & Ht & Hother & w & Hn).
  { split; [done|]. split; [done|]. split; [done|].
    exists (_worldTransform (container s n)). by destruct (container s n). }
  split; [exact Hg|]. split; [exact Ht|]. split; [exact Hother|].
  fold s' in Hn. by rewrite Hn.
Qed.

(** ** Adding a node and removing it again *)

Lemma remove_item_snoc (x : nat) (l : list nat) : x ∉ l -> remove_item x (l ++ [x]) = l.
Proof.
  intros Hx.
  destruct (indexOf_elem x (l ++ [x])) as (i & Hindex & Hat & Hfirst).
  { rewrite elem_of_app, list_elem_of_singleton. by right. }
  assert (Hi : i = length l).
  { destruct (decide (i < length l)%nat) as [Hlt|Hge].
    - rewrite lookup_app_l in Hat by done. destruct Hx. by eapply list_elem_of_lookup_2.
    - apply lookup_lt_Some in Hat. rewrite length_app in Hat. simpl in Hat. lia. }
  subst i. unfold remove_item. rewrite Hindex.
  replace (Z.of_nat (length l) >? -1) with true by (symmetry; apply Z.gtb_lt; lia).
  rewrite splice1_at by (rewrite length_app; simpl; lia).
  apply list_eq. intros j. destruct (decide (j < length l)%nat) as [Hlt|Hge].
  - rewrite list_lookup_delete_lt by done. by rewrite lookup_app_l.
  - rewrite list_lookup_delete_ge by lia.
    rewrite (lookup_ge_None_2 l j) by lia.
    apply lookup_ge_None_2. rewrite length_app. simpl. lia.
Qed.

(** X19. Adding a node without a parent to [P] and removing it again gives
    back the lists of children and the parent pointers the store had: both
    calls return the node, and the first one leaves it as the last child
    of [P]. *)
Theorem addChild_then_removeChild P C s :
  parent (container s C) = None ->
  C ∉ children (container s P) ->
  exists s1 s2,
    addChild P [C] s = Ok C s1
    /\ children (container s1 P) = children (container s P) ++ [C]
    /\ removeChild P [C] s1 = Ok C s2
    /\ forall m, children (container s2 m) = children (container s m)
                 /\ parent (container s2 m) = parent (container s m).
Proof.
  intros Horphan Hnew.
  change (addChild P [C] s) with (addChild1 P C s).
  assert (Hother : parent (container s C) <> Some P) by congruence.
  destruct (addChild1_new_child P C s Hother) as (s1 & Hrun1 & _).
  assert (Hs1 : s1 = final (addChild1 P C s)) by (by rewrite Hrun1).
  assert (Hlinks1 : forall m,
             parent (container s1 m)
             = (if decide (m = C) then Some P else parent (container s m))
             /\ children (container s1 m)
                = (if decide (m = P) then children (container s P) ++ [C]
                   else children (container s m))).
  { intros m. pose proof (addChild1_links P C s m) as Hlinks. cbv zeta in Hlinks.
    rewrite decide_False in Hlinks by exact Hother.
    unfold detached in Hlinks. rewrite Horphan in Hlinks. by rewrite Hs1. }
  exists s1, (final (removeChild1 P C s1)).
  split; [exact Hrun1|].
  split; [destruct (Hlinks1 P) as [_ ->]; by rewrite decide_True|].
  split; [apply removeChild1_runs|].
  intros m. destruct (removeChild1_links P C s1 m) as [-> ->].
  destruct (Hlinks1 m) as [-> ->]. destruct (Hlinks1 P) as [_ ->].
  rewrite (decide_True (P := P = P)) by done. split.
  - destruct (decide (m = P)) as [->|]; [|done]. by apply remove_item_snoc.
  - destruct (decide (m = C)) as [->|]; [|done]. by rewrite Horphan.
Qed.

(** ** The render-group rank is permanent *)

Lemma walk_to_keeps_nodes (Q : State (R:=R) -> Prop) fuel this start :
  preserves Q (walk_to fuel this start).
Proof.
  revert start. induction fuel as [|k IH]; intros start; simpl.
  - apply preserves_throw.
  - destruct start as [p|]; [|apply preserves_ret].
    destruct (decide (p = this)); [apply preserves_ret|].
    apply preserves_bind; [apply preserves_getC|]. intros c0. apply IH.
Qed.

Lemma rehome_keeps_nodes s0 fuel walk_fuel this pg i :
  preserves (fun s => forall m, container s m = container s0 m)
            (rehome fuel walk_fuel this pg i).
Proof.
  revert i. induction fuel as [|k IH]; intros i; simpl.
  - apply preserves_throw.
  - apply preserves_bind; [apply preserves_getG|]. intros PG.
    destruct (RenderGroup.renderGroupChildren PG !! i) as [childRenderGroup|];
      [|apply preserves_ret].
    apply preserves_bind; [apply preserves_getG|]. intros CG.
    apply preserves_bind; [apply walk_to_keeps_nodes|]. intros found.
    apply preserves_bind; [|intros _; apply IH].
    destruct found; [|apply preserves_ret].
    apply preserves_bind; [apply preserves_getC|]. intros c0.
    destruct (renderGroup c0); [|apply preserves_throw].
    apply preserves_lift. intros s1 Hs1 m. by rewrite container_addRenderGroupChild.
Qed.

(** X20. The [isRenderGroup] setter, and with it [enableRenderGroup],
    never takes the render-group rank away and changes the rank of no node
    but the one it is called on, whatever the value, the fuel and the store
    the call ends in. *)
Theorem isRenderGroup_set_never_demotes fuel value n s m :
  let s' := final (isRenderGroup_set fuel value n s) in
  (isRenderGroupRoot (container s m) = true -> isRenderGroupRoot (container s' m) = true)
  /\ (m <> n -> isRenderGroupRoot (container s' m) = isRenderGroupRoot (container s m)).
Proof.
  intros s'.
  set (Q := fun s1 : State (R:=R) =>
              (isRenderGroupRoot (container s m) = true ->
               isRenderGroupRoot (container s1 m) = true)
              /\ (m <> n -> isRenderGroupRoot (container s1 m)
                           = isRenderGroupRoot (container s m))).
  assert (Hsame : forall s1 s2, (forall k, container s2 k = container s1 k) -> Q s1 -> Q s2).
  { intros s1 s2 Heq HQ. unfold Q. rewrite Heq. exact HQ. }
  assert (Hwrite : forall f s1,
             (forall c, isRenderGroupRoot c = true -> isRenderGroupRoot (f c) = true) ->
             Q s1 -> Q (update n f s1)).
  { intros f s1 Hup [HQ1 HQ2]. unfold Q. rewrite container_update.
    destruct (decide (n = m)) as [->|Hne]; [|by split].
    split; [auto|]. intros Hm. by destruct Hm. }
  assert (Hleave : forall g s1, Q s1 -> Q (RenderGroup_removeChild g n s1)).
  { intros g s1 [HQ1 HQ2]. unfold Q.
    destruct (container_removeChild_fields g n s1 m) as (_ & -> & _). by split. }
  assert (Henable : preserves Q (enableRenderGroup fuel n)).
  { unfold enableRenderGroup.
    apply preserves_bind; [apply preserves_getC|]. intros c0.
    apply preserves_bind; [repeat preserve_step|]. intros owns.
    destruct owns; [apply preserves_ret|].
    apply preserves_bind; [apply preserves_lift; intros s1; by apply Hwrite|]. intros _.
    apply preserves_bind.
    { destruct (renderGroup c0); [|apply preserves_ret].
      apply preserves_lift. intros s1. apply Hleave. }
    intros _. apply preserves_bind.
    { intros s1 HQ. simpl. by apply (Hsame s1). }
    intros g. apply preserves_bind.
    { apply preserves_lift. intros s1. apply Hwrite; by intros []. }
    intros _. apply preserves_bind.
    { destruct (renderGroup c0) as [pg|]; [|apply preserves_ret].
      apply preserves_bind.
      - intros s1 HQ. apply (Hsame s1); [|exact HQ].
        by apply (rehome_keeps_nodes s1 fuel fuel n pg 0%nat s1).
      - intros _. apply preserves_bind; [apply preserves_getC|]. intros c1.
        destruct (renderGroup c1); [|apply preserves_throw].
        apply preserves_lift. intros s1. apply Hsame. intros k.
        apply container_addRenderGroupChild. }
    intros _. unfold _updateIsSimple.
    apply preserves_bind; [apply preserves_getC|]. intros c1.
    destruct (isRenderGroupRoot c1).
    - apply preserves_lift. intros s1. apply Hwrite; by intros [].
    - destruct (effects c1); [|apply preserves_throw].
      apply preserves_lift. intros s1. apply Hwrite; by intros []. }
  assert (Hset : preserves Q (isRenderGroup_set fuel value n)).
  { unfold isRenderGroup_set.
    apply preserves_bind; [apply preserves_getC|]. intros c0.
    destruct (isRenderGroupRoot c0 && negb value); [apply preserves_throw|].
    destruct value; [exact Henable|apply preserves_ret]. }
  apply Hset. by split.
Qed.

End Properties.

(** * The properties on concrete scenes *)

Lemma isRenderable_iff_bits_and_alpha_witness :
  isRenderable (container scene_tree sprite) = true.
Proof.
  destruct (isRenderable_iff_bits_and_alpha scene_tree sprite) as [Hiff _].
  - vm_compute. split; discriminate.
  - apply Hiff. vm_compute. auto.
Defined.

Lemma isRenderGroup_set_false_on_root_witness :
  isRenderGroup_set 1 false stage scene_tree = Throw UnsupportedOperation scene_tree.
Proof.
  apply (isRenderGroup_set_false_on_root 1 scene_tree stage).
  vm_compute. reflexivity.
Defined.

Lemma worldTransform_without_render_group_witness :
  exists w s',
    worldTransform loose scene_tree = Ok w s'
    /\ w = default Matrix.new (_worldTransform (container scene_tree loose))
    /\ s' = match _worldTransform (container scene_tree loose) with
            | Some _ => scene_tree
            | None => update loose (set_worldTransform (Some Matrix.new)) scene_tree
            end
    /\ worldTransform loose s' = Ok w s'.
Proof.
  apply (worldTransform_without_render_group scene_tree loose).
  vm_compute. reflexivity.
Defined.



Lemma removeChild_elsewhere_breaks_link_witness :
  exists s',
    removeChild loose [sprite] scene_tree = Ok sprite s'
    /\ sprite ∈ children (container s' panel)
    /\ parent (container s' sprite) = None.
Proof.
  destruct (removeChild_elsewhere_breaks_link scene_tree loose panel sprite)
    as (s' & Hrun & Hin & Hnull & _).
  - vm_compute. left.
  - vm_compute. reflexivity.
  - vm_compute. intros Hin. inversion Hin.
  - exists s'. repeat split; assumption.
Defined.

Lemma removeChild_non_child_clears_parent_witness :
  exists s',
    removeChild loose [sprite] scene_tree = Ok sprite s'
    /\ parent (container s' sprite) = None
    /\ container s' sprite <> container scene_tree sprite.
Proof.
  destruct (removeChild_non_child_clears_parent scene_tree loose panel sprite)
    as (s' & Hrun & _ & _ & Hnull & Hne).
  - vm_compute. intros Hin. inversion Hin.
  - vm_compute. reflexivity.
  - exists s'. repeat split; assumption.
Defined.

(** In exact arithmetic the matrix [appendFrom] builds sends a point where
    its second argument sends the image of the point under the first. *)
Lemma appendFrom_applies_first_then_second (w m1 m2 : Matrix.t Z) (p : Z * Z) :
  Matrix.apply (Matrix.appendFrom w m1 m2) p = Matrix.apply m2 (Matrix.apply m1 p).
Proof.
  destruct m1, m2, p. unfold Matrix.apply, Matrix.appendFrom. simpl. f_equal; lia.
Qed.

(** C4, as stated, fails: a node that belongs to no render group is marked
    by the first call and nobody is notified, so two calls do not produce
    exactly one notification for every node. *)
Lemma onUpdate_twice_exactly_one_counterexample :
  ~ (forall (s : State (R:=Z)) (n : nid),
        update_notifications n (final (onUpdate None n (final (onUpdate None n s))))
        = S (update_notifications n s)).
Proof.
  intros Hclaim. specialize (Hclaim empty_scene loose).
  vm_compute in Hclaim. discriminate.
Qed.

Lemma destroy_idempotent_and_destroys_children_witness :
  exists s',
    destroy 3 (OptBoolean true) panel scene_tree = Ok tt s'
    /\ destroyed (container s' sprite) = true
    /\ parent (container s' sprite) = None
    /\ children (container s' sprite) = []
    /\ destroyed_events sprite s' = 1%nat
    /\ destroy 3 (OptBoolean true) panel s' = Ok tt s'.
Proof.
  destruct (destroy_idempotent_and_destroys_children 3 (OptBoolean true) panel scene_tree)
    as (s' & Hrun & _ & Hagain & Hkids).
  - apply roots_own_groups_checked. vm_compute. reflexivity.
  - vm_compute. lia.
  - destruct (Hkids eq_refl) with (child := sprite) as (Hd & Hp & Hk & He).
    + vm_compute. reflexivity.
    + vm_compute. left.
    + vm_compute. reflexivity.
    + exists s'. repeat split; assumption.
Defined.


(** With a single nested render group below the promoted node the loop
    does what C6 says. *)
Lemma enableRenderGroup_rehomes_single_nested_group :
  let s := final (enableRenderGroup 4 sprite
             (final (addChild panel [sprite]
                (final (addChild stage [panel] scene_rooted))))) in
  (RenderGroup.renderGroupChildren <$> groups s !! 0%nat) = Some [1%nat]
  /\ exists s',
       enableRenderGroup 4 panel s = Ok tt s'
       /\ (RenderGroup.renderGroupParent <$> groups s' !! 1%nat) = Some (Some 2%nat)
       /\ (RenderGroup.renderGroupChildren <$> groups s' !! 0%nat) = Some [2%nat]
       /\ (RenderGroup.renderGroupChildren <$> groups s' !! 2%nat) = Some [1%nat].
Proof.
  split; [vm_compute; reflexivity|].
  eexists. split; [vm_compute; reflexivity|].
  repeat split; vm_compute; reflexivity.
Qed.

(** * The further properties on concrete scenes *)

Lemma visible_set_then_get_witness :
  visible (container (final (visible_set false sprite scene_tree)) sprite) = false.
Proof.
  destruct (visible_set_then_get scene_tree sprite false) as [Hread _].
  - intros _ g Hg. vm_compute in Hg. injection Hg as <-. vm_compute. by eexists.
  - exact Hread.
Defined.

Lemma point_getters_give_own_point_witness :
  exists p s', pivot_get 100 sprite scene_tree = Ok p s'
               /\ (pt_id <$> p) <> Some (pt_id (defaultPivot (R:=Z))).
Proof.
  destruct (point_getters_give_own_point 100%nat scene_tree sprite)
    as [(p & s' & Hrun & Hown & _) _]; [vm_compute; lia..|].
  exists p, s'. split; assumption.
Defined.

Lemma addChild_variadic_keeps_links_witness :
  linked (final (addChild stage [loose; label] scene_tree))
  /\ tidy (final (addChild stage [loose; label] scene_tree)).
Proof.
  destruct (links_checked_sound scene_tree) as [Hlinked Htidy]; [vm_compute; reflexivity|].
  exact (addChild_variadic_keeps_links stage [loose; label] scene_tree Hlinked Htidy).
Defined.

Lemma addChild_appends_in_order_witness :
  exists s', addChild stage [loose; label] scene_tree = Ok loose s'
             /\ children (container s' stage) = [panel; loose; label].
Proof.
  destruct (addChild_appends_in_order stage [loose; label] scene_tree loose)
    as (s' & Hrun & Hkids & _).
  - reflexivity.
  - apply (bool_decide_unpack _). vm_compute. exact I.
  - intros C HC. apply elem_of_cons in HC as [->|HC]; [vm_compute; discriminate|].
    apply list_elem_of_singleton in HC as ->. vm_compute. discriminate.
  - exists s'. split; [exact Hrun|]. rewrite Hkids. vm_compute. reflexivity.
Defined.

Lemma addChild_new_child_witness :
  exists s', addChild stage [loose] scene_tree = Ok loose s'
             /\ last (children (container s' stage)) = Some loose
             /\ _updateFlags (container s' loose) = 15.
Proof.
  destruct (addChild_new_child stage loose scene_tree)
    as (s' & Hrun & _ & Hlast & _ & _ & Hflags & _).
  - vm_compute. discriminate.
  - exists s'. repeat split; assumption.
Defined.

Lemma removeChild_detaches_each_witness :
  exists s', removeChild panel [sprite; loose] scene_tree = Ok sprite s'
             /\ linked s' /\ parent (container s' sprite) = None.
Proof.
  destruct (links_checked_sound scene_tree) as [Hlinked Htidy]; [vm_compute; reflexivity|].
  destruct (removeChild_detaches_each panel [sprite; loose] scene_tree sprite)
    as (s' & Hrun & Hlinked' & _ & Hgone & _).
  - reflexivity.
  - exact Hlinked.
  - exact Htidy.
  - intros C HC. apply elem_of_cons in HC as [->|HC]; [left; vm_compute; reflexivity|].
    apply list_elem_of_singleton in HC as ->. right. vm_compute. reflexivity.
  - exists s'. split; [exact Hrun|]. split; [exact Hlinked'|].
    apply Hgone. left.
Defined.

Lemma removeChild_found_child_witness :
  exists (i : nat) s',
    removeChild panel [sprite] scene_tree = Ok sprite s'
    /\ trace s' = EvRemoved sprite panel
                  :: EvChildRemoved panel sprite panel (Z.of_nat i) :: trace scene_tree.
Proof.
  destruct (removeChild_found_child panel sprite scene_tree)
    as (i & s' & Hrun & _ & _ & _ & _ & Htrace & _).
  - vm_compute. left.
  - exists i, s'. split; assumption.
Defined.

Lemma enableRenderGroup_makes_owner_witness :
  is_Some (group_owned_by (final (enableRenderGroup 4 panel scene_nested)) panel)
  /\ isRenderGroupRoot (container (final (enableRenderGroup 4 panel scene_nested)) panel)
     = true.
Proof.
  destruct (enableRenderGroup_makes_owner 4 scene_nested panel
              (final (enableRenderGroup 4 panel scene_nested)))
    as (Hown & _ & Hflag).
  - vm_compute. reflexivity.
  - split; [exact Hown|]. apply Hflag. vm_compute. reflexivity.
Defined.


Lemma destroy_releases_the_node_witness :
  (panel ∉ children (container (final (destroy 3 (OptBoolean true) panel scene_tree)) stage))
  /\ _position (container (final (destroy 3 (OptBoolean true) panel scene_tree)) panel)
     = None.
Proof.
  destruct (destroy_releases_the_node 2 (OptBoolean true) panel scene_tree)
    as (_ & _ & Hgone & Hposition & _).
  - vm_compute. reflexivity.
  - split; [|exact Hposition]. apply (Hgone stage).
    + vm_compute. reflexivity.
    + apply (bool_decide_unpack _). vm_compute. exact I.
Defined.

Lemma destroy_spares_the_children_witness :
  exists s', destroy 1 (OptBoolean false) panel scene_tree = Ok tt s'
             /\ destroyed (container s' sprite) = false
             /\ parent (container s' sprite) = None.
Proof.
  destruct (destroy_spares_the_children 0 (OptBoolean false) panel scene_tree)
    as (s' & Hrun & _ & Hspared & _ & Horphans & _).
  - reflexivity.
  - apply roots_own_groups_checked. vm_compute. reflexivity.
  - vm_compute. reflexivity.
  - exists s'. split; [exact Hrun|]. split.
    + rewrite Hspared by (vm_compute; lia). vm_compute. reflexivity.
    + apply Horphans. vm_compute. left.
Defined.

Lemma addChild_then_removeChild_witness :
  exists s1 s2,
    addChild stage [loose] scene_tree = Ok loose s1
    /\ removeChild stage [loose] s1 = Ok loose s2
    /\ children (container s2 stage) = children (container scene_tree stage).
Proof.
  destruct (addChild_then_removeChild stage loose scene_tree)
    as (s1 & s2 & Hadd & _ & Hremove & Hback).
  - vm_compute. reflexivity.
  - vm_compute. intros Hin. apply list_elem_of_singleton in Hin. discriminate.
  - exists s1, s2. split; [exact Hadd|]. split; [exact Hremove|]. apply Hback.
Defined.
